(** * push.py: copying a folder into a git checkout and publishing it

    A shallow embedding of [src/push.py].  The program is a sequence of
    filesystem and version-control calls wrapped in [try]/[except]/[finally];
    it is modelled as a state-and-exception monad over a [world] that holds
    the filesystem, the git metadata of local checkouts, the remote
    repositories and the lines printed so far.

    The functions of [push.py] ([handle_remove_readonly], [safe_rmtree],
    [clone_and_push_folder_fixed], [push_to_existing_repo]) are translated
    statement by statement.  The library calls they make ([os], [shutil],
    GitPython) are given an executable model in the first half of the file;
    its scope is stated where each primitive is defined. *)

From Stdlib Require Import String List Bool Arith Lia.
Import ListNotations.
Open Scope string_scope.
Open Scope list_scope.

Set Implicit Arguments.

(** * Association lists

    A directory keeps its entries in listing order; the first entry with a
    given name is the one a path resolves to. *)

Section AList.
Variable A : Type.

Fixpoint aget (k : string) (l : list (string * A)) : option A :=
  match l with
  | [] => None
  | (k', v) :: rest => if String.eqb k' k then Some v else aget k rest
  end.

(** Replace the first binding of [k] in place, or append a new one. *)
Fixpoint aset (k : string) (v : A) (l : list (string * A)) : list (string * A) :=
  match l with
  | [] => [(k, v)]
  | (k', v') :: rest =>
      if String.eqb k' k then (k, v) :: rest else (k', v') :: aset k v rest
  end.

(** Remove the bindings of [k]. *)
Fixpoint adel (k : string) (l : list (string * A)) : list (string * A) :=
  match l with
  | [] => []
  | (k', v') :: rest =>
      if String.eqb k' k then adel k rest else (k', v') :: adel k rest
  end.

Definition names (l : list (string * A)) : list string := map fst l.
End AList.

Definition mem (s : string) (l : list string) : bool := existsb (String.eqb s) l.

(** * Filesystem trees *)

(** A file carries the two attributes the program reacts to: the read-only
    attribute (on Windows it makes [os.unlink] and opening for writing fail
    until [os.chmod] clears it) and whether another process holds the file
    open (deletion and writing fail whatever the attributes).  Symbolic
    links are not modelled. *)
#[warnings="-register-all"]
Inductive node : Type :=
| File (readonly locked : bool) (data : string)
| Dir (entries : list (string * node)).

Definition entries := list (string * node).
Definition path := list string.

Fixpoint path_eqb (p q : path) : bool :=
  match p, q with
  | [], [] => true
  | a :: p', b :: q' => String.eqb a b && path_eqb p' q'
  | _, _ => false
  end.

Fixpoint lookup_path (n : node) (p : path) : option node :=
  match p with
  | [] => Some n
  | c :: rest =>
      match n with
      | Dir es =>
          match aget c es with
          | Some x => lookup_path x rest
          | None => None
          end
      | File _ _ _ => None
      end
  end.

(** Store [v] at [p], creating the missing directories on the way as
    [os.makedirs] does; [None] when a file is in the way. *)
Fixpoint put_path (p : path) (v : node) (n : node) : option node :=
  match p with
  | [] => Some v
  | c :: rest =>
      match n with
      | File _ _ _ => None
      | Dir es =>
          match put_path rest v
                  (match aget c es with Some x => x | None => Dir [] end) with
          | Some x' => Some (Dir (aset c x' es))
          | None => None
          end
      end
  end.

(** Replace what [p] resolves to by [v]; nothing happens when [p] does not
    resolve. *)
Fixpoint repl (p : path) (v : node) (n : node) : node :=
  match p with
  | [] => v
  | c :: rest =>
      match n with
      | File _ _ _ => n
      | Dir es =>
          match aget c es with
          | Some x => Dir (aset c (repl rest v x) es)
          | None => n
          end
      end
  end.

(** Remove the entry at [p]; nothing happens when it does not exist. *)
Fixpoint del_path (p : path) (n : node) : node :=
  match p with
  | [] => n
  | c :: rest =>
      match n with
      | File _ _ _ => n
      | Dir es =>
          match rest with
          | [] => Dir (adel c es)
          | _ :: _ =>
              match aget c es with
              | Some x => Dir (aset c (del_path rest x) es)
              | None => n
              end
          end
      end
  end.

Definition is_dir (n : node) (p : path) : bool :=
  match lookup_path n p with Some (Dir _) => true | _ => false end.

Definition exists_ (n : node) (p : path) : bool :=
  match lookup_path n p with Some _ => true | None => false end.

Definition parent (p : path) : path := removelast p.
Definition basename (p : path) : string := last p "".

Definition show_path (p : path) : string := "/" ++ String.concat "/" p.

Fixpoint node_eqb (a b : node) : bool :=
  match a, b with
  | File r1 l1 d1, File r2 l2 d2 =>
      Bool.eqb r1 r2 && Bool.eqb l1 l2 && String.eqb d1 d2
  | Dir e1, Dir e2 =>
      (fix go (x y : entries) : bool :=
         match x, y with
         | [], [] => true
         | (k1, n1) :: x', (k2, n2) :: y' =>
             String.eqb k1 k2 && node_eqb n1 n2 && go x' y'
         | _, _ => false
         end) e1 e2
  | _, _ => false
  end.

Definition tree_eqb (a b : entries) : bool := node_eqb (Dir a) (Dir b).

(** * Git objects

    A commit records a message and the tracked content of the working tree.
    A branch is its list of commits, newest first. *)

Record commit : Type := { c_message : string; c_tree : entries }.

Definition history := list commit.

(** The metadata GitPython reads from [<checkout>/.git]. *)
Record repo : Type := {
  heads : list (string * history);        (* local branches *)
  remote_refs : list (string * history);  (* origin/<name> *)
  head_branch : string;                   (* the branch HEAD points to *)
  origin : option string;                 (* URL of the remote named origin *)
  index : entries                         (* the staging area *)
}.

Record remote : Type := {
  r_branches : list (string * history);
  r_default : string;                     (* the branch a clone checks out *)
  r_accepts_push : bool                   (* credentials and permissions allow a push *)
}.

Fixpoint rget (p : path) (l : list (path * repo)) : option repo :=
  match l with
  | [] => None
  | (q, r) :: rest => if path_eqb q p then Some r else rget p rest
  end.

Fixpoint rset (p : path) (r : repo) (l : list (path * repo)) : list (path * repo) :=
  match l with
  | [] => [(p, r)]
  | (q, r') :: rest =>
      if path_eqb q p then (p, r) :: rest else (q, r') :: rset p r rest
  end.

(** * The world *)

Record world : Type := {
  fs : node;                              (* the root directory *)
  cwd : path;                             (* the process working directory *)
  repos : list (path * repo);             (* git metadata, by checkout path *)
  remotes : list (string * remote);       (* remote repositories, by URL *)
  out : list string                       (* standard output, oldest line first *)
}.

Definition set_fs (f : node) (w : world) : world :=
  {| fs := f; cwd := cwd w; repos := repos w; remotes := remotes w; out := out w |}.
Definition set_repos (r : list (path * repo)) (w : world) : world :=
  {| fs := fs w; cwd := cwd w; repos := r; remotes := remotes w; out := out w |}.
Definition set_remotes (r : list (string * remote)) (w : world) : world :=
  {| fs := fs w; cwd := cwd w; repos := repos w; remotes := r; out := out w |}.
Definition set_out (o : list string) (w : world) : world :=
  {| fs := fs w; cwd := cwd w; repos := repos w; remotes := remotes w; out := o |}.

(** * Exceptions and the monad *)

Inductive exn : Type :=
| FileNotFoundError (p : path)
| FileExistsError (p : path)
| NotADirectoryError (p : path)
| IsADirectoryError (p : path)
| PermissionError (p : path)
| DirectoryNotEmpty (p : path)
| SameFileError (p : path)
| ShutilError (errors : list string)
| NoSuchPathError (p : path)
| InvalidGitRepositoryError (p : path)
| GitCommandError (msg : string)
| ValueError (msg : string).

(** [str(e)] *)
Definition exn_str (e : exn) : string :=
  match e with
  | FileNotFoundError p => "No such file or directory: " ++ show_path p
  | FileExistsError p => "File exists: " ++ show_path p
  | NotADirectoryError p => "Not a directory: " ++ show_path p
  | IsADirectoryError p => "Is a directory: " ++ show_path p
  | PermissionError p => "Permission denied: " ++ show_path p
  | DirectoryNotEmpty p => "Directory not empty: " ++ show_path p
  | SameFileError p => show_path p ++ " and itself are the same file"
  | ShutilError errs => "[" ++ String.concat ", " errs ++ "]"
  | NoSuchPathError p => show_path p
  | InvalidGitRepositoryError p => show_path p
  | GitCommandError msg => msg
  | ValueError msg => msg
  end.

(** Every exception the modelled primitives raise derives from
    [Exception]; [KeyboardInterrupt] and the like do not occur in a run
    that is a function of its inputs. *)
Definition isinstance_Exception (e : exn) : bool := true.

Definition isinstance_GitCommandError (e : exn) : bool :=
  match e with GitCommandError _ => true | _ => false end.

Definition isinstance_OSError (e : exn) : bool :=
  match e with
  | GitCommandError _ | ValueError _ | InvalidGitRepositoryError _ => false
  | _ => true
  end.

Inductive outcome (A : Type) : Type :=
| Ok (a : A)
| Raise (e : exn).
Arguments Ok {A} a.
Arguments Raise {A} e.

Definition M (A : Type) : Type := world -> outcome A * world.

Definition ret {A} (a : A) : M A := fun w => (Ok a, w).
Definition raise {A} (e : exn) : M A := fun w => (Raise e, w).
Definition bind {A B} (c : M A) (k : A -> M B) : M B :=
  fun w =>
    match c w with
    | (Ok a, w') => k a w'
    | (Raise e, w') => (Raise e, w')
    end.

Declare Scope m_scope.
Delimit Scope m_scope with M.
Notation "x <- c1 ;; c2" := (bind c1 (fun x => c2))
  (at level 61, c1 at next level, right associativity) : m_scope.
Notation "c1 ;; c2" := (bind c1 (fun _ => c2))
  (at level 61, right associativity) : m_scope.
Open Scope m_scope.

(** [try: body except <handles>: handler] *)
Definition try_except {A} (body : M A) (handles : exn -> bool)
    (handler : exn -> M A) : M A :=
  fun w =>
    match body w with
    | (Raise e, w') => if handles e then handler e w' else (Raise e, w')
    | r => r
    end.

(** [try: body except <h1>: k1 except <h2>: k2]: the first clause that
    matches runs, and an exception raised by a handler is not caught by the
    other clause. *)
Definition try_except2 {A} (body : M A)
    (h1 : exn -> bool) (k1 : exn -> M A)
    (h2 : exn -> bool) (k2 : exn -> M A) : M A :=
  fun w =>
    match body w with
    | (Raise e, w') =>
        if h1 e then k1 e w' else if h2 e then k2 e w' else (Raise e, w')
    | r => r
    end.

(** [try: body finally: final]: [final] runs on every exit of [body]; the
    outcome of [body] stands unless [final] itself raises. *)
Definition try_finally {A} (body : M A) (final : M unit) : M A :=
  fun w =>
    match body w with
    | (r, w') =>
        match final w' with
        | (Ok _, w'') => (r, w'')
        | (Raise e, w'') => (Raise e, w'')
        end
    end.

(** [for x in xs: body x] *)
Fixpoint for_each {A} (xs : list A) (body : A -> M unit) : M unit :=
  match xs with
  | [] => ret tt
  | x :: rest => body x ;; for_each rest body
  end.

Definition print (line : string) : M unit :=
  fun w => (Ok tt, set_out (out w ++ [line]) w).

(** * The [os] primitives *)

(** A path argument is a string; it is absolute or relative to the working
    directory.  Components are plain names ([..] and [.] are not modelled). *)
Inductive pathstr : Type :=
| Abs (p : path)
| Rel (p : path).

Definition os_path_abspath (s : pathstr) : M path :=
  fun w => (Ok (match s with Abs p => p | Rel p => cwd w ++ p end), w).

Definition os_path_join (p : path) (item : string) : path := p ++ [item].

Definition os_path_exists (p : path) : M bool :=
  fun w => (Ok (exists_ (fs w) p), w).

Definition os_path_isdir (p : path) : M bool :=
  fun w => (Ok (is_dir (fs w) p), w).

Definition os_listdir (p : path) : M (list string) :=
  fun w =>
    match lookup_path (fs w) p with
    | Some (Dir es) => (Ok (names es), w)
    | Some (File _ _ _) => (Raise (NotADirectoryError p), w)
    | None => (Raise (FileNotFoundError p), w)
    end.

(** [os.scandir] as [shutil.rmtree] uses it: only whether it raises matters
    to the caller of the error handler. *)
Definition os_scandir (p : path) : M unit :=
  fun w =>
    match lookup_path (fs w) p with
    | Some (Dir _) => (Ok tt, w)
    | Some (File _ _ _) => (Raise (NotADirectoryError p), w)
    | None => (Raise (FileNotFoundError p), w)
    end.

Definition os_unlink (p : path) : M unit :=
  fun w =>
    match lookup_path (fs w) p with
    | Some (File ro locked _) =>
        if ro || locked then (Raise (PermissionError p), w)
        else (Ok tt, set_fs (del_path p (fs w)) w)
    | Some (Dir _) => (Raise (IsADirectoryError p), w)
    | None => (Raise (FileNotFoundError p), w)
    end.

Definition os_rmdir (p : path) : M unit :=
  fun w =>
    match lookup_path (fs w) p with
    | Some (Dir []) =>
        match p with
        | [] => (Raise (PermissionError p), w)
        | _ :: _ => (Ok tt, set_fs (del_path p (fs w)) w)
        end
    | Some (Dir (_ :: _)) => (Raise (DirectoryNotEmpty p), w)
    | Some (File _ _ _) => (Raise (NotADirectoryError p), w)
    | None => (Raise (FileNotFoundError p), w)
    end.

(** [os.chmod(path, stat.S_IWRITE)]: clears the read-only attribute. *)
Definition os_chmod_S_IWRITE (p : path) : M unit :=
  fun w =>
    match lookup_path (fs w) p with
    | Some (File _ locked data) =>
        match put_path p (File false locked data) (fs w) with
        | Some f => (Ok tt, set_fs f w)
        | None => (Raise (FileNotFoundError p), w)
        end
    | Some (Dir _) => (Ok tt, w)
    | None => (Raise (FileNotFoundError p), w)
    end.

(** * [shutil.rmtree] *)

(** The function [shutil.rmtree] hands to [onerror]. *)
Inductive os_func : Type := F_scandir | F_unlink | F_rmdir.

Definition call_func (f : os_func) (p : path) : M unit :=
  match f with
  | F_scandir => os_scandir p
  | F_unlink => os_unlink p
  | F_rmdir => os_rmdir p
  end.

Definition onerror_t : Type := os_func -> path -> exn -> M unit.

(** [try: f(p) except OSError: onerror(f, p, exc_info)] *)
Definition guarded (onerror : onerror_t) (f : os_func) (p : path) : M unit :=
  try_except (call_func f p) isinstance_OSError (fun e => onerror f p e).

(** The loop of [_rmtree_unsafe] over the entries found by [os.scandir]. *)
Fixpoint rm_children (rec : node -> path -> M unit) (onerror : onerror_t)
    (es : entries) (p : path) : M unit :=
  match es with
  | [] => ret tt
  | (name, child) :: rest =>
      (match child with
       | Dir _ => rec child (p ++ [name])
       | File _ _ _ => guarded onerror F_unlink (p ++ [name])
       end) ;;
      rm_children rec onerror rest p
  end.

(** [shutil._rmtree_unsafe(path, onerror)], where [n] is what [os.scandir]
    finds at [path]: a file makes [os.scandir] fail, and the entries are
    then taken to be empty. *)
Fixpoint rmtree_unsafe (onerror : onerror_t) (n : node) (p : path) : M unit :=
  match n with
  | File _ _ _ =>
      onerror F_scandir p (NotADirectoryError p) ;;
      guarded onerror F_rmdir p
  | Dir es =>
      rm_children (rmtree_unsafe onerror) onerror es p ;;
      guarded onerror F_rmdir p
  end.

Definition shutil_rmtree (p : path) (onerror : onerror_t) : M unit :=
  fun w =>
    match lookup_path (fs w) p with
    | Some n => rmtree_unsafe onerror n p w
    | None =>
        (onerror F_scandir p (FileNotFoundError p) ;;
         guarded onerror F_rmdir p) w
    end.

(** * [shutil.copy2] and [shutil.copytree] *)

(** Opening [name] in a directory for writing, storing the data and copying
    the source's permission bits ([shutil.copyfile] then [shutil.copystat]). *)
Definition write_file (dir : path) (name : string) (ro : bool) (data : string)
    (es : entries) : outcome entries :=
  match aget name es with
  | Some (Dir _) => Raise (IsADirectoryError (dir ++ [name]))
  | Some (File ro' locked' _) =>
      if ro' || locked' then Raise (PermissionError (dir ++ [name]))
      else Ok (aset name (File ro false data) es)
  | None => Ok (aset name (File ro false data) es)
  end.

(** [shutil.copy2(src/name, dst/name)] seen from the directory [dst] with
    entries [ds]: when [dst/name] is a directory the file goes into it, under
    the base name of the source. *)
Definition copy2_entry (dst : path) (name : string) (ro : bool) (data : string)
    (ds : entries) : outcome entries :=
  match aget name ds with
  | Some (Dir sub) =>
      match write_file (dst ++ [name]) name ro data sub with
      | Ok sub' => Ok (aset name (Dir sub') ds)
      | Raise e => Raise e
      end
  | _ => write_file dst name ro data ds
  end.

(** One iteration of the loop of [shutil._copytree]: the errors of the
    entry are collected, not raised. *)
Definition copy_child
    (rec : path -> node -> entries -> entries * list string)
    (dirs_exist_ok : bool) (dst : path) (name : string) (child : node)
    (ds : entries) : entries * list string :=
  match child with
  | Dir _ =>
      match aget name ds with
      | None =>
          let '(sub, errs) := rec (dst ++ [name]) child [] in
          (aset name (Dir sub) ds, errs)
      | Some (Dir sub0) =>
          if dirs_exist_ok then
            let '(sub, errs) := rec (dst ++ [name]) child sub0 in
            (aset name (Dir sub) ds, errs)
          else (ds, [exn_str (FileExistsError (dst ++ [name]))])
      | Some (File _ _ _) => (ds, [exn_str (FileExistsError (dst ++ [name]))])
      end
  | File ro _ data =>
      match copy2_entry dst name ro data ds with
      | Ok ds' => (ds', [])
      | Raise e => (ds, [exn_str e])
      end
  end.

Fixpoint copy_children
    (rec : path -> node -> entries -> entries * list string)
    (dirs_exist_ok : bool) (dst : path) (ss : entries) (ds : entries)
    : entries * list string :=
  match ss with
  | [] => (ds, [])
  | (name, child) :: rest =>
      let '(ds1, e1) := copy_child rec dirs_exist_ok dst name child ds in
      let '(ds2, e2) := copy_children rec dirs_exist_ok dst rest ds1 in
      (ds2, e1 ++ e2)
  end.

(** [shutil._copytree] after [os.makedirs(dst)] succeeded: [s] is the source
    directory as [os.scandir] lists it, [ds] the entries the destination
    directory has.  The result is what the destination holds afterwards and
    the errors collected on the way. *)
Fixpoint copytree_node (dirs_exist_ok : bool) (dst : path) (s : node)
    (ds : entries) : entries * list string :=
  match s with
  | File _ _ _ => (ds, [exn_str (NotADirectoryError dst)])
  | Dir ss =>
      copy_children (copytree_node dirs_exist_ok) dirs_exist_ok dst ss ds
  end.

(** [shutil.copytree(src, dst, dirs_exist_ok=...)].  The source is read
    before the destination is written, which is what the library does when
    the destination does not lie inside the source nor the source inside the
    destination. *)
Definition shutil_copytree (src dst : path) (dirs_exist_ok : bool) : M unit :=
  fun w =>
    match lookup_path (fs w) src with
    | None => (Raise (FileNotFoundError src), w)
    | Some (File _ _ _) => (Raise (NotADirectoryError src), w)
    | Some (Dir ss) =>
        let go (ds : entries) :=
          let '(rs, errs) := copytree_node dirs_exist_ok dst (Dir ss) ds in
          match put_path dst (Dir rs) (fs w) with
          | None => (Raise (FileExistsError dst), w)
          | Some f =>
              match errs with
              | [] => (Ok tt, set_fs f w)
              | _ :: _ => (Raise (ShutilError errs), set_fs f w)
              end
          end in
        match lookup_path (fs w) dst with
        | Some (File _ _ _) => (Raise (FileExistsError dst), w)
        | Some (Dir ds) =>
            if dirs_exist_ok then go ds else (Raise (FileExistsError dst), w)
        | None => go []
        end
    end.

Definition shutil_copy2 (src dst : path) : M unit :=
  fun w =>
    let dst' := if is_dir (fs w) dst then dst ++ [basename src] else dst in
    if path_eqb src dst' then (Raise (SameFileError src), w)
    else
      match lookup_path (fs w) src with
      | None => (Raise (FileNotFoundError src), w)
      | Some (Dir _) => (Raise (IsADirectoryError src), w)
      | Some (File ro _ data) =>
          let write :=
            match put_path dst' (File ro false data) (fs w) with
            | Some f => (Ok tt, set_fs f w)
            | None => (Raise (NotADirectoryError dst'), w)
            end in
          match lookup_path (fs w) dst' with
          | Some (Dir _) => (Raise (IsADirectoryError dst'), w)
          | Some (File ro' locked' _) =>
              if ro' || locked' then (Raise (PermissionError dst'), w)
              else write
          | None =>
              if is_dir (fs w) (parent dst') then write
              else (Raise (FileNotFoundError dst'), w)
          end
      end.

(** * GitPython *)

(** ** What a commit records

    Git records files: their content, not the read-only attribute nor who
    holds them open; a directory that holds no file is not recorded, and
    the [.git] directory of the checkout is not part of the working tree.
    Ignore rules and the executable bit are not modelled. *)

Fixpoint clear (n : node) : node :=
  match n with
  | File _ _ d => File false false d
  | Dir es => Dir (map (fun kx => let '(k, x) := kx in (k, clear x)) es)
  end.

Fixpoint has_file (n : node) : bool :=
  match n with
  | File _ _ _ => true
  | Dir es => existsb (fun kx => let '(_, x) := kx in has_file x) es
  end.

Fixpoint prune (n : node) : node :=
  match n with
  | File _ _ _ => n
  | Dir es =>
      Dir ((fix go (l : entries) : entries :=
              match l with
              | [] => []
              | (k, x) :: rest =>
                  if has_file x then (k, prune x) :: go rest else go rest
              end) es)
  end.

Definition clear_entries (es : entries) : entries :=
  map (fun kx => let '(k, x) := kx in (k, clear x)) es.

Fixpoint prune_entries (es : entries) : entries :=
  match es with
  | [] => []
  | (k, x) :: rest =>
      if has_file x then (k, prune x) :: prune_entries rest
      else prune_entries rest
  end.

Definition strip_git (es : entries) : entries :=
  filter (fun kx => negb (String.eqb (fst kx) ".git")) es.

Definition git_entries (es : entries) : entries :=
  filter (fun kx => String.eqb (fst kx) ".git") es.

Definition tracked (es : entries) : entries :=
  prune_entries (clear_entries (strip_git es)).

(** The [.git] directory a clone creates; its object files are read-only. *)
Definition dotgit : string * node :=
  (".git", Dir [("objects", Dir [("pack", File true false "")])]).

Definition branch_history (hs : list (string * history)) (b : string) : history :=
  match aget b hs with Some h => h | None => [] end.

Definition branch_tree (hs : list (string * history)) (b : string) : entries :=
  match branch_history hs b with
  | c :: _ => tracked (c_tree c)
  | [] => []
  end.

Definition head_tree (r : repo) : entries := branch_tree (heads r) (head_branch r).

Definition worktree_of (f : node) (p : path) : entries :=
  match lookup_path f p with Some (Dir es) => es | _ => [] end.

Definition with_heads (h : list (string * history)) (r : repo) : repo :=
  {| heads := h; remote_refs := remote_refs r; head_branch := head_branch r;
     origin := origin r; index := index r |}.
Definition with_remote_refs (h : list (string * history)) (r : repo) : repo :=
  {| heads := heads r; remote_refs := h; head_branch := head_branch r;
     origin := origin r; index := index r |}.
Definition with_head_branch (b : string) (r : repo) : repo :=
  {| heads := heads r; remote_refs := remote_refs r; head_branch := b;
     origin := origin r; index := index r |}.
Definition with_index (i : entries) (r : repo) : repo :=
  {| heads := heads r; remote_refs := remote_refs r; head_branch := head_branch r;
     origin := origin r; index := i |}.

Definition commit_eqb (a b : commit) : bool :=
  String.eqb (c_message a) (c_message b) && tree_eqb (c_tree a) (c_tree b).

Fixpoint history_eqb (a b : history) : bool :=
  match a, b with
  | [], [] => true
  | x :: a', y :: b' => commit_eqb x y && history_eqb a' b'
  | _, _ => false
  end.

(** [old] is reached from [new] by following parents: a push of [new] over
    [old] is a fast-forward. *)
Fixpoint is_ancestor (old new : history) : bool :=
  history_eqb old new ||
  match new with
  | [] => false
  | _ :: rest => is_ancestor old rest
  end.

(** ** Operations *)

Definition get_repo (p : path) : M repo :=
  fun w =>
    match rget p (repos w) with
    | Some r => (Ok r, w)
    | None => (Raise (InvalidGitRepositoryError p), w)
    end.

Definition put_repo (p : path) (r : repo) : M unit :=
  fun w => (Ok tt, set_repos (rset p r (repos w)) w).

(** The working tree and the metadata of a fresh clone of [rm]: the default
    branch is checked out and is the only local branch; every branch of the
    remote is known as [origin/<name>]. *)
Definition cloned_tree (rm : remote) : entries :=
  dotgit :: branch_tree (r_branches rm) (r_default rm).

Definition cloned_repo (url : string) (rm : remote) : repo :=
  {| heads :=
       match aget (r_default rm) (r_branches rm) with
       | Some h => [(r_default rm, h)]
       | None => []
       end;
     remote_refs := r_branches rm;
     head_branch := r_default rm;
     origin := Some url;
     index := branch_tree (r_branches rm) (r_default rm) |}.

(** [git.Repo.clone_from(url, to_path)]: the handle it returns is the
    checkout path. *)
Definition Repo_clone_from (url : string) (dir : path) : M path :=
  fun w =>
    match aget url (remotes w) with
    | None =>
        (Raise (GitCommandError ("repository '" ++ url ++ "' not found")), w)
    | Some rm =>
        let refuse :=
          (Raise (GitCommandError
             ("destination path '" ++ show_path dir ++
              "' already exists and is not an empty directory")), w) in
        let clone :=
          match put_path dir (Dir (cloned_tree rm)) (fs w) with
          | None =>
              (Raise (GitCommandError
                 ("could not create work tree dir '" ++ show_path dir ++ "'")), w)
          | Some f =>
              (Ok dir,
               set_repos (rset dir (cloned_repo url rm) (repos w)) (set_fs f w))
          end in
        match lookup_path (fs w) dir with
        | Some (File _ _ _) => refuse
        | Some (Dir (_ :: _)) => refuse
        | Some (Dir []) => clone
        | None => clone
        end
    end.

(** [git.Repo(path)] *)
Definition Repo_open (p : path) : M path :=
  fun w =>
    if negb (exists_ (fs w) p) then (Raise (NoSuchPathError p), w)
    else if negb (is_dir (fs w) (p ++ [".git"])) then
      (Raise (InvalidGitRepositoryError p), w)
    else
      match rget p (repos w) with
      | Some _ => (Ok p, w)
      | None => (Raise (InvalidGitRepositoryError p), w)
      end.

(** [[branch.name for branch in repo.branches]] *)
Definition repo_branch_names (p : path) : M (list string) :=
  r <- get_repo p ;; ret (names (heads r)).

Definition repo_refs_of (r : repo) : list (string * history) :=
  heads r ++ map (fun kh => (("origin/" ++ fst kh)%string, snd kh)) (remote_refs r).

(** [[ref.name for ref in repo.refs]]; tags are not modelled. *)
Definition repo_ref_names (p : path) : M (list string) :=
  r <- get_repo p ;; ret (names (repo_refs_of r)).

(** Moving HEAD to branch [name] of [r] and rewriting the working tree.
    Git refuses when local changes would be overwritten; the model refuses
    whenever the tree changes and the checkout is not clean. *)
Definition switch_to (p : path) (name : string) (r : repo) : M unit :=
  fun w =>
    let target := branch_tree (heads r) name in
    let wt := worktree_of (fs w) p in
    if tree_eqb target (head_tree r) then
      (Ok tt, set_repos (rset p (with_head_branch name r) (repos w)) w)
    else if tree_eqb (tracked wt) (head_tree r) && tree_eqb (index r) (head_tree r)
    then
      match put_path p (Dir (git_entries wt ++ target)) (fs w) with
      | Some f =>
          (Ok tt,
           set_repos
             (rset p (with_index target (with_head_branch name r)) (repos w))
             (set_fs f w))
      | None =>
          (Raise (GitCommandError "cannot write the working tree"), w)
      end
    else
      (Raise (GitCommandError
         "Your local changes would be overwritten by checkout"), w).

(** [repo.git.checkout(name)] *)
Definition git_checkout (p : path) (name : string) : M unit :=
  r <- get_repo p ;;
  match aget name (heads r) with
  | Some _ => switch_to p name r
  | None =>
      raise (GitCommandError
               ("pathspec '" ++ name ++ "' did not match any file(s) known to git"))
  end.

(** [repo.git.checkout('-b', name, start)] *)
Definition git_checkout_b (p : path) (name start : string) : M unit :=
  r <- get_repo p ;;
  match aget name (heads r) with
  | Some _ =>
      raise (GitCommandError ("a branch named '" ++ name ++ "' already exists"))
  | None =>
      match aget start (repo_refs_of r) with
      | Some h => switch_to p name (with_heads (aset name h (heads r)) r)
      | None =>
          raise (GitCommandError ("'" ++ start ++ "' is not a commit"))
      end
  end.

(** [repo.git.add(all=True)] *)
Definition git_add_all (p : path) : M unit :=
  r <- get_repo p ;;
  fun w =>
    (Ok tt,
     set_repos (rset p (with_index (tracked (worktree_of (fs w) p)) r) (repos w)) w).

(** [repo.is_dirty()]: the index differs from HEAD, or the working tree
    from the index. *)
Definition repo_is_dirty (p : path) : M bool :=
  r <- get_repo p ;;
  fun w =>
    (Ok (negb (tree_eqb (index r) (head_tree r))
         || negb (tree_eqb (tracked (worktree_of (fs w) p)) (index r))), w).

Fixpoint file_paths (n : node) (p : path) : list path :=
  match n with
  | File _ _ _ => [p]
  | Dir es => flat_map (fun kx => let '(k, x) := kx in file_paths x (p ++ [k])) es
  end.

(** [repo.untracked_files]: the files of the working tree the index does
    not know. *)
Definition repo_untracked_files (p : path) : M (list path) :=
  r <- get_repo p ;;
  fun w =>
    (Ok (filter
           (fun q => negb (existsb (path_eqb q) (file_paths (Dir (index r)) [])))
           (file_paths (Dir (tracked (worktree_of (fs w) p))) [])), w).

(** Truth value of a Python list. *)
Definition truthy {A} (l : list A) : bool :=
  match l with [] => false | _ :: _ => true end.

(** [repo.index.commit(message)] *)
Definition index_commit (p : path) (message : string) : M unit :=
  r <- get_repo p ;;
  put_repo p
    (with_heads
       (aset (head_branch r)
          ({| c_message := message; c_tree := index r |}
             :: branch_history (heads r) (head_branch r))
          (heads r))
       r).

(** [repo.remote(name='origin')]: the handle is the URL. *)
Definition repo_remote_origin (p : path) : M string :=
  r <- get_repo p ;;
  match origin r with
  | Some url => ret url
  | None => raise (ValueError "Remote named 'origin' didn't exist")
  end.

(** [origin.push()]: the current branch goes to the branch of the same name
    on the remote.  When git cannot reach the remote or is refused access it
    reports no result for any ref, and the call raises [GitCommandError].
    When the remote rejects the update because it is not a fast-forward,
    git reports the rejected ref, and the call returns its list of results
    with the error flag set on that entry: nothing is raised, and nothing
    has changed on either side. *)
Definition remote_push (p : path) (url : string) : M unit :=
  r <- get_repo p ;;
  fun w =>
    match aget url (remotes w) with
    | None =>
        (Raise (GitCommandError ("unable to access '" ++ url ++ "'")), w)
    | Some rm =>
        if negb (r_accepts_push rm) then
          (Raise (GitCommandError
             ("Authentication failed for '" ++ url ++ "'")), w)
        else
          let b := head_branch r in
          let mine := branch_history (heads r) b in
          if is_ancestor (branch_history (r_branches rm) b) mine then
            (Ok tt,
             set_remotes
               (aset url
                  {| r_branches := aset b mine (r_branches rm);
                     r_default := r_default rm;
                     r_accepts_push := r_accepts_push rm |}
                  (remotes w))
               (set_repos
                  (rset p (with_remote_refs (aset b mine (remote_refs r)) r)
                     (repos w))
                  w))
          else (Ok tt, w)
    end.

(** * [push.py] *)

(** [handle_remove_readonly(func, path, exc)], lines 7-14. *)
Definition handle_remove_readonly : onerror_t :=
  fun func path exc =>
    e <- os_path_exists path ;;
    if e then
      (* Make the file writable and retry *)
      os_chmod_S_IWRITE path ;;
      call_func func path
    else ret tt.

(** [safe_rmtree(path)], lines 16-24. *)
Definition safe_rmtree (path : path) : M unit :=
  e <- os_path_exists path ;;
  if e then
    try_except (shutil_rmtree path handle_remove_readonly)
      isinstance_Exception
      (fun e =>
         print ("Warning: Could not completely remove " ++ show_path path
                ++ ": " ++ exn_str e))
  else ret tt.

(** ** [clone_and_push_folder_fixed], lines 26-118 *)

(** Lines 42-53: remove a previous clone directory and clone. *)
Definition cp_acquire (repo_url : string) (local_folder_path clone_dir : path)
    : M path :=
  print ("Local folder: " ++ show_path local_folder_path) ;;
  print ("Clone directory: " ++ show_path clone_dir) ;;
  e <- os_path_exists clone_dir ;;
  (if e then
     print "Removing existing clone directory..." ;;
     safe_rmtree clone_dir
   else ret tt) ;;
  print ("Cloning repository from " ++ repo_url ++ "...") ;;
  repo <- Repo_clone_from repo_url clone_dir ;;
  print "Repository cloned successfully" ;;
  ret repo.

(** Lines 55-66: switch to the target branch. *)
Definition cp_switch_branch (repo : path) (branch_name : string) : M unit :=
  try_except
    (branches <- repo_branch_names repo ;;
     if mem branch_name branches then
       git_checkout repo branch_name ;;
       print ("Switched to existing branch: " ++ branch_name)
     else
       refs <- repo_ref_names repo ;;
       if mem ("origin/" ++ branch_name) refs then
         git_checkout_b repo branch_name ("origin/" ++ branch_name) ;;
         print ("Created and switched to branch: " ++ branch_name)
       else
         print ("Using current branch (could not find " ++ branch_name ++ ")"))
    isinstance_Exception
    (fun e => print ("Branch switching warning: " ++ exn_str e)).

(** Lines 73-86: one item of the source folder. *)
Definition cp_copy_item (local_folder_path clone_dir : path) (item : string)
    : M unit :=
  let source_item := os_path_join local_folder_path item in
  let target_item := os_path_join clone_dir item in
  d <- os_path_isdir source_item ;;
  if d then
    e <- os_path_exists target_item ;;
    if e then
      print ("Merging directory: " ++ item) ;;
      (* Merge directories *)
      shutil_copytree source_item target_item true
    else
      print ("Copying directory: " ++ item) ;;
      shutil_copytree source_item target_item false
  else
    print ("Copying file: " ++ item) ;;
    shutil_copy2 source_item target_item.

(** Lines 68-88: copy each item of the source folder to the repository
    root. *)
Definition cp_copy (local_folder_path clone_dir : path) : M unit :=
  print ("Copying contents from " ++ show_path local_folder_path ++ " to "
         ++ show_path clone_dir) ;;
  items <- os_listdir local_folder_path ;;
  for_each items (cp_copy_item local_folder_path clone_dir) ;;
  print "Files copied successfully".

(** Lines 99-106: push; a push that raises [GitCommandError] is reported. *)
Definition cp_push (repo : path) : M unit :=
  try_except
    (origin <- repo_remote_origin repo ;;
     remote_push repo origin ;;
     print "Successfully pushed to remote repository")
    isinstance_GitCommandError
    (fun e =>
       print ("Push failed: " ++ exn_str e) ;;
       print "You may need to configure authentication or check repository permissions").

(** Lines 90-108: stage, commit when something changed, push. *)
Definition cp_publish (repo : path) (commit_message : string) : M unit :=
  git_add_all repo ;;
  print "Files added to staging area" ;;
  dirty <- repo_is_dirty repo ;;
  changed <- (if dirty then ret true
              else u <- repo_untracked_files repo ;; ret (truthy u)) ;;
  if changed then
    index_commit repo commit_message ;;
    print ("Changes committed: " ++ commit_message) ;;
    cp_push repo
  else
    print "No changes to commit".

(** Lines 38-108: the body of the [try]. *)
Definition cp_body (repo_url : string) (local_folder_path clone_dir : pathstr)
    (commit_message branch_name : string) : M unit :=
  local_folder_path <- os_path_abspath local_folder_path ;;
  clone_dir <- os_path_abspath clone_dir ;;
  repo <- cp_acquire repo_url local_folder_path clone_dir ;;
  cp_switch_branch repo branch_name ;;
  cp_copy local_folder_path clone_dir ;;
  cp_publish repo commit_message.

(** Lines 114-118: the [finally] clause.  [clone_dir] is the name rebound on
    line 40; [os.path.abspath] does not raise on a string, so the rebinding
    has always happened when the clause runs. *)
Definition cp_cleanup (clone_dir : pathstr) : M unit :=
  print "Performing cleanup..." ;;
  clone_dir <- os_path_abspath clone_dir ;;
  safe_rmtree clone_dir ;;
  print "Cleanup completed".

Definition clone_and_push_folder_fixed (repo_url : string)
    (local_folder_path clone_dir : pathstr)
    (commit_message branch_name : string) : M unit :=
  try_finally
    (try_except2
       (cp_body repo_url local_folder_path clone_dir commit_message branch_name)
       isinstance_GitCommandError
       (fun e => print ("Git command error: " ++ exn_str e))
       isinstance_Exception
       (fun e => print ("Error: " ++ exn_str e)))
    (cp_cleanup clone_dir).

(** The default arguments of [clone_and_push_folder_fixed]. *)
Definition default_clone_dir : pathstr := Rel ["temp_repo"].
Definition default_clone_message : string := "Add new files".
Definition default_branch_name : string := "main".

(** ** [push_to_existing_repo], lines 121-172 *)

(** Lines 129-138: open the repository and switch to the target branch. *)
Definition pe_open (local_folder_path repo_path : path) (branch_name : string)
    : M path :=
  print ("Source folder: " ++ show_path local_folder_path) ;;
  print ("Target repo: " ++ show_path repo_path) ;;
  repo <- Repo_open repo_path ;;
  branches <- repo_branch_names repo ;;
  (if mem branch_name branches then
     git_checkout repo branch_name ;;
     print ("Switched to branch: " ++ branch_name)
   else ret tt) ;;
  ret repo.

(** Lines 142-154: one item of the source folder. *)
Definition pe_copy_item (local_folder_path repo_path : path) (item : string)
    : M unit :=
  let source_item := os_path_join local_folder_path item in
  let target_item := os_path_join repo_path item in
  print ("Processing: " ++ item) ;;
  d <- os_path_isdir source_item ;;
  if d then
    e <- os_path_exists target_item ;;
    if e then
      (* Merge directories *)
      shutil_copytree source_item target_item true
    else
      shutil_copytree source_item target_item false
  else
    shutil_copy2 source_item target_item.

(** Lines 140-154. *)
Definition pe_copy (local_folder_path repo_path : path) : M unit :=
  items <- os_listdir local_folder_path ;;
  for_each items (pe_copy_item local_folder_path repo_path).

(** Lines 165-167: push; nothing is caught here. *)
Definition pe_push (repo : path) : M unit :=
  origin <- repo_remote_origin repo ;;
  remote_push repo origin ;;
  print "Pushed to remote repository".

(** Lines 156-169: stage, commit when something changed, push. *)
Definition pe_publish (repo : path) (commit_message : string) : M unit :=
  git_add_all repo ;;
  print "Files staged successfully" ;;
  dirty <- repo_is_dirty repo ;;
  changed <- (if dirty then ret true
              else u <- repo_untracked_files repo ;; ret (truthy u)) ;;
  if changed then
    index_commit repo commit_message ;;
    print ("Committed: " ++ commit_message) ;;
    pe_push repo
  else
    print "No changes to commit".

(** Lines 126-169: the body of the [try]. *)
Definition pe_body (local_folder_path repo_path : pathstr)
    (commit_message branch_name : string) : M unit :=
  local_folder_path <- os_path_abspath local_folder_path ;;
  repo_path <- os_path_abspath repo_path ;;
  repo <- pe_open local_folder_path repo_path branch_name ;;
  pe_copy local_folder_path repo_path ;;
  pe_publish repo commit_message.

Definition push_to_existing_repo (local_folder_path repo_path : pathstr)
    (commit_message branch_name : string) : M unit :=
  try_except
    (pe_body local_folder_path repo_path commit_message branch_name)
    isinstance_Exception
    (fun e => print ("Error: " ++ exn_str e)).

Definition default_existing_message : string := "Add files".

(** * Vocabulary of the statements *)

(** Two worlds that differ at most in the filesystem. *)
Definition same_but_fs (w w' : world) : Prop :=
  cwd w' = cwd w /\ repos w' = repos w /\ remotes w' = remotes w /\ out w' = out w.

(** [os.path.abspath] as a function of the world. *)
Definition abspath_in (w : world) (s : pathstr) : path :=
  match s with Abs p => p | Rel p => cwd w ++ p end.

(** The line [safe_rmtree] prints when the removal raised. *)
Definition rmtree_warning (p : path) (e : exn) : string :=
  "Warning: Could not completely remove " ++ show_path p ++ ": " ++ exn_str e.

(** The repository a caller finds at [p]: the metadata is readable as long
    as [p/.git] is there. *)
Definition local_repo (w : world) (p : path) : option repo :=
  if is_dir (fs w) (p ++ [".git"]) then rget p (repos w) else None.

(** No step changes the working directory, and output is only appended. *)
Definition steady (w w' : world) : Prop :=
  cwd w' = cwd w /\ exists l, out w' = out w ++ l.

(** The line the top-level handlers of [clone_and_push_folder_fixed] print
    for an exception (lines 110-113). *)
Definition error_line (e : exn) : string :=
  if isinstance_GitCommandError e then "Git command error: " ++ exn_str e
  else "Error: " ++ exn_str e.

(** The directory at [p] is still there. *)
Definition keeps_dir (p : path) (w w' : world) : Prop :=
  is_dir (fs w) p = true -> is_dir (fs w') p = true.

(** The line the handler of [push_to_existing_repo] prints (line 172). *)
Definition plain_error_line (e : exn) : string := "Error: " ++ exn_str e.

(** The repository at [p] has local branches [h] and HEAD on [b]. *)
Definition has_heads (p : path) (h : list (string * history)) (b : string)
    (w : world) : Prop :=
  exists r, rget p (repos w) = Some r /\ heads r = h /\ head_branch r = b.

Definition keeps_heads (p : path) (h : list (string * history)) (b : string)
    (w w' : world) : Prop :=
  has_heads p h b w -> has_heads p h b w'.

(** The world after [repo.git.add(all=True)] in the checkout [p] whose
    metadata was [r]. *)
Definition staged (p : path) (r : repo) (w : world) : world :=
  set_repos (rset p (with_index (tracked (worktree_of (fs w) p)) r) (repos w)) w.

(** The commit [repo.index.commit(message)] then creates, and the world
    after it. *)
Definition new_commit (p : path) (message : string) (w : world) : commit :=
  {| c_message := message; c_tree := tracked (worktree_of (fs w) p) |}.

Definition committed (p : path) (r : repo) (message : string) (w : world) : world :=
  set_repos
    (rset p
       (with_heads
          (aset (head_branch r)
             (new_commit p message w :: branch_history (heads r) (head_branch r))
             (heads r))
          (with_index (tracked (worktree_of (fs w) p)) r))
       (repos w)) w.

Definition committed_line_clone (message : string) : string :=
  "Changes committed: " ++ message.
Definition committed_line_existing (message : string) : string :=
  "Committed: " ++ message.

(** The push of the current branch of the checkout [p] raises
    [GitCommandError] with message [s], whatever has been printed so far:
    the remote cannot be reached, or it refuses access. *)
Definition push_fails_with (p : path) (url s : string) (w : world) : Prop :=
  forall o,
    remote_push p url (set_out o w) = (Raise (GitCommandError s), set_out o w).

Definition push_failed_line (s : string) : string := "Push failed: " ++ s.

(** * Example worlds *)

Definition ex_init : commit :=
  {| c_message := "init"; c_tree := [("README", File false false "hello")] |}.

Definition ex_dev : commit :=
  {| c_message := "dev work";
     c_tree := [("README", File false false "hello");
                ("dev.txt", File false false "wip")] |}.

(** A remote with branches [main] and [dev]. *)
Definition ex_remote (accepts : bool) : remote :=
  {| r_branches := [("main", [ex_init]); ("dev", [ex_dev; ex_init])];
     r_default := "main";
     r_accepts_push := accepts |}.

(** The folder to publish: a read-only file, a directory, a file held open
    by another process. *)
Definition ex_source : entries :=
  [("a.pdf", File true false "A");
   ("sub", Dir [("b.pdf", File false false "B")]);
   ("c.pdf", File false true "C")].

(** A machine with the folder [/home/certs] and no checkout yet. *)
Definition ex_world (accepts : bool) : world :=
  {| fs := Dir [("home", Dir [("certs", Dir ex_source)])];
     cwd := ["home"];
     repos := [];
     remotes := [("url", ex_remote accepts)];
     out := [] |}.

(** An existing checkout of [main] at [/home/repo]; [origin/dev] is known
    but there is no local branch [dev]. *)
Definition ex_repo : repo :=
  {| heads := [("main", [ex_init])];
     remote_refs := [("main", [ex_init]); ("dev", [ex_dev; ex_init])];
     head_branch := "main";
     origin := Some "url";
     index := [("README", File false false "hello")] |}.

Definition ex_checkout : entries :=
  [dotgit; ("README", File false false "hello");
   ("sub", Dir [("old.pdf", File false false "O")]);
   ("a.pdf", Dir [("notes", File false false "N")])].

Definition ex_world_existing (accepts : bool) : world :=
  {| fs := Dir [("home", Dir [("certs", Dir ex_source); ("repo", Dir ex_checkout)])];
     cwd := ["home"];
     repos := [(["home"; "repo"], ex_repo)];
     remotes := [("url", ex_remote accepts)];
     out := [] |}.

(** The two lines [push_to_existing_repo] starts with (lines 129-130). *)
Definition source_folder_line (l : path) : string := "Source folder: " ++ show_path l.
Definition target_repo_line (p : path) : string := "Target repo: " ++ show_path p.

Definition push_hint_line : string :=
  "You may need to configure authentication or check repository permissions".

(** The branches of the checkout after the commit of [message]. *)
Definition heads_after_commit (p : path) (r : repo) (message : string)
    (w : world) : list (string * history) :=
  aset (head_branch r)
    (new_commit p message w :: branch_history (heads r) (head_branch r))
    (heads r).

(** [respects R c]: every run of [c], whatever its outcome, takes a world
    to one related by [R]. *)
Definition respects {A} (R : world -> world -> Prop) (c : M A) : Prop :=
  forall w r w', c w = (r, w') -> R w w'.

(** A directory listing holds every name once, at every depth. *)
Fixpoint wf_node (n : node) : Prop :=
  match n with
  | File _ _ _ => True
  | Dir es =>
      NoDup (names es)
      /\ (fix all (l : entries) : Prop :=
            match l with
            | [] => True
            | (_, x) :: rest => wf_node x /\ all rest
            end) es
  end.

Fixpoint wf_entries (l : entries) : Prop :=
  match l with
  | [] => True
  | (_, x) :: rest => wf_node x /\ wf_entries rest
  end.

(** [rs] is [ds] after a merge of [ss] that kept what only [ds] had: the
    entries of [ds] under names [ss] does not use are in [rs] as they were,
    and so it goes on inside the directories both sides have. *)
#[warnings="-register-all"]
Inductive keeps_destination_only : entries -> entries -> entries -> Prop :=
| Keeps (ss ds rs : entries) :
    (forall n, ~ In n (names ss) -> aget n rs = aget n ds) ->
    (forall n ss' ds',
        aget n ss = Some (Dir ss') -> aget n ds = Some (Dir ds') ->
        exists rs', aget n rs = Some (Dir rs') /\ keeps_destination_only ss' ds' rs') ->
    keeps_destination_only ss ds rs.

(** Two paths that part ways at some component: neither lies inside the
    other. *)
Fixpoint diverge (p q : path) : bool :=
  match p, q with
  | a :: p', b :: q' => if String.eqb a b then diverge p' q' else true
  | _, _ => false
  end.

(** What one iteration of the loops of lines 72-86 and 141-154 makes of the
    entries [ds] of the checkout root when it returns: [child] is the item
    in the source folder; [None] stands for every way of raising. *)
Definition merge_item (cp : path) (name : string) (child : node) (ds : entries)
    : option entries :=
  match child with
  | Dir _ =>
      match aget name ds with
      | Some (File _ _ _) => None
      | Some (Dir sub0) =>
          match copytree_node true (cp ++ [name]) child sub0 with
          | (sub, []) => Some (aset name (Dir sub) ds)
          | (_, _ :: _) => None
          end
      | None =>
          match copytree_node false (cp ++ [name]) child [] with
          | (sub, []) => Some (aset name (Dir sub) ds)
          | (_, _ :: _) => None
          end
      end
  | File ro _ data =>
      match copy2_entry cp name ro data ds with
      | Ok ds' => Some ds'
      | Raise _ => None
      end
  end.

(** The whole loop, over the names [os.listdir] returned, [ss] being the
    entries of the source folder. *)
Fixpoint merge_names (cp : path) (ss : entries) (items : list string)
    (ds : entries) : option entries :=
  match items with
  | [] => Some ds
  | item :: rest =>
      match aget item ss with
      | None => None
      | Some child =>
          match merge_item cp item child ds with
          | Some ds' => merge_names cp ss rest ds'
          | None => None
          end
      end
  end.

(** The source entry [name], which is [s], is in the directory with entries
    [rs]: a file with its content and permission bits, under its name or,
    where [rs] has a directory of that name, inside that directory; a
    directory with every one of its entries, in the same sense. *)
Fixpoint holds (s : node) (name : string) (rs : entries) : Prop :=
  match s with
  | File ro _ data =>
      aget name rs = Some (File ro false data)
      \/ exists sub,
           aget name rs = Some (Dir sub)
           /\ aget name sub = Some (File ro false data)
  | Dir ss =>
      exists sub,
        aget name rs = Some (Dir sub)
        /\ (fix all (l : entries) : Prop :=
              match l with
              | [] => True
              | (k, x) :: rest => holds x k sub /\ all rest
              end) ss
  end.

Fixpoint holds_all (ss rs : entries) : Prop :=
  match ss with
  | [] => True
  | (k, x) :: rest => holds x k rs /\ holds_all rest rs
  end.

(** The files are as they were. *)
Definition fs_kept (w w' : world) : Prop := fs w' = fs w.

(** What git records of a node and of a directory listing: attributes
    cleared, directories without files dropped. *)
Definition norm (n : node) : node := prune (clear n).

Definition norm_entries (es : entries) : entries := prune_entries (clear_entries es).

(** A tree as a commit records it. *)
Fixpoint normal (n : node) : Prop :=
  match n with
  | File ro locked _ => ro = false /\ locked = false
  | Dir es =>
      (fix all (l : entries) : Prop :=
         match l with
         | [] => True
         | (_, x) :: rest => (has_file x = true /\ normal x) /\ all rest
         end) es
  end.

Fixpoint normal_entries (es : entries) : Prop :=
  match es with
  | [] => True
  | (_, x) :: rest => (has_file x = true /\ normal x) /\ normal_entries rest
  end.




(** Lines 42-88 of [clone_and_push_folder_fixed]: everything before the
    staging. *)
Definition cp_prefix (repo_url : string) (local_folder_path clone_dir : path)
    (branch_name : string) : M path :=
  repo <- cp_acquire repo_url local_folder_path clone_dir ;;
  cp_switch_branch repo branch_name ;;
  cp_copy local_folder_path clone_dir ;;
  ret repo.

(** The branch a fresh clone of [rm] is on after the branch selection of
    [clone_and_push_folder_fixed]: the tests of lines 57 and 60, on the
    clone. *)
Definition selected_branch (rm : remote) (b : string) : string :=
  if mem b (names (heads (cloned_repo "" rm))) then b
  else if mem ("origin/" ++ b) (names (repo_refs_of (cloned_repo "" rm))) then b
  else r_default rm.

(** The checkout at [cp] is a clone of [rm], from [url], with branch [b]
    checked out and nothing changed yet. *)
Definition on_branch (cp : path) (url : string) (rm : remote) (b : string)
    (w : world) : Prop :=
  lookup_path (fs w) cp = Some (Dir (dotgit :: branch_tree (r_branches rm) b))
  /\ exists r,
       rget cp (repos w) = Some r
       /\ head_branch r = b
       /\ branch_history (heads r) b = branch_history (r_branches rm) b
       /\ origin r = Some url.


(** Outside of [cp] the files are as they were. *)
Definition outside_kept (cp : path) (w w' : world) : Prop :=
  forall q, diverge cp q = true -> lookup_path (fs w') q = lookup_path (fs w) q.

(** The repositories, local and remote, are as they were. *)
Definition git_kept (w w' : world) : Prop :=
  repos w' = repos w /\ remotes w' = remotes w.


(** The line with which [clone_and_push_folder_fixed] announces a commit
    (line 97) starts like this. *)
Definition announces_commit (s : string) : bool :=
  String.prefix "Changes committed: " s.

(** Output is only appended, and none of the new lines announces a
    commit. *)
Definition no_commit_line (w w' : world) : Prop :=
  exists l,
    out w' = out w ++ l
    /\ forallb (fun s => negb (announces_commit s)) l = true.

(** No file of the tree is held open by another process. *)
Fixpoint unlocked (n : node) : Prop :=
  match n with
  | File _ locked _ => locked = false
  | Dir es =>
      (fix all (l : entries) : Prop :=
         match l with
         | [] => True
         | (_, x) :: rest => unlocked x /\ all rest
         end) es
  end.

Fixpoint unlocked_entries (es : entries) : Prop :=
  match es with
  | [] => True
  | (_, x) :: rest => unlocked x /\ unlocked_entries rest
  end.

(** The entries under names other than those of [gone]. *)
Definition without (gone : list string) (es : entries) : entries :=
  filter (fun kx => negb (mem (fst kx) gone)) es.

(** [shutil.rmtree] with the handler of [push.py] removes the tree [n]
    wherever it is, and copes with a path that is already gone. *)
Definition removable (n : node) : Prop :=
  forall p w,
    p <> [] ->
    (lookup_path (fs w) p = Some n /\ unlocked n) \/ lookup_path (fs w) p = None ->
    exists w',
      rmtree_unsafe handle_remove_readonly n p w = (Ok tt, w')
      /\ fs w' = del_path p (fs w).







(** What an interrupted earlier run left in the clone directory: the
    [.git] directory with its read-only object files, and a read-only
    copy. *)
Definition ex_stale : entries :=
  [dotgit; ("old.pdf", File true false "old")].

(** The machine of [ex_world] with that left-over at [/home/temp_repo]. *)
Definition ex_world_stale : world :=
  {| fs := Dir [("home", Dir [("certs", Dir ex_source); ("temp_repo", Dir ex_stale)])];
     cwd := ["home"];
     repos := [];
     remotes := [("url", ex_remote true)];
     out := [] |}.

(** The remote [rm'] has everything [rm] had: its default branch, its push
    policy and its branches, each with the commits it had and new ones, if
    any, on top of them. *)
Definition extends_remote (rm rm' : remote) : Prop :=
  r_default rm' = r_default rm
  /\ r_accepts_push rm' = r_accepts_push rm
  /\ forall b h,
       aget b (r_branches rm) = Some h ->
       exists new, aget b (r_branches rm') = Some (new ++ h).

(** No remote repository lost anything. *)
Definition remotes_grow (w w' : world) : Prop :=
  forall u rm,
    aget u (remotes w) = Some rm ->
    exists rm', aget u (remotes w') = Some rm' /\ extends_remote rm rm'.

(** A machine with an empty folder [/home/certs]. *)
Definition ex_world_empty : world :=
  {| fs := Dir [("home", Dir [("certs", Dir [])])];
     cwd := ["home"];
     repos := [];
     remotes := [("url", ex_remote false)];
     out := [] |}.

(** Every file some program holds open is still there, with its content. *)
Definition held_open_kept (w w' : world) : Prop :=
  forall q ro d,
    lookup_path (fs w) q = Some (File ro true d) ->
    exists ro', lookup_path (fs w') q = Some (File ro' true d).

(** A machine where an earlier run left [/home/temp_repo] and a viewer
    still has [open.pdf] open. *)
Definition ex_world_busy : world :=
  {| fs := Dir [("home", Dir [("certs", Dir ex_source);
                              ("temp_repo",
                               Dir [dotgit; ("open.pdf", File true true "held")])])];
     cwd := ["home"];
     repos := [];
     remotes := [("url", ex_remote true)];
     out := [] |}.

(** No remote repository changed. *)
Definition remotes_kept (w w' : world) : Prop := remotes w' = remotes w.

(** Output is only appended, and a change of a remote repository comes with
    the line [line] in the new output. *)
Definition reports_push (line : string) (w w' : world) : Prop :=
  exists l, out w' = out w ++ l /\ (remotes w' = remotes w \/ In line l).

(** ** The script, lines 175-187 *)




(** The remote after somebody else pushed a commit to [main], and a machine
    whose checkout at [/home/repo] has not fetched it: the checkout is
    behind its remote. *)
Definition ex_remote_ahead : remote :=
  {| r_branches := [("main", [ex_dev; ex_init])];
     r_default := "main";
     r_accepts_push := true |}.

Definition ex_world_behind : world :=
  set_remotes [("url", ex_remote_ahead)] (ex_world_existing true).

(** * Association lists: lemmas *)

Unset Implicit Arguments.

Section AListFacts.
Variable A : Type.
Implicit Types (l : list (string * A)) (k : string) (v : A).

Lemma aget_aset_same l k v : aget k (aset k v l) = Some v.
Proof.
  induction l as [|[k' v'] l IH]; simpl.
  - now rewrite String.eqb_refl.
  - destruct (String.eqb k' k) eqn:E; simpl.
    + now rewrite String.eqb_refl.
    + now rewrite E.
Qed.

Lemma aget_aset_other l k k' v : k <> k' -> aget k' (aset k v l) = aget k' l.
Proof.
  intros Hne. induction l as [|[k0 v0] l IH]; simpl.
  - destruct (String.eqb_spec k k'); congruence.
  - destruct (String.eqb_spec k0 k) as [->|Hk]; simpl.
    + destruct (String.eqb_spec k k'); congruence.
    + now rewrite IH.
Qed.

Lemma aset_aset l k v v' : aset k v (aset k v' l) = aset k v l.
Proof.
  induction l as [|[k0 v0] l IH]; simpl.
  - now rewrite String.eqb_refl.
  - destruct (String.eqb k0 k) eqn:E; simpl.
    + now rewrite String.eqb_refl.
    + now rewrite E, IH.
Qed.

Lemma aget_adel_same l k : aget k (adel k l) = None.
Proof.
  induction l as [|[k0 v0] l IH]; simpl; auto.
  destruct (String.eqb k0 k) eqn:E; simpl; auto. now rewrite E.
Qed.

Lemma aget_adel_other l k k' : k <> k' -> aget k' (adel k l) = aget k' l.
Proof.
  intros Hne. induction l as [|[k0 v0] l IH]; simpl; auto.
  destruct (String.eqb_spec k0 k) as [->|Hk]; simpl.
  - destruct (String.eqb_spec k k'); congruence.
  - now rewrite IH.
Qed.

Lemma aget_In l k v : aget k l = Some v -> In (k, v) l.
Proof.
  induction l as [|[k0 v0] l IH]; simpl; try discriminate.
  destruct (String.eqb_spec k0 k) as [->|Hk]; intros H.
  - left. congruence.
  - right. auto.
Qed.

Lemma aget_None_names l k : aget k l = None <-> ~ In k (names l).
Proof.
  induction l as [|[k0 v0] l IH]; simpl.
  - tauto.
  - destruct (String.eqb_spec k0 k) as [->|Hk].
    + split; [discriminate | intros H; exfalso; apply H; now left].
    + rewrite IH. split; [intros H [?|?]; auto | tauto].
Qed.

Lemma names_aset_incl l k v x : In x (names l) -> In x (names (aset k v l)).
Proof.
  induction l as [|[k0 v0] l IH]; simpl; [tauto|].
  destruct (String.eqb_spec k0 k) as [->|Hk]; simpl; tauto.
Qed.
End AListFacts.

(** * Paths: lemmas *)

Lemma path_eqb_spec (p q : path) : reflect (p = q) (path_eqb p q).
Proof.
  revert q. induction p as [|a p IH]; intros [|b q]; simpl; try (constructor; congruence).
  destruct (String.eqb_spec a b) as [->|Hab]; simpl.
  - destruct (IH q) as [->|Hpq]; constructor; congruence.
  - constructor; congruence.
Qed.

Lemma path_eqb_refl (p : path) : path_eqb p p = true.
Proof. destruct (path_eqb_spec p p); congruence. Qed.

Lemma lookup_path_app (n : node) (p q : path) :
  lookup_path n (p ++ q) =
  match lookup_path n p with Some x => lookup_path x q | None => None end.
Proof.
  revert n. induction p as [|c p IH]; intros n; simpl; auto.
  destruct n as [| es]; auto. destruct (aget c es); auto.
Qed.

Lemma lookup_repl (n : node) (p : path) (v x : node) :
  lookup_path n p = Some x -> lookup_path (repl p v n) p = Some v.
Proof.
  revert n. induction p as [|c p IH]; intros n; simpl; auto.
  destruct n as [| es]; try discriminate.
  destruct (aget c es) as [y|] eqn:E; try discriminate.
  intros H. simpl. rewrite aget_aset_same. eauto.
Qed.

Lemma put_path_exists (n : node) (p : path) (v x : node) :
  lookup_path n p = Some x -> put_path p v n = Some (repl p v n).
Proof.
  revert n. induction p as [|c p IH]; intros n; simpl; auto.
  destruct n as [| es]; try discriminate.
  destruct (aget c es) as [y|] eqn:E; try discriminate.
  intros H. now rewrite (IH _ H).
Qed.

Lemma lookup_put_path (n n' : node) (p : path) (v : node) :
  put_path p v n = Some n' -> lookup_path n' p = Some v.
Proof.
  revert n n'. induction p as [|c p IH]; intros n n'; simpl.
  - congruence.
  - destruct n as [| es]; try discriminate.
    destruct (put_path p v _) as [x'|] eqn:E; try discriminate.
    intros H. injection H as <-. simpl. rewrite aget_aset_same. eauto.
Qed.

Lemma lookup_del_path (n : node) (p : path) :
  p <> [] -> lookup_path (del_path p n) p = None.
Proof.
  revert n. induction p as [|c p IH]; intros n Hp; [congruence|].
  simpl. destruct n as [| es]; auto.
  destruct p as [|c' p].
  - simpl. now rewrite aget_adel_same.
  - destruct (aget c es) as [y|] eqn:E.
    + remember (c' :: p) as q. simpl. rewrite aget_aset_same.
      apply IH. subst q. discriminate.
    + remember (c' :: p) as q. simpl. now rewrite E.
Qed.

(** * Induction on filesystem trees *)

Lemma node_induction (P : node -> Prop) :
  (forall ro locked data, P (File ro locked data)) ->
  (forall es, Forall (fun kx => P (snd kx)) es -> P (Dir es)) ->
  forall n, P n.
Proof.
  intros HF HD. fix IH 1. intros [ro locked data | es].
  - apply HF.
  - apply HD. induction es as [|[k x] es IHes]; constructor.
    + simpl. apply IH.
    + exact IHes.
Qed.

(** * The monad: inversion *)

Lemma bind_ok {A B} (c : M A) (k : A -> M B) (w w' : world) (b : B) :
  bind c k w = (Ok b, w') ->
  exists a w1, c w = (Ok a, w1) /\ k a w1 = (Ok b, w').
Proof.
  unfold bind. destruct (c w) as [[a|e] w1]; intros H; [eauto | discriminate].
Qed.

Lemma bind_raise {A B} (c : M A) (k : A -> M B) (w w' : world) (e : exn) :
  bind c k w = (Raise e, w') ->
  c w = (Raise e, w') \/ exists a w1, c w = (Ok a, w1) /\ k a w1 = (Raise e, w').
Proof.
  unfold bind. destruct (c w) as [[a|e0] w1]; intros H.
  - right. exists a, w1. split; [reflexivity | exact H].
  - left. inversion H. reflexivity.
Qed.

Lemma print_run (s : string) (w : world) :
  print s w = (Ok tt, set_out (out w ++ [s]) w).
Proof. reflexivity. Qed.

(** * Deleting: only the filesystem changes *)

Lemma same_but_fs_refl w : same_but_fs w w.
Proof. repeat split. Qed.

Lemma same_but_fs_trans w1 w2 w3 :
  same_but_fs w1 w2 -> same_but_fs w2 w3 -> same_but_fs w1 w3.
Proof. unfold same_but_fs. intuition congruence. Qed.

Lemma same_but_fs_set_fs w f : same_but_fs w (set_fs f w).
Proof. repeat split. Qed.

Create HintDb fsframe.
#[local] Hint Resolve same_but_fs_refl same_but_fs_set_fs : fsframe.

Lemma os_unlink_frame p w r w' : os_unlink p w = (r, w') -> same_but_fs w w'.
Proof.
  unfold os_unlink. destruct (lookup_path (fs w) p) as [[ro l d| es]|];
    try destruct (ro || l); intros H; inversion H; auto with fsframe.
Qed.

Lemma os_rmdir_frame p w r w' : os_rmdir p w = (r, w') -> same_but_fs w w'.
Proof.
  unfold os_rmdir. destruct (lookup_path (fs w) p) as [[ro l d| [|x es]]|];
    try destruct p; intros H; inversion H; auto with fsframe.
Qed.

Lemma os_scandir_frame p w r w' : os_scandir p w = (r, w') -> same_but_fs w w'.
Proof.
  unfold os_scandir. destruct (lookup_path (fs w) p) as [[ro l d| es]|];
    intros H; inversion H; auto with fsframe.
Qed.

Lemma os_chmod_frame p w r w' : os_chmod_S_IWRITE p w = (r, w') -> same_but_fs w w'.
Proof.
  unfold os_chmod_S_IWRITE. destruct (lookup_path (fs w) p) as [[ro l d| es]|];
    try destruct (put_path _ _ _); intros H; inversion H; auto with fsframe.
Qed.

Lemma call_func_frame f p w r w' : call_func f p w = (r, w') -> same_but_fs w w'.
Proof.
  destruct f; simpl; eauto using os_unlink_frame, os_rmdir_frame, os_scandir_frame.
Qed.

Lemma handle_remove_readonly_frame f p e w r w' :
  handle_remove_readonly f p e w = (r, w') -> same_but_fs w w'.
Proof.
  unfold handle_remove_readonly, bind, os_path_exists.
  destruct (exists_ (fs w) p).
  - destruct (os_chmod_S_IWRITE p w) as [[[]|e1] w1] eqn:E1.
    + intros H. eapply same_but_fs_trans; eauto using os_chmod_frame, call_func_frame.
    + intros H. inversion H; subst. eauto using os_chmod_frame.
  - intros H. inversion H. auto with fsframe.
Qed.

Lemma guarded_frame f p w r w' :
  guarded handle_remove_readonly f p w = (r, w') -> same_but_fs w w'.
Proof.
  unfold guarded, try_except.
  destruct (call_func f p w) as [[[]|e] w1] eqn:E.
  - intros H. inversion H; subst. eauto using call_func_frame.
  - destruct (isinstance_OSError e); intros H.
    + eapply same_but_fs_trans; eauto using call_func_frame, handle_remove_readonly_frame.
    + inversion H; subst. eauto using call_func_frame.
Qed.

Lemma bind_frame {A B} (c : M A) (k : A -> M B) w r w' :
  (forall w0 r0 w1, c w0 = (r0, w1) -> same_but_fs w0 w1) ->
  (forall a w0 r0 w1, k a w0 = (r0, w1) -> same_but_fs w0 w1) ->
  bind c k w = (r, w') -> same_but_fs w w'.
Proof.
  intros Hc Hk. unfold bind. destruct (c w) as [[a|e] w1] eqn:E; intros H.
  - eapply same_but_fs_trans; eauto.
  - inversion H; subst. eauto.
Qed.

Lemma rm_children_frame (rec : node -> path -> M unit) es :
  Forall (fun kx => forall p w r w', rec (snd kx) p w = (r, w') -> same_but_fs w w') es ->
  forall p w r w',
    rm_children rec handle_remove_readonly es p w = (r, w') -> same_but_fs w w'.
Proof.
  induction 1 as [|[k x] es Hx Hes IH]; intros p w r w'; simpl.
  - intros H. inversion H. auto with fsframe.
  - apply bind_frame.
    + intros w0 r0 w1. destruct x; simpl in *; eauto using guarded_frame.
    + intros _. apply IH.
Qed.

Lemma rmtree_unsafe_frame n :
  forall p w r w',
    rmtree_unsafe handle_remove_readonly n p w = (r, w') -> same_but_fs w w'.
Proof.
  induction n as [ro l d | es IH] using node_induction; intros p w r w'; simpl.
  - apply bind_frame.
    + intros ? ? ?. apply handle_remove_readonly_frame.
    + intros _ ? ? ?. apply guarded_frame.
  - apply bind_frame.
    + intros ? ? ?. apply rm_children_frame. exact IH.
    + intros _ ? ? ?. apply guarded_frame.
Qed.

Lemma shutil_rmtree_frame p w r w' :
  shutil_rmtree p handle_remove_readonly w = (r, w') -> same_but_fs w w'.
Proof.
  unfold shutil_rmtree. destruct (lookup_path (fs w) p).
  - apply rmtree_unsafe_frame.
  - apply bind_frame.
    + intros ? ? ?. apply handle_remove_readonly_frame.
    + intros _ ? ? ?. apply guarded_frame.
Qed.

(** * [safe_rmtree] *)

Lemma fs_set_fs f w : fs (set_fs f w) = f.
Proof. reflexivity. Qed.

Lemma exists_false_lookup n p : exists_ n p = false <-> lookup_path n p = None.
Proof. unfold exists_. destruct (lookup_path n p); split; congruence. Qed.

Lemma os_rmdir_ok_gone p w w' :
  os_rmdir p w = (Ok tt, w') -> exists_ (fs w') p = false.
Proof.
  unfold os_rmdir. destruct (lookup_path (fs w) p) as [[ro l d| [|x es]]|];
    try discriminate.
  destruct p as [|c p]; try discriminate.
  intros H.
  assert (G : exists_ (del_path (c :: p) (fs w)) (c :: p) = false)
    by (apply exists_false_lookup, lookup_del_path; discriminate).
  injection H as <-. exact G.
Qed.

Lemma os_rmdir_raises_OSError p w e w' :
  os_rmdir p w = (Raise e, w') -> isinstance_OSError e = true /\ w' = w.
Proof.
  unfold os_rmdir. destruct (lookup_path (fs w) p) as [[ro l d| [|x es]]|];
    try destruct p; intros H; inversion H; subst; auto.
Qed.

(** When the last step of a removal returns, the path is gone: either
    [os.rmdir] worked, or the handler found nothing left, or its retry
    worked. *)
Lemma guarded_rmdir_gone p w w' :
  guarded handle_remove_readonly F_rmdir p w = (Ok tt, w') ->
  exists_ (fs w') p = false.
Proof.
  unfold guarded, try_except. simpl call_func.
  destruct (os_rmdir p w) as [[[]|e] w1] eqn:E.
  - intros H. inversion H; subst. eauto using os_rmdir_ok_gone.
  - destruct (os_rmdir_raises_OSError _ _ _ _ E) as [-> ->].
    unfold handle_remove_readonly, bind, os_path_exists.
    destruct (exists_ (fs w) p) eqn:Ex.
    + destruct (os_chmod_S_IWRITE p w) as [[[]|e1] w2]; try discriminate.
      simpl call_func. apply os_rmdir_ok_gone.
    + intros H. inversion H; subst. exact Ex.
Qed.

Lemma shutil_rmtree_ok_gone p w w' :
  shutil_rmtree p handle_remove_readonly w = (Ok tt, w') ->
  exists_ (fs w') p = false.
Proof.
  unfold shutil_rmtree. destruct (lookup_path (fs w) p) as [[ro l d|es]|]; simpl;
    intros H; apply bind_ok in H; destruct H as ([] & w1 & _ & H);
    eauto using guarded_rmdir_gone.
Qed.

(** The three ways [safe_rmtree] ends: nothing to remove; removed; or the
    removal raised and a warning is printed.  It never raises. *)
Lemma safe_rmtree_cases (p : path) (w : world) :
  (exists_ (fs w) p = false /\ safe_rmtree p w = (Ok tt, w))
  \/ (exists w1,
        shutil_rmtree p handle_remove_readonly w = (Ok tt, w1)
        /\ safe_rmtree p w = (Ok tt, w1)
        /\ exists_ (fs w1) p = false /\ same_but_fs w w1)
  \/ (exists e w1,
        exists_ (fs w) p = true
        /\ shutil_rmtree p handle_remove_readonly w = (Raise e, w1)
        /\ safe_rmtree p w = (Ok tt, set_out (out w1 ++ [rmtree_warning p e]) w1)
        /\ same_but_fs w w1).
Proof.
  unfold safe_rmtree, bind, os_path_exists, try_except.
  destruct (exists_ (fs w) p) eqn:Ex.
  - right. destruct (shutil_rmtree p handle_remove_readonly w) as [[[]|e] w1] eqn:E.
    + left. exists w1. repeat split; try reflexivity.
      * eapply shutil_rmtree_ok_gone; eauto.
      * eapply shutil_rmtree_frame; eauto.
      * eapply shutil_rmtree_frame; eauto.
      * eapply shutil_rmtree_frame; eauto.
      * eapply shutil_rmtree_frame; eauto.
    + right. exists e, w1. repeat split; try reflexivity;
        eapply shutil_rmtree_frame; eauto.
  - left. auto.
Qed.

Lemma safe_rmtree_ok (p : path) (w : world) : fst (safe_rmtree p w) = Ok tt.
Proof.
  destruct (safe_rmtree_cases p w) as [[_ H]|[(w1 & _ & H & _)|(e & w1 & _ & _ & H & _)]];
    now rewrite H.
Qed.

(** What the handler does to a file that could not be deleted. *)
Lemma handler_retries_unlink (p : path) (w : world) ro locked data e :
  lookup_path (fs w) p = Some (File ro locked data) ->
  handle_remove_readonly F_unlink p e w =
  if locked then
    (Raise (PermissionError p), set_fs (repl p (File false locked data) (fs w)) w)
  else
    (Ok tt, set_fs (del_path p (repl p (File false locked data) (fs w))) w).
Proof.
  intros H. unfold handle_remove_readonly, bind, os_path_exists, exists_.
  rewrite H. unfold os_chmod_S_IWRITE. rewrite H.
  erewrite put_path_exists by eauto. simpl call_func. unfold os_unlink.
  rewrite fs_set_fs. erewrite lookup_repl by eauto. destruct locked; reflexivity.
Qed.

(** C10.  [safe_rmtree] on a path that does not exist is a silent no-op:
    the world after the call is the world before it (nothing deleted,
    nothing printed) and the call returns normally. *)
Theorem safe_rmtree_missing_is_noop (p : path) (w : world) :
  exists_ (fs w) p = false -> safe_rmtree p w = (Ok tt, w).
Proof.
  intros H. unfold safe_rmtree, bind, os_path_exists. now rewrite H.
Qed.


(** * Properties kept by every step

    For a preorder [R], [respects R] passes through the control structures
    of the program. *)

Section Respects.
Variable R : world -> world -> Prop.
Hypothesis R_refl : forall w, R w w.
Hypothesis R_trans : forall w1 w2 w3, R w1 w2 -> R w2 w3 -> R w1 w3.

Lemma respects_ret {A} (a : A) : respects R (ret a).
Proof. intros w r w' H. inversion H. apply R_refl. Qed.

Lemma respects_raise {A} (e : exn) : respects R (@raise A e).
Proof. intros w r w' H. inversion H. apply R_refl. Qed.

Lemma respects_bind {A B} (c : M A) (k : A -> M B) :
  respects R c -> (forall a, respects R (k a)) -> respects R (bind c k).
Proof.
  intros Hc Hk w r w'. unfold bind.
  destruct (c w) as [[a|e] w1] eqn:E; intros H.
  - eapply R_trans; [eapply Hc | eapply Hk]; eauto.
  - inversion H; subst. eapply Hc; eauto.
Qed.

Lemma respects_try_except {A} (c : M A) h (k : exn -> M A) :
  respects R c -> (forall e, respects R (k e)) -> respects R (try_except c h k).
Proof.
  intros Hc Hk w r w'. unfold try_except.
  destruct (c w) as [[a|e] w1] eqn:E.
  - intros H. inversion H; subst. eapply Hc; eauto.
  - destruct (h e); intros H.
    + eapply R_trans; [eapply Hc | eapply Hk]; eauto.
    + inversion H; subst. eapply Hc; eauto.
Qed.

Lemma respects_try_except2 {A} (c : M A) h1 (k1 : exn -> M A) h2 k2 :
  respects R c -> (forall e, respects R (k1 e)) -> (forall e, respects R (k2 e)) ->
  respects R (try_except2 c h1 k1 h2 k2).
Proof.
  intros Hc Hk1 Hk2 w r w'. unfold try_except2.
  destruct (c w) as [[a|e] w1] eqn:E.
  - intros H. inversion H; subst. eapply Hc; eauto.
  - destruct (h1 e); [|destruct (h2 e)]; intros H.
    + eapply R_trans; [eapply Hc | eapply Hk1]; eauto.
    + eapply R_trans; [eapply Hc | eapply Hk2]; eauto.
    + inversion H; subst. eapply Hc; eauto.
Qed.

Lemma respects_try_finally {A} (c : M A) (f : M unit) :
  respects R c -> respects R f -> respects R (try_finally c f).
Proof.
  intros Hc Hf w r w'. unfold try_finally.
  destruct (c w) as [r1 w1] eqn:E. destruct (f w1) as [[[]|e] w2] eqn:F;
    intros H; inversion H; subst; eapply R_trans; [eapply Hc | eapply Hf | eapply Hc | eapply Hf]; eauto.
Qed.

Lemma respects_for_each {A} (xs : list A) (body : A -> M unit) :
  (forall x, respects R (body x)) -> respects R (for_each xs body).
Proof.
  intros Hb. induction xs as [|x xs IH]; simpl.
  - apply respects_ret.
  - apply respects_bind; auto.
Qed.

Lemma respects_if {A} (b : bool) (c1 c2 : M A) :
  respects R c1 -> respects R c2 -> respects R (if b then c1 else c2).
Proof. destruct b; auto. Qed.

(** The continuation only has to cope with the values the first step
    can return. *)
Lemma respects_bind_val {A B} (c : M A) (k : A -> M B) (Q : A -> Prop) :
  (forall w a w', c w = (Ok a, w') -> Q a) ->
  respects R c -> (forall a, Q a -> respects R (k a)) -> respects R (bind c k).
Proof.
  intros HQ Hc Hk w r w'. unfold bind.
  destruct (c w) as [[a|e] w1] eqn:E; intros H.
  - eapply R_trans; [eapply Hc | eapply Hk]; eauto.
  - inversion H; subst. eapply Hc; eauto.
Qed.

(** A step that leaves the world alone. *)
Lemma respects_pure {A} (c : M A) :
  (forall w, snd (c w) = w) -> respects R c.
Proof.
  intros Hc w r w' H. specialize (Hc w). rewrite H in Hc. simpl in Hc. subst.
  apply R_refl.
Qed.
End Respects.

(** * The working directory and the output *)

Lemma steady_refl w : steady w w.
Proof. split; [reflexivity | exists []; now rewrite app_nil_r]. Qed.

Lemma steady_trans w1 w2 w3 : steady w1 w2 -> steady w2 w3 -> steady w1 w3.
Proof.
  intros [C1 [l1 O1]] [C2 [l2 O2]]. split; [congruence|].
  exists (l1 ++ l2). now rewrite O2, O1, app_assoc.
Qed.

Lemma steady_set_fs f w : steady w (set_fs f w).
Proof. exact (steady_refl w). Qed.
Lemma steady_set_repos r w : steady w (set_repos r w).
Proof. exact (steady_refl w). Qed.
Lemma steady_set_remotes r w : steady w (set_remotes r w).
Proof. exact (steady_refl w). Qed.
Lemma steady_print s w : steady w (set_out (out w ++ [s]) w).
Proof. split; [reflexivity | now exists [s]]. Qed.

Lemma steady_same_but_fs w w' : same_but_fs w w' -> steady w w'.
Proof.
  intros (C & _ & _ & O). split; [exact C | exists []; now rewrite app_nil_r].
Qed.

Create HintDb steady.
#[local] Hint Resolve steady_refl steady_set_fs steady_set_repos steady_set_remotes
  steady_print : steady.
#[local] Hint Extern 3 (steady _ _) => eapply steady_trans; [|solve [eauto with steady]] : steady.

(** Runs a primitive given as a [match] on the world: every branch is
    inspected, innermost test first. *)
Ltac break_run H :=
  repeat first
    [ progress cbv beta iota zeta in H
    | match type of H with
      | context [match ?x with _ => _ end] =>
          lazymatch x with
          | context [match _ with _ => _ end] => fail
          | _ => destruct x eqn:?
          end
      end ];
  inversion H; subst; clear H.

(** Splits a block of the program into its statements. *)
Ltac respects_steps R_refl R_trans :=
  repeat first
    [ simple eapply respects_bind; [exact R_trans | | intros ?]
    | simple eapply respects_try_except; [exact R_trans | | intros ?]
    | simple eapply respects_try_except2; [exact R_trans | | intros ? | intros ?]
    | simple eapply respects_try_finally; [exact R_trans | | ]
    | simple eapply respects_for_each; [exact R_refl | exact R_trans | intros ?]
    | simple eapply respects_ret; exact R_refl
    | simple eapply respects_raise; exact R_refl
    | match goal with |- respects _ (if ?b then _ else _) => destruct b end
    | match goal with |- respects _ (match ?b with _ => _ end) => destruct b end ].

Ltac leaf_run :=
  let w := fresh "w" in let r := fresh "r" in let w' := fresh "w'" in
  let H := fresh "H" in
  intros w r w' H; break_run H.

Ltac prim_steady :=
  respects_steps steady_refl steady_trans;
  auto with steady;
  try (leaf_run; simpl; auto with steady).

Lemma get_repo_steady p : respects steady (get_repo p).
Proof. unfold get_repo. prim_steady. Qed.
Lemma put_repo_steady p r : respects steady (put_repo p r).
Proof. unfold put_repo. prim_steady. Qed.
#[local] Hint Resolve get_repo_steady put_repo_steady : steady.

Lemma print_steady s : respects steady (print s).
Proof. intros w r w' H. inversion H. apply steady_print. Qed.

Lemma os_path_abspath_steady s : respects steady (os_path_abspath s).
Proof. unfold os_path_abspath. prim_steady. Qed.
Lemma os_path_exists_steady p : respects steady (os_path_exists p).
Proof. unfold os_path_exists. prim_steady. Qed.
Lemma os_path_isdir_steady p : respects steady (os_path_isdir p).
Proof. unfold os_path_isdir. prim_steady. Qed.
Lemma os_listdir_steady p : respects steady (os_listdir p).
Proof. unfold os_listdir. prim_steady. Qed.
Lemma shutil_copytree_steady s d b : respects steady (shutil_copytree s d b).
Proof. unfold shutil_copytree. prim_steady. Qed.
Lemma shutil_copy2_steady s d : respects steady (shutil_copy2 s d).
Proof. unfold shutil_copy2. prim_steady. Qed.
Lemma Repo_clone_from_steady u d : respects steady (Repo_clone_from u d).
Proof. unfold Repo_clone_from. prim_steady. Qed.
Lemma Repo_open_steady p : respects steady (Repo_open p).
Proof. unfold Repo_open. prim_steady. Qed.
Lemma repo_branch_names_steady p : respects steady (repo_branch_names p).
Proof. unfold repo_branch_names. prim_steady. Qed.
Lemma repo_ref_names_steady p : respects steady (repo_ref_names p).
Proof. unfold repo_ref_names. prim_steady. Qed.
Lemma switch_to_steady p n r : respects steady (switch_to p n r).
Proof. unfold switch_to. prim_steady. Qed.
#[local] Hint Resolve switch_to_steady : steady.
Lemma git_checkout_steady p n : respects steady (git_checkout p n).
Proof. unfold git_checkout. prim_steady. Qed.
Lemma git_checkout_b_steady p n s : respects steady (git_checkout_b p n s).
Proof. unfold git_checkout_b. prim_steady. Qed.
Lemma git_add_all_steady p : respects steady (git_add_all p).
Proof. unfold git_add_all. prim_steady. Qed.
Lemma repo_is_dirty_steady p : respects steady (repo_is_dirty p).
Proof. unfold repo_is_dirty. prim_steady. Qed.
Lemma repo_untracked_files_steady p : respects steady (repo_untracked_files p).
Proof. unfold repo_untracked_files. prim_steady. Qed.
Lemma index_commit_steady p m : respects steady (index_commit p m).
Proof. unfold index_commit. prim_steady. Qed.
Lemma repo_remote_origin_steady p : respects steady (repo_remote_origin p).
Proof. unfold repo_remote_origin. prim_steady. Qed.
Lemma remote_push_steady p u : respects steady (remote_push p u).
Proof. unfold remote_push. prim_steady. Qed.

Lemma safe_rmtree_steady p : respects steady (safe_rmtree p).
Proof.
  intros w r w' H.
  destruct (safe_rmtree_cases p w) as [[_ Hs]|[(w1 & _ & Hs & _ & Hf)|(e & w1 & _ & _ & Hs & Hf)]];
    rewrite Hs in H; inversion H; subst.
  - apply steady_refl.
  - now apply steady_same_but_fs.
  - eapply steady_trans; [apply steady_same_but_fs, Hf | apply steady_print].
Qed.

#[local] Hint Resolve print_steady os_path_abspath_steady os_path_exists_steady
  os_path_isdir_steady os_listdir_steady shutil_copytree_steady shutil_copy2_steady
  Repo_clone_from_steady Repo_open_steady repo_branch_names_steady
  repo_ref_names_steady git_checkout_steady git_checkout_b_steady
  git_add_all_steady repo_is_dirty_steady repo_untracked_files_steady
  index_commit_steady repo_remote_origin_steady remote_push_steady
  safe_rmtree_steady : steady.

Ltac steady_steps := respects_steps steady_refl steady_trans; auto with steady.

Lemma cp_body_steady u l c m b : respects steady (cp_body u l c m b).
Proof.
  unfold cp_body, cp_acquire, cp_switch_branch, cp_copy, cp_copy_item, cp_publish, cp_push.
  steady_steps.
Qed.

Lemma cp_cleanup_steady c : respects steady (cp_cleanup c).
Proof. unfold cp_cleanup. steady_steps. Qed.

Lemma pe_body_steady l p m b : respects steady (pe_body l p m b).
Proof.
  unfold pe_body, pe_open, pe_copy, pe_copy_item, pe_publish, pe_push.
  steady_steps.
Qed.

(** * The top-level handlers *)

Lemma cp_cleanup_run (c : pathstr) (w : world) :
  exists w2,
    safe_rmtree (abspath_in w c) (set_out (out w ++ ["Performing cleanup..."]) w)
    = (Ok tt, w2)
    /\ cp_cleanup c w = (Ok tt, set_out (out w2 ++ ["Cleanup completed"]) w2).
Proof.
  pose proof (safe_rmtree_ok (abspath_in w c)
                (set_out (out w ++ ["Performing cleanup..."]) w)) as H.
  destruct (safe_rmtree _ _) as [r w2] eqn:E. simpl in H. subst r.
  exists w2. split; [reflexivity|].
  unfold cp_cleanup, bind, print, os_path_abspath.
  change (match c with Abs p => p | Rel p => cwd (set_out (out w ++ ["Performing cleanup..."]) w) ++ p end)
    with (abspath_in w c).
  now rewrite E.
Qed.

Lemma cp_guarded_run (url : string) (l c : pathstr) (m b : string) (w : world) :
  try_except2 (cp_body url l c m b)
    isinstance_GitCommandError (fun e => print ("Git command error: " ++ exn_str e))
    isinstance_Exception (fun e => print ("Error: " ++ exn_str e)) w
  = match cp_body url l c m b w with
    | (Ok a, w0) => (Ok a, w0)
    | (Raise e, w0) => (Ok tt, set_out (out w0 ++ [error_line e]) w0)
    end.
Proof.
  unfold try_except2, error_line. destruct (cp_body url l c m b w) as [[[]|e] w0]; auto.
  destruct (isinstance_GitCommandError e); reflexivity.
Qed.

Lemma clone_and_push_run (url : string) (l c : pathstr) (m b : string) (w : world) :
  forall res w0,
    cp_body url l c m b w = (res, w0) ->
    let w1 := match res with
              | Ok _ => w0
              | Raise e => set_out (out w0 ++ [error_line e]) w0
              end in
    let w2 := snd (safe_rmtree (abspath_in w c)
                     (set_out (out w1 ++ ["Performing cleanup..."]) w1)) in
    clone_and_push_folder_fixed url l c m b w
    = (Ok tt, set_out (out w2 ++ ["Cleanup completed"]) w2).
Proof.
  intros res w0 Hb w1 w2.
  unfold clone_and_push_folder_fixed, try_finally. rewrite cp_guarded_run, Hb.
  assert (Hc : cwd w1 = cwd w).
  { destruct (cp_body_steady url l c m b _ _ _ Hb) as [Hc _]. subst w1.
    destruct res; exact Hc. }
  assert (Ha : abspath_in w1 c = abspath_in w c).
  { unfold abspath_in. now rewrite Hc. }
  destruct (cp_cleanup_run c w1) as (w2' & Hs & Hr). rewrite Ha in Hs.
  assert (w2 = w2') by (subst w2; now rewrite Hs). subst w2'.
  destruct res as [[]|e]; subst w1; rewrite Hr; reflexivity.
Qed.


(** * The checkout directory of [push_to_existing_repo] stays *)

Lemma keeps_dir_refl p w : keeps_dir p w w.
Proof. intros H; exact H. Qed.

Lemma keeps_dir_trans p w1 w2 w3 :
  keeps_dir p w1 w2 -> keeps_dir p w2 w3 -> keeps_dir p w1 w3.
Proof. unfold keeps_dir. auto. Qed.

Lemma keeps_dir_same_fs p w w' : fs w' = fs w -> keeps_dir p w w'.
Proof. unfold keeps_dir. intros ->. auto. Qed.

Lemma put_below_keeps_dir (p : path) (c : string) (q : path) (v n n' : node) :
  put_path (p ++ c :: q) v n = Some n' -> is_dir n p = true -> is_dir n' p = true.
Proof.
  revert n n'. induction p as [|a p IH]; intros n n'.
  - simpl. destruct n as [|es]; [discriminate|].
    destruct (put_path q v _); [|discriminate]. intros H _. now injection H as <-.
  - unfold is_dir. simpl. destruct n as [|es]; [discriminate|].
    destruct (aget a es) as [x|] eqn:Ea; [|discriminate].
    destruct (put_path (p ++ c :: q) v x) as [x'|] eqn:Ep; [|discriminate].
    intros H Hd. injection H as <-. simpl. rewrite aget_aset_same.
    apply (IH _ _ Ep Hd).
Qed.

Lemma put_at_is_dir (p : path) (es : entries) (n n' : node) :
  put_path p (Dir es) n = Some n' -> is_dir n' p = true.
Proof. intros H. unfold is_dir. now rewrite (lookup_put_path _ _ _ _ H). Qed.

Create HintDb keeps.
#[local] Hint Resolve keeps_dir_refl : keeps.
#[local] Hint Extern 1 (keeps_dir _ _ _) => (apply keeps_dir_same_fs; reflexivity) : keeps.

Ltac prim_keeps p :=
  respects_steps (keeps_dir_refl p) (@keeps_dir_trans p);
  auto with keeps;
  try (leaf_run; simpl; auto with keeps).

Section KeepsDir.
Variable p : path.

Lemma print_keeps s : respects (keeps_dir p) (print s).
Proof. unfold print. prim_keeps p. Qed.
Lemma get_repo_keeps q : respects (keeps_dir p) (get_repo q).
Proof. unfold get_repo. prim_keeps p. Qed.
Lemma put_repo_keeps q r : respects (keeps_dir p) (put_repo q r).
Proof. unfold put_repo. prim_keeps p. Qed.
Hint Resolve print_keeps get_repo_keeps put_repo_keeps : keeps.

Lemma os_path_exists_keeps q : respects (keeps_dir p) (os_path_exists q).
Proof. unfold os_path_exists. prim_keeps p. Qed.
Lemma os_path_isdir_keeps q : respects (keeps_dir p) (os_path_isdir q).
Proof. unfold os_path_isdir. prim_keeps p. Qed.
Lemma os_listdir_keeps q : respects (keeps_dir p) (os_listdir q).
Proof. unfold os_listdir. prim_keeps p. Qed.
Lemma Repo_open_keeps q : respects (keeps_dir p) (Repo_open q).
Proof. unfold Repo_open. prim_keeps p. Qed.
Lemma repo_branch_names_keeps q : respects (keeps_dir p) (repo_branch_names q).
Proof. unfold repo_branch_names. prim_keeps p. Qed.
Lemma git_add_all_keeps q : respects (keeps_dir p) (git_add_all q).
Proof. unfold git_add_all. prim_keeps p. Qed.
Lemma repo_is_dirty_keeps q : respects (keeps_dir p) (repo_is_dirty q).
Proof. unfold repo_is_dirty. prim_keeps p. Qed.
Lemma repo_untracked_files_keeps q : respects (keeps_dir p) (repo_untracked_files q).
Proof. unfold repo_untracked_files. prim_keeps p. Qed.
Lemma index_commit_keeps q m : respects (keeps_dir p) (index_commit q m).
Proof. unfold index_commit. prim_keeps p. Qed.
Lemma repo_remote_origin_keeps q : respects (keeps_dir p) (repo_remote_origin q).
Proof. unfold repo_remote_origin. prim_keeps p. Qed.
Lemma remote_push_keeps q u : respects (keeps_dir p) (remote_push q u).
Proof. unfold remote_push. prim_keeps p. Qed.

(** A checkout rewrites the working tree at its root, which stays a
    directory. *)
Lemma switch_to_keeps n r : respects (keeps_dir p) (switch_to p n r).
Proof.
  unfold switch_to. prim_keeps p.
  intros _. simpl. eapply put_at_is_dir; eauto.
Qed.
Hint Resolve switch_to_keeps : keeps.

Lemma git_checkout_keeps n : respects (keeps_dir p) (git_checkout p n).
Proof. unfold git_checkout. prim_keeps p. Qed.

(** The copies write below the root of the checkout. *)
Lemma shutil_copytree_keeps src item b :
  respects (keeps_dir p) (shutil_copytree src (os_path_join p item) b).
Proof.
  unfold shutil_copytree, os_path_join. prim_keeps p;
    intros Hd; simpl; eapply put_below_keeps_dir; eauto.
Qed.

Lemma shutil_copy2_keeps src item :
  respects (keeps_dir p) (shutil_copy2 src (os_path_join p item)).
Proof.
  unfold shutil_copy2, os_path_join. prim_keeps p;
    intros Hd; simpl;
    repeat match goal with
           | H : put_path ((_ ++ [_]) ++ [_]) _ _ = _ |- _ =>
               rewrite <- app_assoc in H; simpl in H
           end;
    eapply put_below_keeps_dir; eauto.
Qed.

Hint Resolve os_path_exists_keeps os_path_isdir_keeps os_listdir_keeps
  Repo_open_keeps repo_branch_names_keeps git_add_all_keeps repo_is_dirty_keeps
  repo_untracked_files_keeps index_commit_keeps repo_remote_origin_keeps
  remote_push_keeps git_checkout_keeps shutil_copytree_keeps shutil_copy2_keeps
  : keeps.

Lemma Repo_open_returns q w a w' : Repo_open q w = (Ok a, w') -> a = q.
Proof. unfold Repo_open. intros H. break_run H. reflexivity. Qed.

Lemma pe_open_keeps l b : respects (keeps_dir p) (pe_open l p b).
Proof.
  unfold pe_open.
  apply (respects_bind _ (keeps_dir_trans p)); [auto with keeps | intros _].
  apply (respects_bind _ (keeps_dir_trans p)); [auto with keeps | intros _].
  apply (respects_bind_val _ (keeps_dir_trans p)) with (Q := fun a => a = p);
    [apply Repo_open_returns | auto with keeps | intros a ->].
  prim_keeps p.
Qed.

Lemma pe_copy_keeps l : respects (keeps_dir p) (pe_copy l p).
Proof. unfold pe_copy, pe_copy_item. prim_keeps p. Qed.

Lemma pe_publish_keeps q m : respects (keeps_dir p) (pe_publish q m).
Proof. unfold pe_publish, pe_push. prim_keeps p. Qed.
End KeepsDir.

Lemma pe_body_unfold (l r : pathstr) (m b : string) (w : world) :
  pe_body l r m b w =
  (repo <- pe_open (abspath_in w l) (abspath_in w r) b ;;
   pe_copy (abspath_in w l) (abspath_in w r) ;;
   pe_publish repo m) w.
Proof. reflexivity. Qed.

Lemma cp_body_unfold (url : string) (l c : pathstr) (m b : string) (w : world) :
  cp_body url l c m b w =
  (repo <- cp_acquire url (abspath_in w l) (abspath_in w c) ;;
   cp_switch_branch repo b ;;
   cp_copy (abspath_in w l) (abspath_in w c) ;;
   cp_publish repo m) w.
Proof. reflexivity. Qed.

Lemma push_to_existing_repo_keeps (l r : pathstr) (m b : string) (w : world) :
  keeps_dir (abspath_in w r) w (snd (push_to_existing_repo l r m b w)).
Proof.
  unfold push_to_existing_repo, try_except. rewrite pe_body_unfold.
  set (p := abspath_in w r).
  match goal with |- context [match ?c w with _ => _ end] =>
    assert (Hc : respects (keeps_dir p) c)
  end.
  { apply (respects_bind _ (keeps_dir_trans p)); [apply pe_open_keeps | intros a].
    apply (respects_bind _ (keeps_dir_trans p)); [apply pe_copy_keeps | intros _].
    apply pe_publish_keeps. }
  match goal with |- context [match ?c w with _ => _ end] =>
    destruct (c w) as [[[]|e] w0] eqn:E
  end; simpl.
  - eapply Hc; eauto.
  - eapply keeps_dir_trans; [eapply Hc; eauto | apply keeps_dir_same_fs; reflexivity].
Qed.

Lemma safe_rmtree_gone_or_warned (p : path) (w : world) :
  let w' := snd (safe_rmtree p w) in
  exists_ (fs w') p = false \/ exists e, last (out w') "" = rmtree_warning p e.
Proof.
  destruct (safe_rmtree_cases p w) as [[Hn Hs]|[(w1 & _ & Hs & Hg & _)|(e & w1 & _ & _ & Hs & _)]];
    rewrite Hs; simpl; auto.
  right. exists e. apply last_last.
Qed.

(** C2.  In [clone_and_push_folder_fixed] the cleanup runs after the body
    whatever its outcome [res] was (it returned, or it raised and a handler
    printed the error): the operation ends with [safe_rmtree] on the clone
    directory followed by ["Cleanup completed"], and afterwards the clone
    directory is gone or the last thing [safe_rmtree] printed is its
    warning.  [push_to_existing_repo] leaves the caller's checkout directory
    in place. *)
Theorem cleanup_runs_on_every_exit (url : string) (l c r : pathstr)
    (m b : string) (w : world) (res : outcome unit) (w0 : world) :
  cp_body url l c m b w = (res, w0) ->
  let clone_dir := abspath_in w c in
  let w1 := match res with
            | Ok _ => w0
            | Raise e => set_out (out w0 ++ [error_line e]) w0
            end in
  let w2 := snd (safe_rmtree clone_dir
                   (set_out (out w1 ++ ["Performing cleanup..."]) w1)) in
  clone_and_push_folder_fixed url l c m b w
  = (Ok tt, set_out (out w2 ++ ["Cleanup completed"]) w2)
  /\ (exists_ (fs w2) clone_dir = false
      \/ exists e, last (out w2) "" = rmtree_warning clone_dir e)
  /\ (is_dir (fs w) (abspath_in w r) = true ->
      is_dir (fs (snd (push_to_existing_repo l r m b w))) (abspath_in w r) = true).
Proof.
  intros Hb clone_dir w1 w2. split; [|split].
  - exact (clone_and_push_run _ _ _ _ _ _ _ _ Hb).
  - apply safe_rmtree_gone_or_warned.
  - apply push_to_existing_repo_keeps.
Qed.

(** * Equality tests *)

Lemma node_eqb_refl (n : node) : node_eqb n n = true.
Proof.
  induction n as [ro l d | es IH] using node_induction; simpl.
  - now rewrite !Bool.eqb_reflx, String.eqb_refl.
  - induction IH as [|[k x] es Hx _ IHes]; auto.
    simpl in Hx. now rewrite String.eqb_refl, Hx, IHes.
Qed.

Lemma node_eqb_eq (a b : node) : node_eqb a b = true -> a = b.
Proof.
  revert b. induction a as [ro l d | es IH] using node_induction; intros [ro' l' d' | es'];
    simpl; try discriminate.
  - intros H. apply andb_prop in H as [H Hd]. apply andb_prop in H as [Hr Hl].
    apply Bool.eqb_prop in Hr, Hl. apply String.eqb_eq in Hd. congruence.
  - intros H. f_equal. revert es' H.
    induction IH as [|[k x] es Hx _ IHes]; intros [|[k' x'] es']; try discriminate; auto.
    intros H. apply andb_prop in H as [H Hes]. apply andb_prop in H as [Hk Hn].
    apply String.eqb_eq in Hk. simpl in Hx. apply Hx in Hn. apply IHes in Hes.
    congruence.
Qed.

Lemma tree_eqb_refl (t : entries) : tree_eqb t t = true.
Proof. apply node_eqb_refl. Qed.

Lemma tree_eqb_eq (a b : entries) : tree_eqb a b = true -> a = b.
Proof. intros H. apply node_eqb_eq in H. congruence. Qed.

Lemma rget_rset_same p r l : rget p (rset p r l) = Some r.
Proof.
  induction l as [|[q r'] l IH]; simpl.
  - now rewrite path_eqb_refl.
  - destruct (path_eqb q p) eqn:E; simpl.
    + now rewrite path_eqb_refl.
    + now rewrite E.
Qed.

Lemma rset_rset p r r' l : rset p r (rset p r' l) = rset p r l.
Proof.
  induction l as [|[q r0] l IH]; simpl.
  - now rewrite path_eqb_refl.
  - destruct (path_eqb q p) eqn:E; simpl.
    + now rewrite path_eqb_refl.
    + now rewrite E, IH.
Qed.

Lemma nothing_untracked (l : list path) :
  filter (fun q => negb (existsb (path_eqb q) l)) l = [].
Proof.
  assert (G : forall l0, incl l0 l ->
            filter (fun q => negb (existsb (path_eqb q) l)) l0 = []).
  { induction l0 as [|q l0 IH]; intros Hi; auto. simpl.
    assert (E : existsb (path_eqb q) l = true).
    { apply existsb_exists. exists q. split; [apply Hi; now left | apply path_eqb_refl]. }
    rewrite E. simpl. apply IH. intros x Hx. apply Hi. now right. }
  apply G, incl_refl.
Qed.

(** * Running the git primitives on a known repository *)

Lemma bind_run {A B} (c : M A) (k : A -> M B) w a w1 :
  c w = (Ok a, w1) -> bind c k w = k a w1.
Proof. unfold bind. now intros ->. Qed.

Lemma bind_run_raise {A B} (c : M A) (k : A -> M B) w e w1 :
  c w = (Raise e, w1) -> bind c k w = (Raise e, w1).
Proof. unfold bind. now intros ->. Qed.

Lemma get_repo_run p r w : rget p (repos w) = Some r -> get_repo p w = (Ok r, w).
Proof. unfold get_repo. now intros ->. Qed.

Lemma git_add_all_run p r w :
  rget p (repos w) = Some r ->
  git_add_all p w =
  (Ok tt, set_repos (rset p (with_index (tracked (worktree_of (fs w) p)) r) (repos w)) w).
Proof. intros H. unfold git_add_all, bind, get_repo, put_repo. now rewrite H. Qed.

Lemma repo_is_dirty_run p r w :
  rget p (repos w) = Some r ->
  repo_is_dirty p w =
  (Ok (negb (tree_eqb (index r) (head_tree r))
       || negb (tree_eqb (tracked (worktree_of (fs w) p)) (index r))), w).
Proof. intros H. unfold repo_is_dirty, bind, get_repo, put_repo. now rewrite H. Qed.

Lemma repo_untracked_files_run p r w :
  rget p (repos w) = Some r ->
  repo_untracked_files p w =
  (Ok (filter
         (fun q => negb (existsb (path_eqb q) (file_paths (Dir (index r)) [])))
         (file_paths (Dir (tracked (worktree_of (fs w) p))) [])), w).
Proof.
  intros H. unfold repo_untracked_files, bind, get_repo. now rewrite H.
Qed.

Lemma index_commit_run p r m w :
  rget p (repos w) = Some r ->
  index_commit p m w =
  (Ok tt,
   set_repos
     (rset p
        (with_heads
           (aset (head_branch r)
              ({| c_message := m; c_tree := index r |}
                 :: branch_history (heads r) (head_branch r))
              (heads r)) r)
        (repos w)) w).
Proof. intros H. unfold index_commit, bind, get_repo, put_repo. now rewrite H. Qed.

(** * Staging and committing *)

Lemma staged_is_dirty p r w :
  repo_is_dirty p (staged p r w)
  = (Ok (negb (tree_eqb (tracked (worktree_of (fs w) p)) (head_tree r))), staged p r w).
Proof.
  erewrite repo_is_dirty_run by (unfold staged; simpl; apply rget_rset_same).
  simpl. rewrite tree_eqb_refl. simpl. now rewrite orb_false_r.
Qed.

Lemma staged_untracked p r w :
  repo_untracked_files p (staged p r w) = (Ok [], staged p r w).
Proof.
  erewrite repo_untracked_files_run by (unfold staged; simpl; apply rget_rset_same).
  simpl index. simpl fs. now rewrite nothing_untracked.
Qed.

Lemma staged_out_is_dirty p r w o :
  repo_is_dirty p (set_out o (staged p r w))
  = (Ok (negb (tree_eqb (tracked (worktree_of (fs w) p)) (head_tree r))),
     set_out o (staged p r w)).
Proof.
  erewrite repo_is_dirty_run by (unfold staged; simpl; apply rget_rset_same).
  simpl. rewrite tree_eqb_refl. simpl. now rewrite orb_false_r.
Qed.

Lemma staged_out_untracked p r w o :
  repo_untracked_files p (set_out o (staged p r w)) = (Ok [], set_out o (staged p r w)).
Proof.
  erewrite repo_untracked_files_run by (unfold staged; simpl; apply rget_rset_same).
  simpl index. simpl fs. now rewrite nothing_untracked.
Qed.

Lemma staged_out_commit p r m w o :
  index_commit p m (set_out o (staged p r w)) = (Ok tt, set_out o (committed p r m w)).
Proof.
  erewrite index_commit_run by (unfold staged; simpl; apply rget_rset_same).
  unfold committed, staged, set_out, set_repos. simpl. now rewrite rset_rset.
Qed.

(** What the publishing block of [clone_and_push_folder_fixed] does,
    according to whether staging found a difference with HEAD. *)
Lemma cp_publish_run p r m w :
  rget p (repos w) = Some r ->
  cp_publish p m w =
  if negb (tree_eqb (tracked (worktree_of (fs w) p)) (head_tree r)) then
    cp_push p
      (set_out (out w ++ ["Files added to staging area"; committed_line_clone m])
         (committed p r m w))
  else
    (Ok tt,
     set_out (out w ++ ["Files added to staging area"; "No changes to commit"])
       (staged p r w)).
Proof.
  intros H. unfold cp_publish.
  rewrite (bind_run _ _ _ _ _ (git_add_all_run _ _ _ H)). fold (staged p r w).
  unfold bind at 1, print at 1.
  rewrite (bind_run _ _ _ _ _ (staged_out_is_dirty _ _ _ _)).
  destruct (negb (tree_eqb _ _)) eqn:D.
  - unfold bind at 1, ret at 1.
    rewrite (bind_run _ _ _ _ _ (staged_out_commit _ _ _ _ _)).
    unfold bind at 1, print at 1. unfold committed_line_clone.
    simpl out. now rewrite <- app_assoc.
  - rewrite (bind_run _ _ _ _ _ (bind_run _ _ _ _ _ (staged_out_untracked _ _ _ _))).
    simpl. unfold print. simpl. now rewrite <- app_assoc.
Qed.

Lemma pe_publish_run p r m w :
  rget p (repos w) = Some r ->
  pe_publish p m w =
  if negb (tree_eqb (tracked (worktree_of (fs w) p)) (head_tree r)) then
    pe_push p
      (set_out (out w ++ ["Files staged successfully"; committed_line_existing m])
         (committed p r m w))
  else
    (Ok tt,
     set_out (out w ++ ["Files staged successfully"; "No changes to commit"])
       (staged p r w)).
Proof.
  intros H. unfold pe_publish.
  rewrite (bind_run _ _ _ _ _ (git_add_all_run _ _ _ H)). fold (staged p r w).
  unfold bind at 1, print at 1.
  rewrite (bind_run _ _ _ _ _ (staged_out_is_dirty _ _ _ _)).
  destruct (negb (tree_eqb _ _)) eqn:D.
  - unfold bind at 1, ret at 1.
    rewrite (bind_run _ _ _ _ _ (staged_out_commit _ _ _ _ _)).
    unfold bind at 1, print at 1. unfold committed_line_existing.
    simpl out. now rewrite <- app_assoc.
  - rewrite (bind_run _ _ _ _ _ (bind_run _ _ _ _ _ (staged_out_untracked _ _ _ _))).
    simpl. unfold print. simpl. now rewrite <- app_assoc.
Qed.

(** * Pushing does not touch the local branches *)

Lemma keeps_heads_refl p h b w : keeps_heads p h b w w.
Proof. intros H; exact H. Qed.

Lemma keeps_heads_trans p h b w1 w2 w3 :
  keeps_heads p h b w1 w2 -> keeps_heads p h b w2 w3 -> keeps_heads p h b w1 w3.
Proof. unfold keeps_heads. auto. Qed.

Lemma keeps_heads_same_repos p h b w w' :
  repos w' = repos w -> keeps_heads p h b w w'.
Proof. unfold keeps_heads, has_heads. intros ->. auto. Qed.

Create HintDb heads.
#[local] Hint Resolve keeps_heads_refl : heads.
#[local] Hint Extern 1 (keeps_heads _ _ _ _ _) =>
  (apply keeps_heads_same_repos; reflexivity) : heads.

Ltac prim_heads p h b :=
  respects_steps (keeps_heads_refl p h b) (keeps_heads_trans p h b);
  auto with heads;
  try (leaf_run; simpl; auto with heads).

Section KeepsHeads.
Variables (p : path) (h : list (string * history)) (b : string).

Lemma print_keeps_heads s : respects (keeps_heads p h b) (print s).
Proof. unfold print. prim_heads p h b. Qed.

Lemma repo_remote_origin_keeps_heads :
  respects (keeps_heads p h b) (repo_remote_origin p).
Proof. unfold repo_remote_origin, get_repo. prim_heads p h b. Qed.

Lemma remote_push_keeps_heads u : respects (keeps_heads p h b) (remote_push p u).
Proof.
  intros w res w' H. unfold remote_push, bind, get_repo in H.
  break_run H; auto with heads.
  intros (r' & Hr & Hh & Hb). unfold has_heads. simpl.
  rewrite rget_rset_same. eexists. split; [reflexivity|].
  simpl. split; congruence.
Qed.

Hint Resolve print_keeps_heads repo_remote_origin_keeps_heads
  remote_push_keeps_heads : heads.

Lemma cp_push_keeps_heads : respects (keeps_heads p h b) (cp_push p).
Proof. unfold cp_push. prim_heads p h b. Qed.

Lemma pe_push_keeps_heads : respects (keeps_heads p h b) (pe_push p).
Proof. unfold pe_push. prim_heads p h b. Qed.
End KeepsHeads.

Lemma committed_has_heads p r m w o :
  has_heads p
    (aset (head_branch r)
       (new_commit p m w :: branch_history (heads r) (head_branch r)) (heads r))
    (head_branch r)
    (set_out o (committed p r m w)).
Proof.
  unfold has_heads, committed. simpl. rewrite rget_rset_same.
  eexists. split; [reflexivity|]. split; reflexivity.
Qed.

(** C4.  After staging, [repo.is_dirty()] answers [d] and
    [repo.untracked_files] is [u].  When neither reports anything, both
    publishing blocks print ["No changes to commit"], return normally, and
    the repository is as staging left it: no commit.  When one of them does,
    a commit with the supplied message and the staged tree is put on the
    current branch before the push is attempted, and it is there whatever
    the push does. *)
Theorem commit_iff_changes (p : path) (message : string) (w : world) (r : repo) :
  rget p (repos w) = Some r ->
  let ws := staged p r w in
  exists d u,
    git_add_all p w = (Ok tt, ws)
    /\ repo_is_dirty p ws = (Ok d, ws)
    /\ repo_untracked_files p ws = (Ok u, ws)
    /\ (d || truthy u = false ->
        cp_publish p message w
        = (Ok tt,
           set_out (out w ++ ["Files added to staging area"; "No changes to commit"]) ws)
        /\ pe_publish p message w
           = (Ok tt,
              set_out (out w ++ ["Files staged successfully"; "No changes to commit"]) ws))
    /\ (d || truthy u = true ->
        cp_publish p message w
        = cp_push p
            (set_out (out w ++ ["Files added to staging area";
                                committed_line_clone message])
               (committed p r message w))
        /\ pe_publish p message w
           = pe_push p
               (set_out (out w ++ ["Files staged successfully";
                                   committed_line_existing message])
                  (committed p r message w))
        /\ forall res w',
             cp_publish p message w = (res, w') \/ pe_publish p message w = (res, w') ->
             has_heads p
               (aset (head_branch r)
                  (new_commit p message w :: branch_history (heads r) (head_branch r))
                  (heads r))
               (head_branch r) w').
Proof.
  intros H ws.
  exists (negb (tree_eqb (tracked (worktree_of (fs w) p)) (head_tree r))), [].
  split; [apply git_add_all_run, H|].
  split; [apply staged_is_dirty|].
  split; [apply staged_untracked|].
  rewrite (cp_publish_run _ _ message _ H), (pe_publish_run _ _ message _ H).
  simpl truthy. rewrite orb_false_r.
  split; intros ->; [split; reflexivity|].
  split; [reflexivity|]. split; [reflexivity|].
  intros res w' [Hr|Hr].
  - eapply cp_push_keeps_heads; [exact Hr | apply committed_has_heads].
  - eapply pe_push_keeps_heads; [exact Hr | apply committed_has_heads].
Qed.

(** * Branch selection in [push_to_existing_repo] *)

Lemma Repo_open_run p r w :
  exists_ (fs w) p = true -> is_dir (fs w) (p ++ [".git"]) = true ->
  rget p (repos w) = Some r -> Repo_open p w = (Ok p, w).
Proof. unfold Repo_open. now intros -> -> ->. Qed.

(** C5, where the code departs from the claim.  In [push_to_existing_repo]
    a branch name that is not a local branch leads to no checkout at all,
    also when the remote-tracking branch [origin/<name>] exists: the block
    only prints its two header lines, the repository keeps its branches and
    its HEAD, and nothing is reported. *)
Theorem existing_repo_ignores_remote_branch (l p : path) (b : string)
    (w : world) (r : repo) :
  exists_ (fs w) p = true ->
  is_dir (fs w) (p ++ [".git"]) = true ->
  rget p (repos w) = Some r ->
  mem b (names (heads r)) = false ->
  mem ("origin/" ++ b) (names (repo_refs_of r)) = true ->
  pe_open l p b w
  = (Ok p,
     set_out (out w ++ [source_folder_line l; target_repo_line p]) w).
Proof.
  intros He Hg Hr Hb _. unfold pe_open.
  unfold bind at 1, print at 1. unfold bind at 1, print at 1.
  erewrite bind_run by (apply Repo_open_run with (r := r); simpl; eauto).
  unfold repo_branch_names.
  erewrite bind_run by (erewrite bind_run by (apply get_repo_run; simpl; eauto); reflexivity).
  rewrite Hb. simpl. now rewrite <- app_assoc.
Qed.

(** * A push that raises *)

Lemma committed_origin_run p r m w o url :
  origin r = Some url ->
  repo_remote_origin p (set_out o (committed p r m w))
  = (Ok url, set_out o (committed p r m w)).
Proof.
  intros Ho. unfold repo_remote_origin.
  erewrite bind_run
    by (apply get_repo_run; unfold committed; simpl; apply rget_rset_same).
  simpl. now rewrite Ho.
Qed.

Lemma cp_push_refused p r m w o url s :
  origin r = Some url ->
  push_fails_with p url s (committed p r m w) ->
  cp_push p (set_out o (committed p r m w))
  = (Ok tt,
     set_out (o ++ [push_failed_line s; push_hint_line]) (committed p r m w)).
Proof.
  intros Ho Hp. unfold cp_push, try_except.
  erewrite bind_run by (apply committed_origin_run; eauto).
  erewrite bind_run_raise by (apply Hp).
  simpl. unfold bind, print. simpl. now rewrite <- app_assoc.
Qed.

Lemma pe_push_refused p r m w o url s :
  origin r = Some url ->
  push_fails_with p url s (committed p r m w) ->
  pe_push p (set_out o (committed p r m w))
  = (Raise (GitCommandError s), set_out o (committed p r m w)).
Proof.
  intros Ho Hp. unfold pe_push.
  erewrite bind_run by (apply committed_origin_run; eauto).
  erewrite bind_run_raise by (apply Hp). reflexivity.
Qed.

(** X20.  A push that raises.  When staging found changes and
    [origin.push()] raises [GitCommandError] with message [s] (the remote
    cannot be reached, or it refuses access):
    - the publishing block of [clone_and_push_folder_fixed] prints
      ["Push failed: s"] and the hint and returns normally, and that of
      [push_to_existing_repo] raises, which the top-level handler prints as
      ["Error: s"];
    - in both the world is the one the commit left (no rollback): the
      commit is on the current branch and the files are untouched;
    - [push_to_existing_repo] returns normally in that world;
    - [clone_and_push_folder_fixed] returns normally after its cleanup has
      run on that world. *)
Theorem refused_push_is_reported_without_rollback
    (p : path) (message : string) (w : world) (r : repo) (url s : string) :
  rget p (repos w) = Some r ->
  negb (tree_eqb (tracked (worktree_of (fs w) p)) (head_tree r)) = true ->
  origin r = Some url ->
  push_fails_with p url s (committed p r message w) ->
  let wc := committed p r message w in
  let w_clone :=
    set_out (out w ++ ["Files added to staging area"; committed_line_clone message;
                       push_failed_line s; push_hint_line]) wc in
  let w_existing :=
    set_out (out w ++ ["Files staged successfully"; committed_line_existing message]) wc in
  cp_publish p message w = (Ok tt, w_clone)
  /\ pe_publish p message w = (Raise (GitCommandError s), w_existing)
  /\ has_heads p (heads_after_commit p r message w) (head_branch r) wc
  /\ fs wc = fs w
  /\ (forall l rp b w0 wa,
        p = abspath_in w0 rp ->
        pe_open (abspath_in w0 l) p b w0 = (Ok p, wa) ->
        pe_copy (abspath_in w0 l) p wa = (Ok tt, w) ->
        push_to_existing_repo l rp message b w0
        = (Ok tt,
           set_out (out w_existing ++ [plain_error_line (GitCommandError s)]) wc))
  /\ (forall url0 l c b w0 wa wb,
        p = abspath_in w0 c ->
        cp_acquire url0 (abspath_in w0 l) p w0 = (Ok p, wa) ->
        cp_switch_branch p b wa = (Ok tt, wb) ->
        cp_copy (abspath_in w0 l) p wb = (Ok tt, w) ->
        let w2 := snd (safe_rmtree p
                         (set_out (out w_clone ++ ["Performing cleanup..."]) w_clone)) in
        clone_and_push_folder_fixed url0 l c message b w0
        = (Ok tt, set_out (out w2 ++ ["Cleanup completed"]) w2)).
Proof.
  intros Hr Hd Ho Hp wc w_clone w_existing.
  assert (Hcp : cp_publish p message w = (Ok tt, w_clone)).
  { rewrite (cp_publish_run _ _ message _ Hr), Hd.
    rewrite (cp_push_refused _ _ _ _ _ _ _ Ho Hp). subst w_clone.
    now rewrite <- app_assoc. }
  assert (Hpe : pe_publish p message w = (Raise (GitCommandError s), w_existing)).
  { rewrite (pe_publish_run _ _ message _ Hr), Hd.
    now rewrite (pe_push_refused _ _ _ _ _ _ _ Ho Hp). }
  split; [exact Hcp|]. split; [exact Hpe|].
  split; [apply (committed_has_heads p r message w (out w))|].
  split; [reflexivity|]. split.
  - intros l rp b w0 wa -> Hopen Hcopy.
    unfold push_to_existing_repo, try_except. rewrite pe_body_unfold.
    rewrite (bind_run _ _ _ _ _ Hopen), (bind_run _ _ _ _ _ Hcopy), Hpe.
    reflexivity.
  - intros url0 l c b w0 wa wb -> Hacq Hsw Hcopy w2.
    assert (Hb : cp_body url0 l c message b w0 = (Ok tt, w_clone)).
    { rewrite cp_body_unfold.
      now rewrite (bind_run _ _ _ _ _ Hacq), (bind_run _ _ _ _ _ Hsw),
        (bind_run _ _ _ _ _ Hcopy). }
    exact (clone_and_push_run _ _ _ _ _ _ _ _ Hb).
Qed.

(** With a remote that refuses access, a run of
    [clone_and_push_folder_fixed] commits, reports the failed push, and ends
    with no repository, hence no commit, at the clone directory: the
    cleanup removes the clone together with the commit. *)
Lemma refused_push_clone_commit_is_lost :
  let w' := snd (clone_and_push_folder_fixed "url" (Rel ["certs"]) default_clone_dir
                   "msg" "main" (ex_world false)) in
  In (committed_line_clone "msg") (out w')
  /\ In (push_failed_line "Authentication failed for 'url'") (out w')
  /\ exists_ (fs w') ["home"; "temp_repo"] = false
  /\ ~ (exists r c,
          local_repo w' ["home"; "temp_repo"] = Some r
          /\ In c (branch_history (heads r) (head_branch r))
          /\ c_message c = "msg").
Proof.
  vm_compute. repeat split; auto 20.
  intros (r & c & H & _). discriminate.
Qed.

(** * A push the remote rejects *)

(** [origin.push()] returns when the remote rejects the update. *)
Lemma remote_push_rejected p r m w o url rm :
  aget url (remotes w) = Some rm ->
  r_accepts_push rm = true ->
  is_ancestor (branch_history (r_branches rm) (head_branch r))
    (new_commit p m w :: branch_history (heads r) (head_branch r)) = false ->
  remote_push p url (set_out o (committed p r m w))
  = (Ok tt, set_out o (committed p r m w)).
Proof.
  intros Hrm Hacc Hanc. unfold remote_push.
  erewrite bind_run
    by (apply get_repo_run; unfold committed; simpl; apply rget_rset_same).
  simpl. rewrite Hrm, Hacc. simpl.
  unfold branch_history at 2. rewrite aget_aset_same, Hanc. reflexivity.
Qed.

(** C6.  The code does not notice a push that the remote rejects.  When
    staging found changes, the remote can be reached and grants access, but
    the branch with the new commit is not a fast-forward of the branch on
    the remote (the checkout is behind its remote), then [origin.push()]
    returns (lines 102 and 166), its result is not looked at, and:
    - the publishing block of [clone_and_push_folder_fixed] prints
      ["Successfully pushed to remote repository"] and that of
      [push_to_existing_repo] prints ["Pushed to remote repository"];
      neither prints a failure line, and nothing is raised for a handler
      to catch;
    - the remote is as it was: the commit is on the current branch of the
      checkout only;
    - [push_to_existing_repo] as a whole returns normally with the success
      line as its last line of output. *)
Theorem rejected_push_is_announced_as_success
    (p : path) (message : string) (w : world) (r : repo) (url : string)
    (rm : remote) :
  rget p (repos w) = Some r ->
  negb (tree_eqb (tracked (worktree_of (fs w) p)) (head_tree r)) = true ->
  origin r = Some url ->
  aget url (remotes w) = Some rm ->
  r_accepts_push rm = true ->
  is_ancestor (branch_history (r_branches rm) (head_branch r))
    (new_commit p message w :: branch_history (heads r) (head_branch r)) = false ->
  let wc := committed p r message w in
  let w_clone :=
    set_out (out w ++ ["Files added to staging area"; committed_line_clone message;
                       "Successfully pushed to remote repository"]) wc in
  let w_existing :=
    set_out (out w ++ ["Files staged successfully"; committed_line_existing message;
                       "Pushed to remote repository"]) wc in
  cp_publish p message w = (Ok tt, w_clone)
  /\ pe_publish p message w = (Ok tt, w_existing)
  /\ remotes wc = remotes w
  /\ has_heads p (heads_after_commit p r message w) (head_branch r) wc
  /\ (forall l rp b w0 wa,
        p = abspath_in w0 rp ->
        pe_open (abspath_in w0 l) p b w0 = (Ok p, wa) ->
        pe_copy (abspath_in w0 l) p wa = (Ok tt, w) ->
        push_to_existing_repo l rp message b w0 = (Ok tt, w_existing)).
Proof.
  intros Hr Hd Ho Hrm Hacc Hanc wc w_clone w_existing.
  assert (Hcp : cp_publish p message w = (Ok tt, w_clone)).
  { rewrite (cp_publish_run _ _ message _ Hr), Hd. unfold cp_push, try_except.
    erewrite bind_run by (apply committed_origin_run; eauto).
    rewrite (bind_run _ _ _ _ _ (remote_push_rejected p r message w _ url rm Hrm Hacc Hanc)).
    unfold print. subst w_clone wc. cbn [out set_out].
    now rewrite <- app_assoc. }
  assert (Hpe : pe_publish p message w = (Ok tt, w_existing)).
  { rewrite (pe_publish_run _ _ message _ Hr), Hd. unfold pe_push.
    erewrite bind_run by (apply committed_origin_run; eauto).
    rewrite (bind_run _ _ _ _ _ (remote_push_rejected p r message w _ url rm Hrm Hacc Hanc)).
    unfold print. subst w_existing wc. cbn [out set_out].
    now rewrite <- app_assoc. }
  split; [exact Hcp|]. split; [exact Hpe|]. split; [reflexivity|].
  split; [apply (committed_has_heads p r message w (out w))|].
  intros l rp b w0 wa -> Hopen Hcopy.
  unfold push_to_existing_repo, try_except. rewrite pe_body_unfold.
  now rewrite (bind_run _ _ _ _ _ Hopen), (bind_run _ _ _ _ _ Hcopy), Hpe.
Qed.

Lemma rejected_push_is_announced_as_success_witness :
  let w' := snd (push_to_existing_repo (Rel ["certs"]) (Rel ["repo"]) "msg" "main"
                   ex_world_behind) in
  aget "url" (remotes ex_world_behind) = Some ex_remote_ahead
  /\ fst (push_to_existing_repo (Rel ["certs"]) (Rel ["repo"]) "msg" "main"
            ex_world_behind) = Ok tt
  /\ remotes w' = remotes ex_world_behind
  /\ out w' = ["Source folder: /home/certs"; "Target repo: /home/repo";
               "Switched to branch: main";
               "Processing: a.pdf"; "Processing: sub"; "Processing: c.pdf";
               "Files staged successfully"; "Committed: msg";
               "Pushed to remote repository"].
Proof.
  intros w'. split; [reflexivity|].
  pose (wa := snd (pe_open ["home"; "certs"] ["home"; "repo"] "main" ex_world_behind)).
  pose (wb := snd (pe_copy ["home"; "certs"] ["home"; "repo"] wa)).
  destruct (rejected_push_is_announced_as_success ["home"; "repo"] "msg" wb ex_repo
              "url" ex_remote_ahead)
    as (_ & _ & _ & _ & H).
  - vm_compute. reflexivity.
  - vm_compute. reflexivity.
  - reflexivity.
  - vm_compute. reflexivity.
  - reflexivity.
  - vm_compute. reflexivity.
  - specialize (H (Rel ["certs"]) (Rel ["repo"]) "main" ex_world_behind wa).
    subst w'. rewrite H.
    + repeat split; vm_compute; reflexivity.
    + reflexivity.
    + vm_compute. reflexivity.
    + vm_compute. reflexivity.
Defined.

(** * The statements at work on the example worlds *)

Lemma safe_rmtree_missing_is_noop_witness :
  exists_ (fs (ex_world true)) ["home"; "temp_repo"] = false
  /\ safe_rmtree ["home"; "temp_repo"] (ex_world true) = (Ok tt, ex_world true).
Proof.
  split; [reflexivity|].
  apply (safe_rmtree_missing_is_noop ["home"; "temp_repo"] (ex_world true)).
  reflexivity.
Defined.


Lemma cleanup_runs_on_every_exit_witness :
  is_dir (fs (ex_world_existing true)) ["home"; "repo"] = true
  /\ fst (clone_and_push_folder_fixed "url" (Rel ["certs"]) default_clone_dir
            "msg" "main" (ex_world_existing true)) = Ok tt
  /\ is_dir (fs (snd (push_to_existing_repo (Rel ["certs"]) (Rel ["repo"])
                        "msg" "main" (ex_world_existing true)))) ["home"; "repo"]
     = true.
Proof.
  destruct (cleanup_runs_on_every_exit "url" (Rel ["certs"]) default_clone_dir
              (Rel ["repo"]) "msg" "main" (ex_world_existing true) _ _
              (surjective_pairing _)) as (H1 & _ & H3).
  split; [reflexivity|]. split.
  - rewrite H1. reflexivity.
  - apply H3. reflexivity.
Defined.

Lemma commit_iff_changes_witness :
  rget ["home"; "repo"] (repos (ex_world_existing true)) = Some ex_repo
  /\ exists w',
       cp_publish ["home"; "repo"] "msg" (ex_world_existing true) = (Ok tt, w')
       /\ has_heads ["home"; "repo"]
            (heads_after_commit ["home"; "repo"] ex_repo "msg" (ex_world_existing true))
            "main" w'.
Proof.
  split; [reflexivity|].
  destruct (commit_iff_changes ["home"; "repo"] "msg" (ex_world_existing true) ex_repo
              eq_refl) as (d & u & _ & Hd & Hu & _ & Hc).
  assert (E : d || truthy u = true).
  { vm_compute in Hd. injection Hd as <-. reflexivity. }
  destruct (Hc E) as (_ & _ & Hh).
  eexists. split; [vm_compute; reflexivity|].
  apply (Hh (Ok tt)). left. vm_compute. reflexivity.
Defined.

Lemma existing_repo_ignores_remote_branch_witness :
  mem "dev" (names (heads ex_repo)) = false
  /\ mem "origin/dev" (names (repo_refs_of ex_repo)) = true
  /\ pe_open ["home"; "certs"] ["home"; "repo"] "dev" (ex_world_existing true)
     = (Ok ["home"; "repo"],
        set_out [source_folder_line ["home"; "certs"];
                 target_repo_line ["home"; "repo"]] (ex_world_existing true)).
Proof.
  split; [reflexivity|]. split; [reflexivity|].
  apply (existing_repo_ignores_remote_branch ["home"; "certs"] ["home"; "repo"] "dev"
           (ex_world_existing true) ex_repo); reflexivity.
Defined.

Lemma refused_push_is_reported_without_rollback_witness :
  origin ex_repo = Some "url"
  /\ pe_publish ["home"; "repo"] "msg" (ex_world_existing false)
     = (Raise (GitCommandError "Authentication failed for 'url'"),
        set_out ["Files staged successfully"; committed_line_existing "msg"]
          (committed ["home"; "repo"] ex_repo "msg" (ex_world_existing false))).
Proof.
  split; [reflexivity|].
  apply (refused_push_is_reported_without_rollback ["home"; "repo"] "msg"
           (ex_world_existing false) ex_repo "url" "Authentication failed for 'url'").
  - reflexivity.
  - reflexivity.
  - reflexivity.
  - intros o. reflexivity.
Defined.

(** * Merging a directory into an existing one *)

Lemma copy2_entry_other dst name ro data ds ds' n :
  copy2_entry dst name ro data ds = Ok ds' -> n <> name -> aget n ds' = aget n ds.
Proof.
  unfold copy2_entry, write_file. intros H Hn.
  destruct (aget name ds) as [[ro1 l1 d1|sub]|] eqn:E.
  - destruct (ro1 || l1); [discriminate|]. injection H as <-.
    apply aget_aset_other. congruence.
  - destruct (aget name sub) as [[ro2 l2 d2|sub2]|]; try discriminate;
      try (destruct (ro2 || l2); [discriminate|]); injection H as <-;
      apply aget_aset_other; congruence.
  - injection H as <-. apply aget_aset_other. congruence.
Qed.

Lemma copy_child_other rec deo dst name child ds n :
  n <> name -> aget n (fst (copy_child rec deo dst name child ds)) = aget n ds.
Proof.
  intros Hn. unfold copy_child. destruct child as [ro l data|ss].
  - destruct (copy2_entry dst name ro data ds) as [ds'|e] eqn:E; simpl; auto.
    eapply copy2_entry_other; eauto.
  - destruct (aget name ds) as [[ro1 l1 d1|sub0]|]; simpl; auto.
    + destruct deo; simpl; auto.
      destruct (rec (dst ++ [name]) (Dir ss) sub0) as [sub errs]. simpl.
      apply aget_aset_other. congruence.
    + destruct (rec (dst ++ [name]) (Dir ss) []) as [sub errs]. simpl.
      apply aget_aset_other. congruence.
Qed.

(** An entry of the destination whose name no source entry bears is left
    as it was, with all it contains. *)
Lemma copy_children_other rec deo dst ss ds n :
  ~ In n (names ss) ->
  aget n (fst (copy_children rec deo dst ss ds)) = aget n ds.
Proof.
  revert ds. induction ss as [|[name child] ss IH]; intros ds Hn; simpl; auto.
  destruct (copy_child rec deo dst name child ds) as [ds1 e1] eqn:E1.
  destruct (copy_children rec deo dst ss ds1) as [ds2 e2] eqn:E2. simpl.
  assert (H1 : aget n ds1 = aget n ds).
  { change ds1 with (fst (ds1, e1)). rewrite <- E1. apply copy_child_other.
    intros ->. apply Hn. now left. }
  rewrite <- H1. change ds2 with (fst (ds2, e2)). rewrite <- E2. apply IH.
  intros Hin. apply Hn. now right.
Qed.

(** A source file replaces the writable file of the same name, provided no
    other source entry bears the name. *)
Lemma copy_children_file rec deo dst ss ds n ro l data old :
  NoDup (names ss) ->
  aget n ss = Some (File ro l data) ->
  aget n ds = Some (File false false old) ->
  aget n (fst (copy_children rec deo dst ss ds)) = Some (File ro false data).
Proof.
  revert ds. induction ss as [|[name child] ss IH]; intros ds Hnd Hs Hd; [discriminate|].
  simpl in Hnd. inversion Hnd as [|? ? Hnotin Hnd']; subst.
  simpl. destruct (copy_child rec deo dst name child ds) as [ds1 e1] eqn:E1.
  destruct (copy_children rec deo dst ss ds1) as [ds2 e2] eqn:E2. simpl.
  change ds2 with (fst (ds2, e2)). rewrite <- E2.
  simpl in Hs. destruct (String.eqb_spec name n) as [->|Hne].
  - injection Hs as ->. rewrite copy_children_other by exact Hnotin.
    unfold copy_child, copy2_entry, write_file in E1. rewrite Hd in E1. simpl in E1.
    injection E1 as <- _. apply aget_aset_same.
  - apply IH; auto. change ds1 with (fst (ds1, e1)). rewrite <- E1.
    rewrite copy_child_other by congruence. exact Hd.
Qed.

Lemma wf_node_dir es : wf_node (Dir es) <-> NoDup (names es) /\ wf_entries es.
Proof.
  simpl. split; intros [H1 H2]; split; auto;
    induction es as [|[k x] es IH]; simpl in *; intuition.
Qed.

Lemma wf_entries_In es k x : wf_entries es -> In (k, x) es -> wf_node x.
Proof.
  induction es as [|[k0 x0] es IH]; simpl; [tauto|].
  intros [H0 Hes] [E|Hin]; [congruence | auto].
Qed.

(** A source directory is merged into the directory of the same name,
    provided no other source entry bears the name. *)
Lemma copy_children_dir rec dst ss ds n ss' ds' :
  NoDup (names ss) ->
  aget n ss = Some (Dir ss') ->
  aget n ds = Some (Dir ds') ->
  aget n (fst (copy_children rec true dst ss ds))
  = Some (Dir (fst (rec (dst ++ [n]) (Dir ss') ds'))).
Proof.
  revert ds. induction ss as [|[name child] ss IH]; intros ds Hnd Hs Hd; [discriminate|].
  simpl in Hnd. inversion Hnd as [|? ? Hnotin Hnd']; subst.
  simpl. destruct (copy_child rec true dst name child ds) as [ds1 e1] eqn:E1.
  destruct (copy_children rec true dst ss ds1) as [ds2 e2] eqn:E2. simpl.
  change ds2 with (fst (ds2, e2)). rewrite <- E2.
  simpl in Hs. destruct (String.eqb_spec name n) as [->|Hne].
  - injection Hs as ->. rewrite copy_children_other by exact Hnotin.
    unfold copy_child in E1. rewrite Hd in E1.
    destruct (rec (dst ++ [n]) (Dir ss') ds') as [sub errs]. injection E1 as <- _.
    apply aget_aset_same.
  - apply IH; auto. change ds1 with (fst (ds1, e1)). rewrite <- E1.
    rewrite copy_child_other by congruence. exact Hd.
Qed.

Lemma copytree_keeps_destination_only (s : node) :
  forall dst ss ds,
    s = Dir ss -> wf_node s ->
    keeps_destination_only ss ds (fst (copytree_node true dst s ds)).
Proof.
  induction s as [ro l d | es IH] using node_induction; intros dst ss ds E Hwf;
    [discriminate|].
  injection E as <-. apply wf_node_dir in Hwf as [Hnd Hwf]. constructor.
  - intros n Hn. simpl. now apply copy_children_other.
  - intros n ss' ds' Hs Hd. eexists. split.
    + simpl. eapply copy_children_dir; eauto.
    + pose proof (aget_In _ _ _ _ Hs) as Hin.
      rewrite Forall_forall in IH. apply (IH _ Hin); [reflexivity|].
      eapply wf_entries_In; eauto.
Qed.

Lemma shutil_copytree_merge_run src dst ss ds w :
  lookup_path (fs w) src = Some (Dir ss) ->
  lookup_path (fs w) dst = Some (Dir ds) ->
  shutil_copytree src dst true w =
  (match snd (copytree_node true dst (Dir ss) ds) with
   | [] => Ok tt
   | e :: errs => Raise (ShutilError (e :: errs))
   end,
   set_fs (repl dst (Dir (fst (copytree_node true dst (Dir ss) ds))) (fs w)) w).
Proof.
  intros Hs Hd. unfold shutil_copytree. rewrite Hs, Hd.
  destruct (copytree_node true dst (Dir ss) ds) as [rs errs].
  rewrite (put_path_exists _ _ _ _ Hd). simpl. destruct errs; reflexivity.
Qed.

Lemma lookup_below_repl n p v x c :
  lookup_path n p = Some x ->
  lookup_path (repl p v n) (p ++ [c]) = lookup_path v [c].
Proof.
  intros H. rewrite lookup_path_app. now rewrite (lookup_repl _ _ v _ H).
Qed.

Lemma cp_copy_item_merge_run lp cp item ss ds w :
  lookup_path (fs w) (lp ++ [item]) = Some (Dir ss) ->
  lookup_path (fs w) (cp ++ [item]) = Some (Dir ds) ->
  fs (snd (cp_copy_item lp cp item w))
  = repl (cp ++ [item])
      (Dir (fst (copytree_node true (cp ++ [item]) (Dir ss) ds))) (fs w).
Proof.
  intros Hs Hd. unfold cp_copy_item, os_path_join, bind, os_path_isdir,
    os_path_exists, is_dir, exists_, print.
  rewrite Hs. simpl fs. rewrite Hd.
  erewrite shutil_copytree_merge_run by (simpl; eauto). reflexivity.
Qed.

Lemma pe_copy_item_merge_run lp cp item ss ds w :
  lookup_path (fs w) (lp ++ [item]) = Some (Dir ss) ->
  lookup_path (fs w) (cp ++ [item]) = Some (Dir ds) ->
  fs (snd (pe_copy_item lp cp item w))
  = repl (cp ++ [item])
      (Dir (fst (copytree_node true (cp ++ [item]) (Dir ss) ds))) (fs w).
Proof.
  intros Hs Hd. unfold pe_copy_item, os_path_join, bind, os_path_isdir,
    os_path_exists, is_dir, exists_, print.
  change (fs (set_out (out w ++ [("Processing: " ++ item)%string]) w)) with (fs w).
  rewrite Hs. cbv beta. change (fs (set_out (out w ++ [("Processing: " ++ item)%string]) w)) with (fs w).
  rewrite Hd.
  erewrite shutil_copytree_merge_run by (simpl; eauto). reflexivity.
Qed.

(** C7.  When an item of the source folder is a directory and a directory
    of the same name is in the checkout, both operations merge: whatever
    the outcome of the copy, an entry of the destination directory whose
    name no entry of the source directory bears is afterwards exactly what
    it was, a writable destination file is replaced by the source file of
    the same name, and the same holds at every depth inside the directories
    both sides have. *)
Theorem merge_keeps_destination_only (lp cp : path) (item : string)
    (ss ds : entries) (w : world) :
  lookup_path (fs w) (lp ++ [item]) = Some (Dir ss) ->
  lookup_path (fs w) (cp ++ [item]) = Some (Dir ds) ->
  let w1 := snd (cp_copy_item lp cp item w) in
  let w2 := snd (pe_copy_item lp cp item w) in
  (forall n,
      ~ In n (names ss) ->
      lookup_path (fs w1) ((cp ++ [item]) ++ [n]) = aget n ds
      /\ lookup_path (fs w2) ((cp ++ [item]) ++ [n]) = aget n ds)
  /\ (forall n ro l data old,
        NoDup (names ss) ->
        aget n ss = Some (File ro l data) ->
        aget n ds = Some (File false false old) ->
        lookup_path (fs w1) ((cp ++ [item]) ++ [n]) = Some (File ro false data)
        /\ lookup_path (fs w2) ((cp ++ [item]) ++ [n]) = Some (File ro false data))
  /\ (wf_node (Dir ss) ->
      exists rs,
        lookup_path (fs w1) (cp ++ [item]) = Some (Dir rs)
        /\ lookup_path (fs w2) (cp ++ [item]) = Some (Dir rs)
        /\ keeps_destination_only ss ds rs).
Proof.
  intros Hs Hd w1 w2. subst w1 w2.
  rewrite (cp_copy_item_merge_run _ _ _ _ _ _ Hs Hd),
    (pe_copy_item_merge_run _ _ _ _ _ _ Hs Hd).
  split; [|split].
  - intros n Hn. rewrite (lookup_below_repl _ _ _ _ _ Hd). simpl.
    rewrite copy_children_other by exact Hn.
    destruct (aget n ds); auto.
  - intros n ro l data old Hnd Hsn Hdn.
    rewrite (lookup_below_repl _ _ _ _ _ Hd). simpl.
    erewrite copy_children_file by eauto. auto.
  - intros Hwf. eexists. rewrite (lookup_repl _ _ _ _ Hd).
    split; [reflexivity|]. split; [reflexivity|].
    now apply copytree_keeps_destination_only.
Qed.

Lemma merge_keeps_destination_only_witness :
  lookup_path (fs (ex_world_existing true)) ["home"; "repo"; "sub"; "old.pdf"]
  = Some (File false false "O")
  /\ lookup_path
       (fs (snd (pe_copy_item ["home"; "certs"] ["home"; "repo"] "sub"
                   (ex_world_existing true))))
       ["home"; "repo"; "sub"; "old.pdf"]
     = Some (File false false "O").
Proof.
  split; [reflexivity|].
  apply (proj1 (merge_keeps_destination_only ["home"; "certs"] ["home"; "repo"] "sub"
                  [("b.pdf", File false false "B")]
                  [("old.pdf", File false false "O")]
                  (ex_world_existing true) eq_refl eq_refl) "old.pdf").
  simpl. intros [H|[]]. discriminate.
Defined.

(** * Writing below a directory *)

Lemma repl_child n p es c v x :
  lookup_path n p = Some (Dir es) -> aget c es = Some x ->
  repl (p ++ [c]) v n = repl p (Dir (aset c v es)) n.
Proof.
  revert n. induction p as [|a p IH]; intros n; simpl.
  - intros H Hc. injection H as ->. now rewrite Hc.
  - destruct n as [|es0]; [discriminate|].
    destruct (aget a es0) as [y|]; [|discriminate].
    intros H Hc. now rewrite (IH _ H Hc).
Qed.

Lemma put_path_child n p es c v :
  lookup_path n p = Some (Dir es) ->
  put_path (p ++ [c]) v n = Some (repl p (Dir (aset c v es)) n).
Proof.
  revert n. induction p as [|a p IH]; intros n; simpl.
  - intros H. injection H as ->. reflexivity.
  - destruct n as [|es0]; [discriminate|].
    destruct (aget a es0) as [y|]; [|discriminate].
    intros H. now rewrite (IH _ H).
Qed.

Lemma repl_repl n p v u x :
  lookup_path n p = Some x -> repl p v (repl p u n) = repl p v n.
Proof.
  revert n. induction p as [|a p IH]; intros n; simpl; auto.
  destruct n as [|es0]; [discriminate|].
  destruct (aget a es0) as [y|] eqn:E; [|discriminate].
  intros H. simpl. rewrite aget_aset_same, aset_aset. now rewrite (IH _ H).
Qed.

Lemma put_path_grandchild n p es c sub c2 v :
  lookup_path n p = Some (Dir es) -> aget c es = Some (Dir sub) ->
  put_path ((p ++ [c]) ++ [c2]) v n
  = Some (repl p (Dir (aset c (Dir (aset c2 v sub)) es)) n).
Proof.
  intros H Hc.
  assert (Hpc : lookup_path n (p ++ [c]) = Some (Dir sub)).
  { rewrite lookup_path_app, H. simpl. now rewrite Hc. }
  rewrite (put_path_child _ _ _ _ _ Hpc). f_equal.
  now apply repl_child with (x := Dir sub).
Qed.


Lemma diverge_app_l p q r : diverge p q = true -> diverge (p ++ r) q = true.
Proof.
  revert q. induction p as [|a p IH]; intros [|b q]; simpl; try discriminate.
  destruct (String.eqb a b); auto.
Qed.



Lemma lookup_repl_diverge n p q v :
  diverge p q = true -> lookup_path (repl p v n) q = lookup_path n q.
Proof.
  revert n q. induction p as [|a p IH]; intros n [|b q]; simpl; try discriminate.
  destruct n as [|es]; auto.
  destruct (aget a es) as [y|] eqn:E; auto.
  destruct (String.eqb_spec a b) as [->|Hab]; intros H; simpl.
  - rewrite aget_aset_same, E. now apply IH.
  - now rewrite aget_aset_other by exact Hab.
Qed.

Lemma aset_same (A : Type) (l : list (string * A)) k v :
  aget k l = Some v -> aset k v l = l.
Proof.
  induction l as [|[k0 v0] l IH]; simpl; [discriminate|].
  destruct (String.eqb_spec k0 k) as [->|Hk]; intros H.
  - congruence.
  - f_equal. auto.
Qed.

Lemma repl_same n p x : lookup_path n p = Some x -> repl p x n = n.
Proof.
  revert n. induction p as [|a p IH]; intros n; simpl.
  - congruence.
  - destruct n as [|es]; [discriminate|].
    destruct (aget a es) as [y|] eqn:E; [|discriminate].
    intros H. rewrite (IH _ H). f_equal. now apply aset_same.
Qed.

Lemma parent_app p c : parent (p ++ [c]) = p.
Proof. apply removelast_last. Qed.

Lemma basename_app p c : basename (p ++ [c]) = c.
Proof. apply last_last. Qed.

Lemma lookup_child n p es c :
  lookup_path n p = Some (Dir es) -> lookup_path n (p ++ [c]) = aget c es.
Proof.
  intros H. rewrite lookup_path_app, H. simpl. destruct (aget c es); auto.
Qed.

(** * The copying loops, seen from the checkout root *)

Lemma shutil_copytree_ok lp cp item deo w w' ds ss0 :
  lookup_path (fs w) cp = Some (Dir ds) ->
  lookup_path (fs w) (lp ++ [item]) = Some (Dir ss0) ->
  deo = exists_ (fs w) (cp ++ [item]) ->
  shutil_copytree (lp ++ [item]) (cp ++ [item]) deo w = (Ok tt, w') ->
  exists ds1,
    merge_item cp item (Dir ss0) ds = Some ds1
    /\ w' = set_fs (repl cp (Dir ds1) (fs w)) w.
Proof.
  intros Hc Hs ->. unfold shutil_copytree, exists_. rewrite Hs.
  rewrite (lookup_child _ _ _ item Hc). unfold merge_item.
  destruct (aget item ds) as [[ro1 l1 d1|sub0]|] eqn:E; [discriminate| |].
  - destruct (copytree_node true (cp ++ [item]) (Dir ss0) sub0) as [sub errs].
    rewrite (put_path_child _ _ _ _ _ Hc). destruct errs; [|discriminate].
    intros H. injection H as <-. eauto.
  - destruct (copytree_node false (cp ++ [item]) (Dir ss0) []) as [sub errs].
    rewrite (put_path_child _ _ _ _ _ Hc). destruct errs; [|discriminate].
    intros H. injection H as <-. eauto.
Qed.

Lemma shutil_copy2_ok lp cp item w w' ds ro l data :
  lookup_path (fs w) cp = Some (Dir ds) ->
  lookup_path (fs w) (lp ++ [item]) = Some (File ro l data) ->
  shutil_copy2 (lp ++ [item]) (cp ++ [item]) w = (Ok tt, w') ->
  exists ds1,
    merge_item cp item (File ro l data) ds = Some ds1
    /\ w' = set_fs (repl cp (Dir ds1) (fs w)) w.
Proof.
  intros Hc Hs. unfold shutil_copy2, is_dir. rewrite basename_app.
  rewrite (lookup_child _ _ _ item Hc). unfold merge_item, copy2_entry.
  destruct (aget item ds) as [[ro1 l1 d1|sub]|] eqn:E.
  - destruct (path_eqb _ _); [discriminate|]. rewrite Hs.
    rewrite (lookup_child _ _ _ item Hc), E. unfold write_file. rewrite E.
    destruct (ro1 || l1); [discriminate|].
    rewrite (put_path_child _ _ _ _ _ Hc). intros H. injection H as <-. eauto.
  - destruct (path_eqb _ _); [discriminate|]. rewrite Hs.
    assert (Hsub : lookup_path (fs w) (cp ++ [item]) = Some (Dir sub))
      by (now rewrite (lookup_child _ _ _ item Hc)).
    rewrite (lookup_child _ _ _ item Hsub). unfold write_file.
    rewrite parent_app, Hsub.
    rewrite (put_path_grandchild _ _ _ _ _ _ _ Hc E).
    destruct (aget item sub) as [[ro2 l2 d2|sub2]|]; [|discriminate|].
    + destruct (ro2 || l2); [discriminate|]. intros H. injection H as <-. eauto.
    + intros H. injection H as <-. eauto.
  - destruct (path_eqb _ _); [discriminate|]. rewrite Hs.
    rewrite (lookup_child _ _ _ item Hc), E. unfold write_file. rewrite E.
    rewrite parent_app, Hc. rewrite (put_path_child _ _ _ _ _ Hc).
    intros H. injection H as <-. eauto.
Qed.

Lemma cp_copy_item_ok lp cp item w w' ss ds :
  lookup_path (fs w) lp = Some (Dir ss) ->
  lookup_path (fs w) cp = Some (Dir ds) ->
  cp_copy_item lp cp item w = (Ok tt, w') ->
  exists child ds1,
    aget item ss = Some child
    /\ merge_item cp item child ds = Some ds1
    /\ fs w' = repl cp (Dir ds1) (fs w).
Proof.
  intros Hl Hc. unfold cp_copy_item, os_path_join, bind, os_path_isdir,
    os_path_exists, is_dir, print.
  rewrite (lookup_child _ _ _ item Hl).
  destruct (aget item ss) as [[ro l data|ss0]|] eqn:Es.
  - intros H. eapply shutil_copy2_ok in H;
      [|exact Hc|simpl; rewrite (lookup_child _ _ _ item Hl); exact Es].
    destruct H as (ds1 & Hm & ->). eauto.
  - intros H. destruct (exists_ (fs w) (cp ++ [item])) eqn:Ex;
      (eapply shutil_copytree_ok in H;
       [|exact Hc|simpl; rewrite (lookup_child _ _ _ item Hl); exact Es
        |simpl; now rewrite Ex]);
      destruct H as (ds1 & Hm & ->); eauto.
  - unfold shutil_copy2. simpl fs. rewrite (lookup_child _ _ _ item Hl), Es.
    destruct (path_eqb _ _); discriminate.
Qed.

Lemma pe_copy_item_ok lp cp item w w' ss ds :
  lookup_path (fs w) lp = Some (Dir ss) ->
  lookup_path (fs w) cp = Some (Dir ds) ->
  pe_copy_item lp cp item w = (Ok tt, w') ->
  exists child ds1,
    aget item ss = Some child
    /\ merge_item cp item child ds = Some ds1
    /\ fs w' = repl cp (Dir ds1) (fs w).
Proof.
  intros Hl Hc. unfold pe_copy_item, os_path_join, bind, os_path_isdir,
    os_path_exists, is_dir, print.
  set (w0 := set_out (out w ++ [("Processing: " ++ item)%string]) w).
  change (fs w0) with (fs w). rewrite (lookup_child _ _ _ item Hl).
  destruct (aget item ss) as [[ro l data|ss0]|] eqn:Es.
  - intros H. eapply shutil_copy2_ok in H;
      [|exact Hc|simpl; rewrite (lookup_child _ _ _ item Hl); exact Es].
    destruct H as (ds1 & Hm & ->). eauto.
  - cbv beta. change (fs w0) with (fs w). intros H.
    destruct (exists_ (fs w) (cp ++ [item])) eqn:Ex;
      (eapply shutil_copytree_ok in H;
       [|exact Hc|simpl; rewrite (lookup_child _ _ _ item Hl); exact Es
        |simpl; now rewrite Ex]);
      destruct H as (ds1 & Hm & ->); eauto.
  - unfold shutil_copy2. change (fs w0) with (fs w).
    rewrite (lookup_child _ _ _ item Hl), Es.
    destruct (path_eqb _ _); discriminate.
Qed.

Section CopyLoop.
Variable copy_item : path -> path -> string -> M unit.
Hypothesis copy_item_ok :
  forall lp cp item w w' ss ds,
    lookup_path (fs w) lp = Some (Dir ss) ->
    lookup_path (fs w) cp = Some (Dir ds) ->
    copy_item lp cp item w = (Ok tt, w') ->
    exists child ds1,
      aget item ss = Some child
      /\ merge_item cp item child ds = Some ds1
      /\ fs w' = repl cp (Dir ds1) (fs w).

Lemma copy_loop_ok lp cp ss items :
  diverge cp lp = true ->
  forall w w' ds,
    lookup_path (fs w) lp = Some (Dir ss) ->
    lookup_path (fs w) cp = Some (Dir ds) ->
    for_each items (copy_item lp cp) w = (Ok tt, w') ->
    exists rs,
      merge_names cp ss items ds = Some rs
      /\ fs w' = repl cp (Dir rs) (fs w).
Proof.
  intros Hdiv. induction items as [|item items IH]; intros w w' ds Hl Hc; simpl.
  - intros H. injection H as <-. exists ds. split; [reflexivity|].
    symmetry. now apply repl_same.
  - intros H. apply bind_ok in H as ([] & w1 & H1 & H2).
    destruct (copy_item_ok _ _ _ _ _ _ _ Hl Hc H1) as (child & ds1 & Ha & Hm & Hf).
    rewrite Ha, Hm.
    assert (Hc1 : lookup_path (fs w1) cp = Some (Dir ds1))
      by (rewrite Hf; eapply lookup_repl; eauto).
    assert (Hl1 : lookup_path (fs w1) lp = Some (Dir ss))
      by (rewrite Hf, lookup_repl_diverge; auto).
    destruct (IH _ _ _ Hl1 Hc1 H2) as (rs & Hr & Hf').
    exists rs. split; [exact Hr|]. rewrite Hf', Hf.
    eapply repl_repl; eauto.
Qed.
End CopyLoop.

(** * What a copy that returned has put in the checkout *)

Lemma holds_dir ss name rs :
  holds (Dir ss) name rs <->
  exists sub, aget name rs = Some (Dir sub) /\ holds_all ss sub.
Proof.
  simpl. split; intros (sub & H & Ha); exists sub; split; auto;
    induction ss as [|[k x] ss IH]; simpl in *; intuition.
Qed.

Lemma holds_ext s name rs rs' :
  aget name rs' = aget name rs -> holds s name rs -> holds s name rs'.
Proof. destruct s; simpl; intros ->; auto. Qed.

Lemma copy2_entry_holds dst name ro l data ds ds' :
  copy2_entry dst name ro data ds = Ok ds' -> holds (File ro l data) name ds'.
Proof.
  unfold copy2_entry, write_file. simpl.
  destruct (aget name ds) as [[ro1 l1 d1|sub]|] eqn:E.
  - destruct (ro1 || l1); [discriminate|]. intros H. injection H as <-.
    left. apply aget_aset_same.
  - destruct (aget name sub) as [[ro2 l2 d2|sub2]|]; try discriminate;
      try (destruct (ro2 || l2); [discriminate|]); intros H; injection H as <-;
      right; eexists; rewrite !aget_aset_same; split; reflexivity.
  - intros H. injection H as <-. left. apply aget_aset_same.
Qed.

Lemma copy_children_holds rec deo dst ss :
  Forall (fun kx => forall dst' ds' rs',
            rec dst' (snd kx) ds' = (rs', []) ->
            match snd kx with
            | Dir ss' => holds_all ss' rs'
            | File _ _ _ => True
            end) ss ->
  NoDup (names ss) ->
  forall ds rs,
    copy_children rec deo dst ss ds = (rs, []) -> holds_all ss rs.
Proof.
  induction 1 as [|[name child] ss Hx Hss IH]; intros Hnd ds rs; simpl; auto.
  inversion Hnd as [|? ? Hnotin Hnd']; subst.
  destruct (copy_child rec deo dst name child ds) as [ds1 e1] eqn:E1.
  destruct (copy_children rec deo dst ss ds1) as [ds2 e2] eqn:E2.
  intros H. injection H as -> He. apply app_eq_nil in He as [-> ->].
  split; [|eapply IH; eauto].
  apply holds_ext with (rs := ds1).
  { change rs with (fst (rs, @nil string)). rewrite <- E2.
    now apply copy_children_other. }
  unfold copy_child in E1. destruct child as [ro l data|ss'].
  - destruct (copy2_entry dst name ro data ds) as [ds'|e] eqn:Ec; [|discriminate].
    injection E1 as <-. eapply copy2_entry_holds; eauto.
  - simpl in Hx. apply holds_dir.
    destruct (aget name ds) as [[ro1 l1 d1|sub0]|]; [discriminate| |].
    + destruct deo; [|discriminate].
      destruct (rec (dst ++ [name]) (Dir ss') sub0) as [sub errs] eqn:Er.
      injection E1 as <- ->. exists sub. rewrite aget_aset_same. eauto.
    + destruct (rec (dst ++ [name]) (Dir ss') []) as [sub errs] eqn:Er.
      injection E1 as <- ->. exists sub. rewrite aget_aset_same. eauto.
Qed.

Lemma copytree_node_holds deo (s : node) :
  wf_node s ->
  forall dst ds rs,
    copytree_node deo dst s ds = (rs, []) ->
    match s with
    | Dir ss => holds_all ss rs
    | File _ _ _ => True
    end.
Proof.
  induction s as [ro l d | es IH] using node_induction; intros Hwf dst ds rs; auto.
  apply wf_node_dir in Hwf as [Hnd Hwf]. simpl.
  apply copy_children_holds; auto.
  rewrite Forall_forall in *. intros [k x] Hin dst' ds' rs'. simpl.
  apply (IH _ Hin). eapply wf_entries_In; eauto.
Qed.

Lemma merge_item_other cp name child ds ds' n :
  merge_item cp name child ds = Some ds' -> n <> name -> aget n ds' = aget n ds.
Proof.
  unfold merge_item. intros H Hn. destruct child as [ro l data|ss].
  - destruct (copy2_entry cp name ro data ds) as [ds1|e] eqn:E; [|discriminate].
    injection H as <-. eapply copy2_entry_other; eauto.
  - destruct (aget name ds) as [[ro1 l1 d1|sub0]|]; [discriminate| |].
    + destruct (copytree_node true (cp ++ [name]) (Dir ss) sub0) as [sub [|e errs]];
        [|discriminate].
      injection H as <-. apply aget_aset_other. congruence.
    + destruct (copytree_node false (cp ++ [name]) (Dir ss) []) as [sub [|e errs]];
        [|discriminate].
      injection H as <-. apply aget_aset_other. congruence.
Qed.

Lemma merge_names_other cp ss items ds rs n :
  merge_names cp ss items ds = Some rs -> ~ In n items -> aget n rs = aget n ds.
Proof.
  revert ds. induction items as [|item items IH]; intros ds; simpl.
  - intros H _. now injection H as <-.
  - destruct (aget item ss) as [child|]; [|discriminate].
    destruct (merge_item cp item child ds) as [ds1|] eqn:E; [|discriminate].
    intros H Hn. rewrite (IH _ H) by tauto.
    eapply merge_item_other; eauto.
Qed.

Lemma merge_item_holds cp name child ds ds' :
  wf_node child -> merge_item cp name child ds = Some ds' -> holds child name ds'.
Proof.
  unfold merge_item. intros Hwf H. destruct child as [ro l data|ss].
  - destruct (copy2_entry cp name ro data ds) as [ds1|e] eqn:E; [|discriminate].
    injection H as <-. eapply copy2_entry_holds; eauto.
  - apply holds_dir. destruct (aget name ds) as [[ro1 l1 d1|sub0]|]; [discriminate| |].
    + destruct (copytree_node true (cp ++ [name]) (Dir ss) sub0) as [sub [|e errs]] eqn:Ec;
        [|discriminate].
      injection H as <-. exists sub. rewrite aget_aset_same. split; [reflexivity|].
      exact (copytree_node_holds true (Dir ss) Hwf _ _ _ Ec).
    + destruct (copytree_node false (cp ++ [name]) (Dir ss) []) as [sub [|e errs]] eqn:Ec;
        [|discriminate].
      injection H as <-. exists sub. rewrite aget_aset_same. split; [reflexivity|].
      exact (copytree_node_holds false (Dir ss) Hwf _ _ _ Ec).
Qed.

Lemma In_aget_NoDup (A : Type) (l : list (string * A)) k v :
  NoDup (names l) -> In (k, v) l -> aget k l = Some v.
Proof.
  induction l as [|[k0 v0] l IH]; simpl; [tauto|].
  intros Hnd [E|Hin]; inversion Hnd as [|? ? Hnotin Hnd']; subst.
  - injection E as -> ->. now rewrite String.eqb_refl.
  - destruct (String.eqb_spec k0 k) as [->|Hk]; auto.
    exfalso. apply Hnotin. change k with (fst (k, v)). now apply in_map.
Qed.

Lemma merge_names_holds cp ss tail :
  (forall k x, In (k, x) tail -> aget k ss = Some x) ->
  NoDup (names tail) -> wf_entries tail ->
  forall ds rs,
    merge_names cp ss (names tail) ds = Some rs -> holds_all tail rs.
Proof.
  induction tail as [|[k x] tail IH]; intros Hin Hnd Hwf ds rs; simpl; auto.
  inversion Hnd as [|? ? Hnotin Hnd']; subst. destruct Hwf as [Hx Hwf].
  rewrite (Hin k x) by now left.
  destruct (merge_item cp k x ds) as [ds1|] eqn:E; [|discriminate].
  intros H. split.
  - apply holds_ext with (rs := ds1).
    + eapply merge_names_other; eauto.
    + eapply merge_item_holds; eauto.
  - eapply IH; eauto. intros k' x' H'. apply Hin. now right.
Qed.

Lemma cp_copy_ok lp cp ss ds w w' :
  diverge cp lp = true ->
  lookup_path (fs w) lp = Some (Dir ss) ->
  lookup_path (fs w) cp = Some (Dir ds) ->
  cp_copy lp cp w = (Ok tt, w') ->
  exists rs,
    merge_names cp ss (names ss) ds = Some rs
    /\ fs w' = repl cp (Dir rs) (fs w).
Proof.
  intros Hdiv Hl Hc. unfold cp_copy. unfold bind at 1, print at 1.
  unfold bind at 1, os_listdir at 1. simpl fs. rewrite Hl.
  intros H. apply bind_ok in H as ([] & w2 & Hloop & Hp).
  injection Hp as <-.
  eapply (copy_loop_ok _ cp_copy_item_ok) in Hloop; eauto.
Qed.

Lemma pe_copy_ok lp cp ss ds w w' :
  diverge cp lp = true ->
  lookup_path (fs w) lp = Some (Dir ss) ->
  lookup_path (fs w) cp = Some (Dir ds) ->
  pe_copy lp cp w = (Ok tt, w') ->
  exists rs,
    merge_names cp ss (names ss) ds = Some rs
    /\ fs w' = repl cp (Dir rs) (fs w).
Proof.
  intros Hdiv Hl Hc. unfold pe_copy. unfold bind at 1, os_listdir at 1. rewrite Hl.
  intros Hloop.
  eapply (copy_loop_ok _ pe_copy_item_ok) in Hloop; eauto.
Qed.

(** * Publishing does not touch the files *)

Lemma fs_kept_refl w : fs_kept w w.
Proof. reflexivity. Qed.

Lemma fs_kept_trans w1 w2 w3 : fs_kept w1 w2 -> fs_kept w2 w3 -> fs_kept w1 w3.
Proof. unfold fs_kept. congruence. Qed.

Create HintDb fskept.
#[local] Hint Resolve fs_kept_refl : fskept.
#[local] Hint Extern 1 (fs_kept _ _) => reflexivity : fskept.

Ltac prim_fs_kept :=
  respects_steps fs_kept_refl fs_kept_trans;
  auto with fskept;
  try (leaf_run; simpl; auto with fskept).

Lemma print_fs_kept s : respects fs_kept (print s).
Proof. unfold print. prim_fs_kept. Qed.
Lemma get_repo_fs_kept p : respects fs_kept (get_repo p).
Proof. unfold get_repo. prim_fs_kept. Qed.
Lemma put_repo_fs_kept p r : respects fs_kept (put_repo p r).
Proof. unfold put_repo. prim_fs_kept. Qed.
#[local] Hint Resolve print_fs_kept get_repo_fs_kept put_repo_fs_kept : fskept.
Lemma git_add_all_fs_kept p : respects fs_kept (git_add_all p).
Proof. unfold git_add_all. prim_fs_kept. Qed.
Lemma repo_is_dirty_fs_kept p : respects fs_kept (repo_is_dirty p).
Proof. unfold repo_is_dirty. prim_fs_kept. Qed.
Lemma repo_untracked_files_fs_kept p : respects fs_kept (repo_untracked_files p).
Proof. unfold repo_untracked_files. prim_fs_kept. Qed.
Lemma index_commit_fs_kept p m : respects fs_kept (index_commit p m).
Proof. unfold index_commit. prim_fs_kept. Qed.
Lemma repo_remote_origin_fs_kept p : respects fs_kept (repo_remote_origin p).
Proof. unfold repo_remote_origin. prim_fs_kept. Qed.
Lemma remote_push_fs_kept p u : respects fs_kept (remote_push p u).
Proof. unfold remote_push. prim_fs_kept. Qed.
#[local] Hint Resolve git_add_all_fs_kept repo_is_dirty_fs_kept
  repo_untracked_files_fs_kept index_commit_fs_kept repo_remote_origin_fs_kept
  remote_push_fs_kept : fskept.


Lemma cp_publish_fs_kept p m : respects fs_kept (cp_publish p m).
Proof. unfold cp_publish, cp_push. prim_fs_kept. Qed.




(** * What a commit records: lemmas *)

Lemma clear_dir es : clear (Dir es) = Dir (clear_entries es).
Proof. reflexivity. Qed.

Lemma prune_dir es : prune (Dir es) = Dir (prune_entries es).
Proof. reflexivity. Qed.

Lemma norm_dir es : norm (Dir es) = Dir (norm_entries es).
Proof. reflexivity. Qed.

Lemma has_file_dir_cons k x es :
  has_file (Dir ((k, x) :: es)) = has_file x || has_file (Dir es).
Proof. reflexivity. Qed.

Lemma has_file_clear x : has_file (clear x) = has_file x.
Proof.
  induction x as [ro l d | es IH] using node_induction; auto.
  rewrite clear_dir. induction IH as [|[k x] es Hx _ IHes]; auto.
  simpl clear_entries. rewrite !has_file_dir_cons. simpl in Hx.
  now rewrite Hx, IHes.
Qed.

Lemma has_file_prune x : has_file (prune x) = has_file x.
Proof.
  induction x as [ro l d | es IH] using node_induction; auto.
  rewrite prune_dir. induction IH as [|[k x] es Hx _ IHes]; auto.
  simpl prune_entries. rewrite has_file_dir_cons. simpl in Hx.
  destruct (has_file x) eqn:E.
  - rewrite has_file_dir_cons, Hx. reflexivity.
  - exact IHes.
Qed.

Lemma has_file_norm x : has_file (norm x) = has_file x.
Proof. unfold norm. now rewrite has_file_prune, has_file_clear. Qed.

Lemma norm_entries_cons k x es :
  norm_entries ((k, x) :: es)
  = if has_file x then (k, norm x) :: norm_entries es else norm_entries es.
Proof.
  unfold norm_entries. simpl. rewrite has_file_clear. reflexivity.
Qed.

Lemma normal_dir es : normal (Dir es) <-> normal_entries es.
Proof.
  simpl. induction es as [|[k x] es IH]; simpl; tauto.
Qed.

Lemma normal_norm x : normal (norm x).
Proof.
  induction x as [ro l d | es IH] using node_induction.
  - simpl. auto.
  - rewrite norm_dir. apply normal_dir.
    induction IH as [|[k x] es Hx _ IHes]; simpl; auto.
    rewrite norm_entries_cons. destruct (has_file x) eqn:E; auto.
    simpl. rewrite has_file_norm. auto.
Qed.

Lemma normal_norm_entries es : normal_entries (norm_entries es).
Proof. apply (proj1 (normal_dir _)). exact (normal_norm (Dir es)). Qed.

Lemma norm_normal x : normal x -> norm x = x.
Proof.
  induction x as [ro l d | es IH] using node_induction.
  - simpl. intros [-> ->]. reflexivity.
  - rewrite normal_dir, norm_dir. intros Hn. f_equal.
    induction IH as [|[k x] es Hx _ IHes]; auto.
    simpl in Hn. destruct Hn as [[Hf Hx'] Hes].
    rewrite norm_entries_cons, Hf. simpl in Hx. now rewrite (Hx Hx'), (IHes Hes).
Qed.

Lemma norm_entries_normal es : normal_entries es -> norm_entries es = es.
Proof.
  intros H. apply (proj2 (normal_dir _)), norm_normal in H.
  rewrite norm_dir in H. congruence.
Qed.

Lemma norm_entries_idem es : norm_entries (norm_entries es) = norm_entries es.
Proof. apply norm_entries_normal, normal_norm_entries. Qed.

Lemma norm_has_file v x : norm v = norm x -> has_file v = has_file x.
Proof. intros H. rewrite <- (has_file_norm v), <- (has_file_norm x). now rewrite H. Qed.








Lemma norm_entries_has_file es es' :
  norm_entries es = norm_entries es' -> has_file (Dir es) = has_file (Dir es').
Proof.
  intros H. apply norm_has_file. rewrite !norm_dir. now rewrite H.
Qed.






(** * Copying again what is already there *)








(** * The [.git] directory and the recorded tree *)

#[local] Arguments String.eqb : simpl never.

Lemma tracked_norm ds : tracked ds = norm_entries (strip_git ds).
Proof. reflexivity. Qed.




Lemma strip_git_idem ds : strip_git (strip_git ds) = strip_git ds.
Proof.
  induction ds as [|[k0 x0] ds IH]; simpl; auto.
  destruct (String.eqb k0 ".git") eqn:E; simpl; auto.
  now rewrite E, IH.
Qed.

Lemma strip_git_norm_entries ds :
  strip_git (norm_entries ds) = norm_entries (strip_git ds).
Proof.
  induction ds as [|[k0 x0] ds IH]; auto.
  rewrite norm_entries_cons. simpl strip_git at 2.
  destruct (String.eqb k0 ".git") eqn:E; simpl negb; cbv iota.
  - destruct (has_file x0); auto. simpl. now rewrite E.
  - rewrite norm_entries_cons. destruct (has_file x0); auto.
    simpl. rewrite E. simpl. now rewrite IH.
Qed.

Lemma tracked_idem ds : tracked (tracked ds) = tracked ds.
Proof.
  rewrite !tracked_norm, strip_git_norm_entries, strip_git_idem.
  apply norm_entries_idem.
Qed.

Lemma tracked_dotgit ds : tracked (dotgit :: ds) = tracked ds.
Proof. reflexivity. Qed.



Lemma strip_git_tracked ds : strip_git (tracked ds) = tracked ds.
Proof.
  rewrite tracked_norm, strip_git_norm_entries. now rewrite strip_git_idem.
Qed.

Lemma git_entries_strip ds : git_entries (strip_git ds) = [].
Proof.
  induction ds as [|[k0 x0] ds IH]; simpl; auto.
  destruct (String.eqb k0 ".git") eqn:E; simpl; auto. now rewrite E.
Qed.

Lemma git_entries_tracked ds : git_entries (tracked ds) = [].
Proof. rewrite <- strip_git_tracked. apply git_entries_strip. Qed.



(** * Changes stay below the path they are made at *)

Lemma lookup_put_diverge p q v n n' :
  diverge p q = true -> put_path p v n = Some n' ->
  lookup_path n' q = lookup_path n q.
Proof.
  revert q n n'. induction p as [|a p IH]; intros [|b q] n n'; simpl; try discriminate.
  destruct n as [|es]; [discriminate|].
  destruct (put_path p v _) as [x'|] eqn:Ep; [|discriminate].
  intros Hd H. injection H as <-. simpl.
  destruct (String.eqb_spec a b) as [->|Hab].
  - rewrite aget_aset_same. rewrite (IH _ _ _ Hd Ep).
    destruct (aget b es); auto.
    destruct q; [destruct p; discriminate | reflexivity].
  - now rewrite aget_aset_other.
Qed.

Lemma lookup_del_diverge p q n :
  diverge p q = true -> lookup_path (del_path p n) q = lookup_path n q.
Proof.
  revert q n. induction p as [|a p IH]; intros [|b q] n; simpl; try discriminate.
  destruct n as [|es]; auto.
  destruct (String.eqb_spec a b) as [->|Hab]; intros Hd.
  - destruct p as [|a' p]; [destruct q; discriminate|].
    destruct (aget b es) as [x|] eqn:E; [|simpl; now rewrite E].
    simpl. rewrite aget_aset_same. now apply IH.
  - destruct p as [|a' p].
    + simpl. now rewrite aget_adel_other.
    + destruct (aget a es) as [x|] eqn:E; [|reflexivity].
      remember (a' :: p) as p'. simpl. now rewrite aget_aset_other.
Qed.

Lemma os_rmdir_effect p w r w' :
  os_rmdir p w = (r, w') -> w' = w \/ w' = set_fs (del_path p (fs w)) w.
Proof.
  unfold os_rmdir.
  destruct (lookup_path (fs w) p) as [[ro l d|[|e es]]|];
    try (intros H; injection H as <- <-; now left).
  assert (G : forall w0, w0 = set_fs (del_path p (fs w)) w ->
                         w0 = w \/ w0 = set_fs (del_path p (fs w)) w) by auto.
  destruct p as [|a p']; intros H; injection H as <- <-; [now left|].
  now apply G.
Qed.

Lemma outside_kept_refl cp w : outside_kept cp w w.
Proof. intros q _. reflexivity. Qed.

Lemma outside_kept_trans cp w1 w2 w3 :
  outside_kept cp w1 w2 -> outside_kept cp w2 w3 -> outside_kept cp w1 w3.
Proof. intros H1 H2 q Hq. now rewrite (H2 q Hq), (H1 q Hq). Qed.

Lemma outside_kept_same_fs cp w w' : fs w' = fs w -> outside_kept cp w w'.
Proof. intros E q _. now rewrite E. Qed.

Section Outside.
Variable cp : path.

Lemma os_unlink_outside x : respects (outside_kept cp) (os_unlink (cp ++ x)).
Proof.
  intros w r w' H. unfold os_unlink in H. break_run H;
    try apply outside_kept_refl.
  intros q Hq. simpl. apply lookup_del_diverge. now apply diverge_app_l.
Qed.

Lemma os_rmdir_outside x : respects (outside_kept cp) (os_rmdir (cp ++ x)).
Proof.
  intros w r w' H. destruct (os_rmdir_effect _ _ _ _ H) as [->| ->].
  - apply outside_kept_refl.
  - intros q Hq. apply lookup_del_diverge. now apply diverge_app_l.
Qed.

Lemma os_scandir_outside p : respects (outside_kept cp) (os_scandir p).
Proof.
  intros w r w' H. unfold os_scandir in H. break_run H; apply outside_kept_refl.
Qed.

Lemma os_chmod_outside x : respects (outside_kept cp) (os_chmod_S_IWRITE (cp ++ x)).
Proof.
  intros w r w' H. unfold os_chmod_S_IWRITE in H. break_run H;
    try apply outside_kept_refl.
  intros q Hq. simpl. eapply lookup_put_diverge; [|eassumption].
  now apply diverge_app_l.
Qed.

Lemma call_func_outside f x : respects (outside_kept cp) (call_func f (cp ++ x)).
Proof.
  destruct f; simpl; auto using os_unlink_outside, os_rmdir_outside, os_scandir_outside.
Qed.

Lemma handler_outside f x e :
  respects (outside_kept cp) (handle_remove_readonly f (cp ++ x) e).
Proof.
  unfold handle_remove_readonly.
  apply (respects_bind _ (outside_kept_trans cp)).
  - intros w r w' H. unfold os_path_exists in H. injection H as <- <-.
    apply outside_kept_refl.
  - intros [|]; [|apply (respects_ret _ (outside_kept_refl cp))].
    apply (respects_bind _ (outside_kept_trans cp));
      [apply os_chmod_outside | intros _; apply call_func_outside].
Qed.

Lemma guarded_outside f x :
  respects (outside_kept cp) (guarded handle_remove_readonly f (cp ++ x)).
Proof.
  unfold guarded. apply (respects_try_except _ (outside_kept_trans cp)).
  - apply call_func_outside.
  - intros e. apply handler_outside.
Qed.

Lemma rm_children_outside (rec : node -> path -> M unit) es :
  Forall (fun kx => forall x, respects (outside_kept cp) (rec (snd kx) (cp ++ x))) es ->
  forall x,
    respects (outside_kept cp) (rm_children rec handle_remove_readonly es (cp ++ x)).
Proof.
  induction 1 as [|[k n] es Hn _ IH]; intros x; simpl.
  - apply (respects_ret _ (outside_kept_refl cp)).
  - apply (respects_bind _ (outside_kept_trans cp)); [|intros _; apply IH].
    rewrite <- app_assoc. destruct n; [apply guarded_outside | apply Hn].
Qed.

Lemma rmtree_unsafe_outside n :
  forall x, respects (outside_kept cp) (rmtree_unsafe handle_remove_readonly n (cp ++ x)).
Proof.
  induction n as [ro l d | es IH] using node_induction; intros x; simpl.
  - apply (respects_bind _ (outside_kept_trans cp));
      [apply handler_outside | intros _; apply guarded_outside].
  - apply (respects_bind _ (outside_kept_trans cp));
      [apply rm_children_outside; exact IH | intros _; apply guarded_outside].
Qed.

Lemma shutil_rmtree_below_outside x :
  respects (outside_kept cp) (shutil_rmtree (cp ++ x) handle_remove_readonly).
Proof.
  intros w r w'. unfold shutil_rmtree.
  destruct (lookup_path (fs w) (cp ++ x)).
  - apply rmtree_unsafe_outside.
  - apply (respects_bind _ (outside_kept_trans cp));
      [apply handler_outside | intros _; apply guarded_outside].
Qed.

Lemma shutil_rmtree_outside :
  respects (outside_kept cp) (shutil_rmtree cp handle_remove_readonly).
Proof.
  pose proof (shutil_rmtree_below_outside []) as H.
  now rewrite app_nil_r in H.
Qed.

Lemma safe_rmtree_outside : respects (outside_kept cp) (safe_rmtree cp).
Proof.
  unfold safe_rmtree.
  apply (respects_bind _ (outside_kept_trans cp)).
  - intros w r w' H. unfold os_path_exists in H. injection H as <- <-.
    apply outside_kept_refl.
  - intros [|]; [|apply (respects_ret _ (outside_kept_refl cp))].
    apply (respects_try_except _ (outside_kept_trans cp)).
    + apply shutil_rmtree_outside.
    + intros e w r w' H. unfold print in H. injection H as <- <-.
      now apply outside_kept_same_fs.
Qed.
End Outside.

(** * Cloning *)

Lemma Repo_clone_from_ok url cp w p w' :
  Repo_clone_from url cp w = (Ok p, w') ->
  exists rm,
    aget url (remotes w) = Some rm
    /\ p = cp
    /\ lookup_path (fs w') cp = Some (Dir (cloned_tree rm))
    /\ repos w' = rset cp (cloned_repo url rm) (repos w)
    /\ remotes w' = remotes w
    /\ outside_kept cp w w'.
Proof.
  unfold Repo_clone_from. destruct (aget url (remotes w)) as [rm|]; [|discriminate].
  intros H. exists rm. split; [reflexivity|].
  destruct (put_path cp (Dir (cloned_tree rm)) (fs w)) as [f|] eqn:Ep.
  - assert (Hw : (Ok p, w') = (Ok cp, set_repos (rset cp (cloned_repo url rm) (repos w))
                                        (set_fs f w))).
    { destruct (lookup_path (fs w) cp) as [[ro l d|[|e es]]|]; try discriminate;
        now rewrite <- H. }
    injection Hw as -> ->. repeat split.
    + exact (lookup_put_path _ _ _ _ Ep).
    + intros q Hq. exact (lookup_put_diverge _ _ _ _ _ Hq Ep).
  - destruct (lookup_path (fs w) cp) as [[ro l d|[|e es]]|]; discriminate.
Qed.

Lemma safe_rmtree_git_kept p w :
  git_kept w (snd (safe_rmtree p w)).
Proof.
  destruct (safe_rmtree_cases p w) as [[_ Hs]|[(w1 & _ & Hs & _ & Hf)|(e & w1 & _ & _ & Hs & Hf)]];
    rewrite Hs; simpl; unfold git_kept; [auto| |];
    destruct Hf as (_ & Hr & Hm & _); auto.
Qed.

Lemma cp_acquire_ok url lp cp w p w' :
  cp_acquire url lp cp w = (Ok p, w') ->
  exists rm,
    aget url (remotes w) = Some rm
    /\ p = cp
    /\ lookup_path (fs w') cp = Some (Dir (cloned_tree rm))
    /\ rget cp (repos w') = Some (cloned_repo url rm)
    /\ remotes w' = remotes w
    /\ outside_kept cp w w'.
Proof.
  unfold cp_acquire. intros H.
  apply bind_ok in H as ([] & w1 & H1 & H). injection H1 as <-.
  apply bind_ok in H as ([] & w2 & H2 & H). injection H2 as <-.
  apply bind_ok in H as (e & w3 & H3 & H). injection H3 as <- <-.
  apply bind_ok in H as ([] & w4 & H4 & H).
  apply bind_ok in H as ([] & w5 & H5 & H). injection H5 as <-.
  apply bind_ok in H as (repo & w6 & H6 & H).
  apply bind_ok in H as ([] & w7 & H7 & H). injection H7 as <-.
  injection H as <- <-.
  apply Repo_clone_from_ok in H6 as (rm & Hrm & -> & Hl & Hr & Hm & Ho).
  set (w3 := set_out _ (set_out _ w)) in *.
  assert (H34 : git_kept w3 w4 /\ outside_kept cp w3 w4).
  { destruct (exists_ (fs w) cp).
    - apply bind_ok in H4 as ([] & w8 & H8 & H4).
      pose proof (safe_rmtree_git_kept cp w8) as G. rewrite H4 in G.
      pose proof (safe_rmtree_outside cp _ _ _ H4) as O.
      unfold print in H8. injection H8 as <-. split; [exact G | exact O].
    - injection H4 as <-. split; [split; reflexivity | apply outside_kept_refl]. }
  destruct H34 as [[Hr4 Hm4] Ho4].
  exists rm. simpl in *. repeat split; auto.
  - now rewrite Hm4 in Hrm.
  - rewrite Hr. apply rget_rset_same.
  - now rewrite Hm, Hm4.
  - intros q Hq. simpl. rewrite (Ho q Hq). simpl. now rewrite (Ho4 q Hq).
Qed.

(** * Branch selection on a fresh clone *)

Lemma mem_names (A : Type) (l : list (string * A)) k :
  mem k (names l) = match aget k l with Some _ => true | None => false end.
Proof.
  induction l as [|[k0 v0] l IH]; simpl; auto.
  rewrite (String.eqb_sym k k0). destruct (String.eqb k0 k); auto.
Qed.

Lemma append_inj_l s a b : (s ++ a)%string = (s ++ b)%string -> a = b.
Proof. induction s as [|c s IH]; simpl; intros H; auto. injection H as H. auto. Qed.

Lemma aget_prefixed (A : Type) (l : list (string * A)) s b :
  aget (s ++ b)%string (map (fun kh => ((s ++ fst kh)%string, snd kh)) l) = aget b l.
Proof.
  induction l as [|[k0 v0] l IH]; simpl; auto.
  destruct (String.eqb_spec (s ++ k0) (s ++ b)) as [E|E];
    destruct (String.eqb_spec k0 b) as [E'|E']; auto.
  - apply append_inj_l in E. contradiction.
  - subst. contradiction.
Qed.

Lemma aget_app (A : Type) (l1 l2 : list (string * A)) k :
  aget k (l1 ++ l2) = match aget k l1 with Some v => Some v | None => aget k l2 end.
Proof.
  induction l1 as [|[k0 v0] l1 IH]; simpl; auto.
  destruct (String.eqb k0 k); auto.
Qed.

Lemma tracked_branch_tree hs b : tracked (branch_tree hs b) = branch_tree hs b.
Proof.
  unfold branch_tree. destruct (branch_history hs b); [reflexivity | apply tracked_idem].
Qed.

Lemma git_entries_branch_tree hs b : git_entries (branch_tree hs b) = [].
Proof. rewrite <- tracked_branch_tree. apply git_entries_tracked. Qed.


Lemma cloned_heads_default url rm :
  branch_history (heads (cloned_repo url rm)) (r_default rm)
  = branch_history (r_branches rm) (r_default rm).
Proof.
  unfold branch_history. simpl. destruct (aget (r_default rm) (r_branches rm)); simpl; auto.
  now rewrite String.eqb_refl.
Qed.

Lemma cloned_heads_other url rm b :
  b <> r_default rm -> aget b (heads (cloned_repo url rm)) = None.
Proof.
  intros Hb. simpl. destruct (aget (r_default rm) (r_branches rm)); simpl; auto.
  destruct (String.eqb_spec (r_default rm) b); congruence.
Qed.

Lemma branch_tree_history hs hs' b :
  branch_history hs b = branch_history hs' b -> branch_tree hs b = branch_tree hs' b.
Proof. unfold branch_tree. now intros ->. Qed.

Lemma selected_branch_cases rm b :
  r_default rm <> ("origin/" ++ b)%string ->
  (b = r_default rm /\ selected_branch rm b = b)
  \/ (b <> r_default rm /\ (exists h, aget b (r_branches rm) = Some h)
      /\ selected_branch rm b = b)
  \/ (b <> r_default rm /\ aget b (r_branches rm) = None
      /\ selected_branch rm b = r_default rm).
Proof.
  intros Hd. unfold selected_branch.
  destruct (String.eqb_spec b (r_default rm)) as [->|Hb].
  - left. split; auto. destruct (mem _ _); [|destruct (mem _ _)]; reflexivity.
  - right. rewrite !mem_names. rewrite (cloned_heads_other "" rm b Hb).
    unfold repo_refs_of. rewrite aget_app.
    assert (G : aget ("origin/" ++ b)%string (heads (cloned_repo "" rm)) = None).
    { apply cloned_heads_other. congruence. }
    rewrite G. simpl remote_refs. rewrite (aget_prefixed _ (r_branches rm) "origin/").
    destruct (aget b (r_branches rm)) as [h|] eqn:E; [left|right]; eauto.
Qed.

Lemma switch_to_same p name r w :
  branch_tree (heads r) name = head_tree r ->
  switch_to p name r w
  = (Ok tt, set_repos (rset p (with_head_branch name r) (repos w)) w).
Proof. intros H. unfold switch_to. now rewrite H, tree_eqb_refl. Qed.

Lemma git_entries_dotgit ds : git_entries (dotgit :: ds) = dotgit :: git_entries ds.
Proof. reflexivity. Qed.

Lemma switch_to_clean p name r w :
  lookup_path (fs w) p = Some (Dir (dotgit :: head_tree r)) ->
  index r = head_tree r ->
  exists w',
    switch_to p name r w = (Ok tt, w')
    /\ lookup_path (fs w') p = Some (Dir (dotgit :: branch_tree (heads r) name))
    /\ remotes w' = remotes w
    /\ outside_kept p w w'
    /\ exists r', rget p (repos w') = Some r'
         /\ heads r' = heads r /\ head_branch r' = name /\ origin r' = origin r.
Proof.
  intros Hl Hi. unfold switch_to.
  destruct (tree_eqb (branch_tree (heads r) name) (head_tree r)) eqn:E.
  - apply tree_eqb_eq in E. eexists. split; [reflexivity|]. simpl.
    rewrite E. split; [auto|]. split; [auto|]. split; [now apply outside_kept_same_fs|].
    eexists. rewrite rget_rset_same. split; [reflexivity|]. auto.
  - unfold worktree_of. rewrite Hl. rewrite tracked_dotgit.
    unfold head_tree at 1 2. rewrite tracked_branch_tree. fold (head_tree r).
    rewrite Hi, !tree_eqb_refl. simpl andb. cbv iota.
    rewrite git_entries_dotgit. unfold head_tree at 1. rewrite git_entries_branch_tree.
    rewrite (put_path_exists _ _ _ _ Hl).
    eexists. split; [reflexivity|]. simpl.
    split; [eapply lookup_repl; eauto|]. split; [auto|].
    split; [intros q Hq; simpl; now apply lookup_repl_diverge|].
    eexists. rewrite rget_rset_same. split; [reflexivity|]. auto.
Qed.

Lemma repo_branch_names_run p r w :
  rget p (repos w) = Some r -> repo_branch_names p w = (Ok (names (heads r)), w).
Proof. intros H. unfold repo_branch_names, bind, get_repo. now rewrite H. Qed.

Lemma repo_ref_names_run p r w :
  rget p (repos w) = Some r -> repo_ref_names p w = (Ok (names (repo_refs_of r)), w).
Proof. intros H. unfold repo_ref_names, bind, get_repo. now rewrite H. Qed.

Lemma git_checkout_run p name r h w :
  rget p (repos w) = Some r -> aget name (heads r) = Some h ->
  git_checkout p name w = switch_to p name r w.
Proof. intros H E. unfold git_checkout, bind, get_repo. now rewrite H, E. Qed.

Lemma git_checkout_b_run p name start r h w :
  rget p (repos w) = Some r -> aget name (heads r) = None ->
  aget start (repo_refs_of r) = Some h ->
  git_checkout_b p name start w
  = switch_to p name (with_heads (aset name h (heads r)) r) w.
Proof. intros H E S. unfold git_checkout_b, bind, get_repo. now rewrite H, E, S. Qed.

Lemma cloned_heads_aget_default url rm :
  aget (r_default rm) (heads (cloned_repo url rm)) = aget (r_default rm) (r_branches rm).
Proof.
  simpl. destruct (aget (r_default rm) (r_branches rm)); simpl; auto.
  now rewrite String.eqb_refl.
Qed.

Lemma cloned_refs_aget url rm b :
  r_default rm <> ("origin/" ++ b)%string ->
  aget ("origin/" ++ b)%string (repo_refs_of (cloned_repo url rm)) = aget b (r_branches rm).
Proof.
  intros Hd. unfold repo_refs_of. rewrite aget_app, cloned_heads_other by congruence.
  simpl remote_refs. apply (aget_prefixed _ (r_branches rm) "origin/").
Qed.

Lemma cp_switch_branch_cloned url rm cp b w :
  r_default rm <> ("origin/" ++ b)%string ->
  lookup_path (fs w) cp = Some (Dir (cloned_tree rm)) ->
  rget cp (repos w) = Some (cloned_repo url rm) ->
  exists w',
    cp_switch_branch cp b w = (Ok tt, w')
    /\ on_branch cp url rm (selected_branch rm b) w'
    /\ remotes w' = remotes w
    /\ outside_kept cp w w'.
Proof.
  intros Hd Hl Hr. unfold cp_switch_branch, try_except.
  rewrite (bind_run _ _ _ _ _ (repo_branch_names_run _ _ _ Hr)).
  assert (Hstay : forall s,
             on_branch cp url rm (r_default rm) (set_out s w)
             /\ remotes (set_out s w) = remotes w
             /\ outside_kept cp w (set_out s w)).
  { intros s. unfold on_branch. simpl.
    split; [|split; [reflexivity | now apply outside_kept_same_fs]].
    split; [exact Hl|]. eexists. split; [exact Hr|].
    split; [reflexivity|]. split; [apply cloned_heads_default | reflexivity]. }
  destruct (selected_branch_cases rm b Hd) as [[-> Hs]|[(Hb & [h Hh] & Hs)|(Hb & Hn & Hs)]];
    rewrite Hs.
  - rewrite mem_names.
    destruct (aget (r_default rm) (heads (cloned_repo url rm))) as [h|] eqn:E.
    + assert (G : git_checkout cp (r_default rm) w
                  = (Ok tt, set_repos (rset cp (with_head_branch (r_default rm)
                                                   (cloned_repo url rm)) (repos w)) w)).
      { rewrite (git_checkout_run _ _ _ _ _ Hr E). now apply switch_to_same. }
      rewrite (bind_run _ _ _ _ _ G). unfold print.
      eexists. split; [reflexivity|]. unfold on_branch. simpl.
      split; [|split; [reflexivity | now apply outside_kept_same_fs]].
      split; [exact Hl|]. eexists. rewrite rget_rset_same. split; [reflexivity|].
      split; [reflexivity|]. split; [apply cloned_heads_default | reflexivity].
    + rewrite (bind_run _ _ _ _ _ (repo_ref_names_run _ _ _ Hr)).
      rewrite mem_names, (cloned_refs_aget url _ _ Hd), <- (cloned_heads_aget_default url), E.
      unfold print. eexists. split; [reflexivity|]. apply Hstay.
  - rewrite mem_names, (cloned_heads_other url _ _ Hb).
    rewrite (bind_run _ _ _ _ _ (repo_ref_names_run _ _ _ Hr)).
    rewrite mem_names, (cloned_refs_aget url _ _ Hd), Hh.
    pose proof (git_checkout_b_run cp b ("origin/" ++ b)%string _ h w Hr
                  (cloned_heads_other url _ _ Hb)) as G.
    rewrite (cloned_refs_aget url _ _ Hd) in G. specialize (G Hh).
    set (r1 := with_heads (aset b h (heads (cloned_repo url rm))) (cloned_repo url rm)) in *.
    assert (Hdef : branch_history (heads r1) (r_default rm)
                   = branch_history (r_branches rm) (r_default rm)).
    { unfold branch_history. subst r1. simpl heads.
      rewrite aget_aset_other by exact Hb. exact (cloned_heads_default url rm). }
    destruct (switch_to_clean cp b r1 w) as (w1 & Hsw & Hl1 & Hm1 & Ho1 & r' & Hr' & Hh' & Hb' & Hor').
    { rewrite Hl. unfold cloned_tree, head_tree. do 2 f_equal. f_equal.
      symmetry. apply branch_tree_history. exact Hdef. }
    { unfold head_tree. simpl. symmetry. apply branch_tree_history. exact Hdef. }
    rewrite Hsw in G. rewrite (bind_run _ _ _ _ _ G). unfold print.
    eexists. split; [reflexivity|]. unfold on_branch. simpl.
    split; [|split; [exact Hm1 | intros q Hq; simpl; now apply Ho1]].
    split.
    + rewrite Hl1. do 3 f_equal. apply branch_tree_history.
      unfold branch_history. subst r1. simpl heads. now rewrite aget_aset_same, Hh.
    + exists r'. split; [exact Hr'|]. split; [exact Hb'|]. split; [|now rewrite Hor'].
      rewrite Hh'. unfold branch_history. subst r1. simpl heads.
      now rewrite aget_aset_same, Hh.
  - rewrite mem_names, (cloned_heads_other url _ _ Hb).
    rewrite (bind_run _ _ _ _ _ (repo_ref_names_run _ _ _ Hr)).
    rewrite mem_names, (cloned_refs_aget url _ _ Hd), Hn.
    unfold print. eexists. split; [reflexivity|]. apply Hstay.
Qed.

(** * Steps that leave the repositories alone *)

Lemma git_kept_refl w : git_kept w w.
Proof. split; reflexivity. Qed.

Lemma git_kept_trans w1 w2 w3 : git_kept w1 w2 -> git_kept w2 w3 -> git_kept w1 w3.
Proof. unfold git_kept. intros [] []. split; congruence. Qed.

Create HintDb gitkept.
#[local] Hint Resolve git_kept_refl : gitkept.
#[local] Hint Extern 1 (git_kept _ _) => split; reflexivity : gitkept.

Ltac prim_git_kept :=
  respects_steps git_kept_refl git_kept_trans;
  auto with gitkept;
  try (leaf_run; simpl; auto with gitkept).

Lemma print_git_kept s : respects git_kept (print s).
Proof. unfold print. prim_git_kept. Qed.
Lemma os_listdir_git_kept p : respects git_kept (os_listdir p).
Proof. unfold os_listdir. prim_git_kept. Qed.
Lemma os_path_isdir_git_kept p : respects git_kept (os_path_isdir p).
Proof. unfold os_path_isdir. prim_git_kept. Qed.
Lemma os_path_exists_git_kept p : respects git_kept (os_path_exists p).
Proof. unfold os_path_exists. prim_git_kept. Qed.
Lemma shutil_copytree_git_kept s d b : respects git_kept (shutil_copytree s d b).
Proof. unfold shutil_copytree. prim_git_kept. Qed.
Lemma shutil_copy2_git_kept s d : respects git_kept (shutil_copy2 s d).
Proof. unfold shutil_copy2. prim_git_kept. Qed.
Lemma safe_rmtree_respects_git_kept p : respects git_kept (safe_rmtree p).
Proof.
  intros w r w' H. pose proof (safe_rmtree_git_kept p w) as G. now rewrite H in G.
Qed.
#[local] Hint Resolve print_git_kept os_listdir_git_kept os_path_isdir_git_kept
  os_path_exists_git_kept shutil_copytree_git_kept shutil_copy2_git_kept
  safe_rmtree_respects_git_kept : gitkept.

Lemma cp_copy_git_kept lp cp : respects git_kept (cp_copy lp cp).
Proof. unfold cp_copy, cp_copy_item. prim_git_kept. Qed.

(** * The clone at the time of staging *)

Lemma cp_prefix_ok url lp cp b w repo wc ss rm :
  diverge cp lp = true ->
  lookup_path (fs w) lp = Some (Dir ss) ->
  aget url (remotes w) = Some rm ->
  r_default rm <> ("origin/" ++ b)%string ->
  cp_prefix url lp cp b w = (Ok repo, wc) ->
  repo = cp
  /\ remotes wc = remotes w
  /\ outside_kept cp w wc
  /\ exists r rs,
       rget cp (repos wc) = Some r
       /\ head_branch r = selected_branch rm b
       /\ branch_history (heads r) (selected_branch rm b)
          = branch_history (r_branches rm) (selected_branch rm b)
       /\ origin r = Some url
       /\ merge_names cp ss (names ss)
            (dotgit :: branch_tree (r_branches rm) (selected_branch rm b)) = Some rs
       /\ lookup_path (fs wc) cp = Some (Dir rs).
Proof.
  intros Hdiv Hl Hrm Hd H. unfold cp_prefix in H.
  apply bind_ok in H as (p & w1 & H1 & H).
  apply cp_acquire_ok in H1 as (rm' & Hrm' & -> & Hl1 & Hr1 & Hm1 & Ho1).
  assert (rm' = rm) by congruence. subst rm'.
  destruct (cp_switch_branch_cloned url rm cp b w1 Hd Hl1 Hr1)
    as (w2 & Hsw & [Hl2 (r & Hr2 & Hb2 & Hh2 & Hor2)] & Hm2 & Ho2).
  rewrite (bind_run _ _ _ _ _ Hsw) in H.
  apply bind_ok in H as ([] & w3 & H3 & H). injection H as <- <-.
  assert (Hlp : lookup_path (fs w2) lp = Some (Dir ss)).
  { now rewrite (Ho2 lp Hdiv), (Ho1 lp Hdiv). }
  destruct (cp_copy_git_kept lp cp _ _ _ H3) as [Hr3 Hm3].
  destruct (cp_copy_ok lp cp ss _ w2 w3 Hdiv Hlp Hl2 H3) as (rs & Hmerge & Hfs).
  split; [reflexivity|]. split; [congruence|]. split.
  - intros q Hq. rewrite Hfs, lookup_repl_diverge by exact Hq.
    now rewrite (Ho2 q Hq), (Ho1 q Hq).
  - exists r, rs. rewrite Hr3. repeat (split; [assumption|]).
    rewrite Hfs. eapply lookup_repl; eauto.
Qed.

(** * An accepted push *)









(** * The second copy *)


Lemma cp_body_prefix url l c m b w :
  cp_body url l c m b w
  = (repo <- cp_prefix url (abspath_in w l) (abspath_in w c) b ;; cp_publish repo m) w.
Proof.
  rewrite cp_body_unfold. unfold cp_prefix, bind, ret.
  destruct (cp_acquire _ _ _ w) as [[p|e] w1]; auto.
  destruct (cp_switch_branch p b w1) as [[[]|e] w2]; auto.
  destruct (cp_copy _ _ w2) as [[[]|e] w3]; auto.
Qed.

Lemma clone_and_push_steady url l c m b :
  respects steady (clone_and_push_folder_fixed url l c m b).
Proof.
  unfold clone_and_push_folder_fixed.
  apply respects_try_finally; [exact steady_trans| |apply cp_cleanup_steady].
  apply respects_try_except2; [exact steady_trans|apply cp_body_steady| |];
    intros e; apply print_steady.
Qed.

(** * Lines that announce a commit *)

Lemma no_commit_line_refl w : no_commit_line w w.
Proof. exists []. now rewrite app_nil_r. Qed.

Lemma no_commit_line_trans w1 w2 w3 :
  no_commit_line w1 w2 -> no_commit_line w2 w3 -> no_commit_line w1 w3.
Proof.
  intros (l1 & H1 & F1) (l2 & H2 & F2). exists (l1 ++ l2).
  rewrite H2, H1, app_assoc, forallb_app, F1, F2. auto.
Qed.

Lemma no_commit_line_same_out w w' : out w' = out w -> no_commit_line w w'.
Proof. intros H. exists []. now rewrite app_nil_r. Qed.

Lemma print_no_commit_line s :
  announces_commit s = false -> respects no_commit_line (print s).
Proof.
  intros Hs w r w' H. unfold print in H. injection H as <- <-.
  exists [s]. simpl. now rewrite Hs.
Qed.

Create HintDb nocommit.
#[local] Hint Resolve no_commit_line_refl : nocommit.
#[local] Hint Extern 1 (no_commit_line _ _) =>
  apply no_commit_line_same_out; reflexivity : nocommit.
#[local] Hint Extern 1 (respects no_commit_line (print _)) =>
  apply print_no_commit_line; reflexivity : nocommit.

Ltac prim_no_commit :=
  respects_steps no_commit_line_refl no_commit_line_trans;
  auto with nocommit;
  try (leaf_run; simpl; auto with nocommit).

Lemma get_repo_no_commit p : respects no_commit_line (get_repo p).
Proof. unfold get_repo. prim_no_commit. Qed.
Lemma os_path_abspath_no_commit s : respects no_commit_line (os_path_abspath s).
Proof. unfold os_path_abspath. prim_no_commit. Qed.
Lemma os_path_exists_no_commit p : respects no_commit_line (os_path_exists p).
Proof. unfold os_path_exists. prim_no_commit. Qed.
Lemma os_path_isdir_no_commit p : respects no_commit_line (os_path_isdir p).
Proof. unfold os_path_isdir. prim_no_commit. Qed.
Lemma os_listdir_no_commit p : respects no_commit_line (os_listdir p).
Proof. unfold os_listdir. prim_no_commit. Qed.
Lemma shutil_copytree_no_commit s d b : respects no_commit_line (shutil_copytree s d b).
Proof. unfold shutil_copytree. prim_no_commit. Qed.
Lemma shutil_copy2_no_commit s d : respects no_commit_line (shutil_copy2 s d).
Proof. unfold shutil_copy2. prim_no_commit. Qed.
Lemma Repo_clone_from_no_commit u d : respects no_commit_line (Repo_clone_from u d).
Proof. unfold Repo_clone_from. prim_no_commit. Qed.
Lemma switch_to_no_commit p n r : respects no_commit_line (switch_to p n r).
Proof. unfold switch_to. prim_no_commit. Qed.
#[local] Hint Resolve get_repo_no_commit os_path_abspath_no_commit
  os_path_exists_no_commit os_path_isdir_no_commit os_listdir_no_commit
  shutil_copytree_no_commit shutil_copy2_no_commit Repo_clone_from_no_commit
  switch_to_no_commit : nocommit.
Lemma repo_branch_names_no_commit p : respects no_commit_line (repo_branch_names p).
Proof. unfold repo_branch_names. prim_no_commit. Qed.
Lemma repo_ref_names_no_commit p : respects no_commit_line (repo_ref_names p).
Proof. unfold repo_ref_names. prim_no_commit. Qed.
Lemma git_checkout_no_commit p n : respects no_commit_line (git_checkout p n).
Proof. unfold git_checkout. prim_no_commit. Qed.
Lemma git_checkout_b_no_commit p n s : respects no_commit_line (git_checkout_b p n s).
Proof. unfold git_checkout_b. prim_no_commit. Qed.

Lemma safe_rmtree_no_commit p : respects no_commit_line (safe_rmtree p).
Proof.
  intros w r w' H.
  destruct (safe_rmtree_cases p w) as [[_ Hs]|[(w1 & _ & Hs & _ & Hf)|(e & w1 & _ & _ & Hs & Hf)]];
    rewrite Hs in H; inversion H; subst.
  - apply no_commit_line_refl.
  - apply no_commit_line_same_out, Hf.
  - destruct Hf as (_ & _ & _ & Ho). exists [rmtree_warning p e]. simpl.
    rewrite Ho. auto.
Qed.
#[local] Hint Resolve repo_branch_names_no_commit repo_ref_names_no_commit
  git_checkout_no_commit git_checkout_b_no_commit safe_rmtree_no_commit : nocommit.


Lemma announces_commit_line m : announces_commit (committed_line_clone m) = true.
Proof. destruct m; reflexivity. Qed.

(** * Removing a tree nobody holds open *)

Lemma adel_absent (A : Type) (l : list (string * A)) k :
  aget k l = None -> adel k l = l.
Proof.
  induction l as [|[k0 v0] l IH]; simpl; auto.
  destruct (String.eqb k0 k); [discriminate|]. intros H. f_equal. auto.
Qed.

Lemma adel_aset (A : Type) (l : list (string * A)) k v :
  adel k (aset k v l) = adel k l.
Proof.
  induction l as [|[k0 v0] l IH]; simpl.
  - now rewrite String.eqb_refl.
  - destruct (String.eqb k0 k) eqn:E; simpl.
    + now rewrite String.eqb_refl.
    + now rewrite E, IH.
Qed.

Lemma unlocked_dir es : unlocked (Dir es) <-> unlocked_entries es.
Proof. simpl. induction es as [|[k x] es IH]; simpl; tauto. Qed.

Lemma del_path_cons c p es :
  p <> [] ->
  del_path (c :: p) (Dir es)
  = match aget c es with
    | Some x => Dir (aset c (del_path p x) es)
    | None => Dir es
    end.
Proof. destruct p; [congruence | reflexivity]. Qed.

Lemma del_path_absent n p : lookup_path n p = None -> del_path p n = n.
Proof.
  revert n. induction p as [|c p IH]; intros n; simpl; [discriminate|].
  destruct n as [|es]; auto. destruct p as [|c' p].
  - destruct (aget c es) eqn:E; [discriminate|]. intros _. f_equal.
    now apply adel_absent.
  - destruct (aget c es) as [x|] eqn:E; auto.
    intros H. rewrite (IH _ H). f_equal. now apply aset_same.
Qed.

Lemma del_path_repl_below p q v f :
  p <> [] -> del_path p (repl (p ++ q) v f) = del_path p f.
Proof.
  revert f. induction p as [|c p IH]; intros f Hp; [congruence|].
  destruct f as [|es]; [reflexivity|]. simpl app. simpl repl.
  destruct (aget c es) as [x|] eqn:E; [|reflexivity].
  destruct p as [|c' p].
  - simpl. now rewrite adel_aset.
  - rewrite !del_path_cons by discriminate.
    rewrite aget_aset_same, E, aset_aset, IH by discriminate. reflexivity.
Qed.

Lemma del_path_del_below p q f :
  p <> [] -> del_path p (del_path (p ++ q) f) = del_path p f.
Proof.
  revert f. induction p as [|c p IH]; intros f Hp; [congruence|].
  destruct f as [|es]; [reflexivity|].
  destruct p as [|c' p].
  - simpl app. destruct q as [|c2 q].
    + simpl. f_equal. apply adel_absent, aget_adel_same.
    + rewrite del_path_cons by discriminate.
      destruct (aget c es) as [x|] eqn:E; [|reflexivity].
      simpl. now rewrite adel_aset.
  - change ((c :: c' :: p) ++ q) with (c :: ((c' :: p) ++ q)).
    rewrite (del_path_cons c ((c' :: p) ++ q)) by discriminate.
    rewrite (del_path_cons c (c' :: p) es) by discriminate.
    destruct (aget c es) as [x|] eqn:E; [|now rewrite del_path_cons, E by discriminate].
    rewrite del_path_cons, aget_aset_same, aset_aset, IH by discriminate.
    reflexivity.
Qed.

Lemma lookup_del_child f p es k :
  lookup_path f p = Some (Dir es) ->
  lookup_path (del_path (p ++ [k]) f) p = Some (Dir (adel k es)).
Proof.
  revert f. induction p as [|c p IH]; intros f H.
  - simpl in H. injection H as ->. reflexivity.
  - destruct f as [|es0]; [discriminate|]. simpl in H.
    destruct (aget c es0) as [x|] eqn:E; [|discriminate].
    change ((c :: p) ++ [k]) with (c :: (p ++ [k])).
    rewrite del_path_cons, E by (destruct p; discriminate).
    simpl lookup_path. rewrite aget_aset_same. now apply IH.
Qed.

Lemma unlink_removes p w ro data :
  p <> [] ->
  lookup_path (fs w) p = Some (File ro false data) ->
  guarded handle_remove_readonly F_unlink p w
  = (Ok tt, set_fs (del_path p (fs w)) w).
Proof.
  intros Hp H. unfold guarded, try_except. simpl call_func. unfold os_unlink.
  rewrite H. destruct ro; simpl orb; cbv iota; [|reflexivity].
  simpl isinstance_OSError. cbv iota.
  rewrite (handler_retries_unlink p w true false data _ H).
  rewrite <- (app_nil_r p) at 2. now rewrite del_path_repl_below.
Qed.

Lemma handler_absent f p e w :
  lookup_path (fs w) p = None -> handle_remove_readonly f p e w = (Ok tt, w).
Proof.
  intros H. unfold handle_remove_readonly, bind, os_path_exists, exists_.
  now rewrite H.
Qed.

Lemma unlink_absent p w :
  lookup_path (fs w) p = None ->
  guarded handle_remove_readonly F_unlink p w = (Ok tt, w).
Proof.
  intros H. unfold guarded, try_except. simpl call_func. unfold os_unlink.
  rewrite H. simpl isinstance_OSError. cbv iota. now apply handler_absent.
Qed.

Lemma rmdir_removes p w :
  p <> [] ->
  lookup_path (fs w) p = Some (Dir []) ->
  guarded handle_remove_readonly F_rmdir p w
  = (Ok tt, set_fs (del_path p (fs w)) w).
Proof.
  intros Hp H. unfold guarded, try_except. simpl call_func. unfold os_rmdir.
  rewrite H. destruct p; [congruence | reflexivity].
Qed.

Lemma rmdir_absent p w :
  lookup_path (fs w) p = None ->
  guarded handle_remove_readonly F_rmdir p w = (Ok tt, w).
Proof.
  intros H. unfold guarded, try_except. simpl call_func. unfold os_rmdir.
  rewrite H. simpl isinstance_OSError. cbv iota. now apply handler_absent.
Qed.

Lemma aget_without_gone gone es k :
  mem k gone = true -> aget k (without gone es) = None.
Proof.
  intros Hk. induction es as [|[k0 x0] es IH]; simpl; auto.
  destruct (mem k0 gone) eqn:E; simpl; auto.
  destruct (String.eqb_spec k0 k) as [->|]; [congruence | exact IH].
Qed.

Lemma adel_without gone es k :
  adel k (without gone es) = without (k :: gone) es.
Proof.
  induction es as [|[k0 x0] es IH]; simpl; auto.
  rewrite (String.eqb_sym k0 k).
  destruct (mem k0 gone) eqn:E; simpl.
  - rewrite orb_true_r. simpl. exact IH.
  - rewrite orb_false_r, (String.eqb_sym k k0).
    destruct (String.eqb k0 k); simpl; [exact IH | now rewrite IH].
Qed.

Lemma rm_children_gone rest :
  Forall (fun kx => forall es, snd kx = Dir es -> removable (Dir es)) rest ->
  forall p w,
    lookup_path (fs w) p = None ->
    exists w',
      rm_children (rmtree_unsafe handle_remove_readonly) handle_remove_readonly
        rest p w = (Ok tt, w')
      /\ fs w' = fs w.
Proof.
  induction 1 as [|[k x] rest Hx _ IH]; intros p w Hp; simpl.
  - eexists. split; reflexivity.
  - assert (Hk : lookup_path (fs w) (p ++ [k]) = None)
      by (now rewrite lookup_path_app, Hp).
    assert (H1 : exists w1,
               (match x with
                | Dir _ => rmtree_unsafe handle_remove_readonly x (p ++ [k])
                | File _ _ _ => guarded handle_remove_readonly F_unlink (p ++ [k])
                end) w = (Ok tt, w1) /\ fs w1 = fs w).
    { destruct x as [ro l d|es].
      - exists w. split; [now apply unlink_absent | reflexivity].
      - destruct (Hx es eq_refl (p ++ [k]) w) as (w1 & H1 & Hf); auto.
        { destruct p; discriminate. }
        exists w1. split; [exact H1|]. rewrite Hf. now apply del_path_absent. }
    destruct H1 as (w1 & H1 & Hf1).
    rewrite (bind_run _ _ _ _ _ H1). destruct (IH p w1) as (w' & H' & Hf').
    { now rewrite Hf1. }
    exists w'. split; [exact H'|congruence].
Qed.

Lemma rm_children_removes rest :
  Forall (fun kx => forall es, snd kx = Dir es -> removable (Dir es)) rest ->
  unlocked_entries rest ->
  forall p gone w,
    p <> [] ->
    lookup_path (fs w) p = Some (Dir (without gone rest)) ->
    exists w',
      rm_children (rmtree_unsafe handle_remove_readonly) handle_remove_readonly
        rest p w = (Ok tt, w')
      /\ lookup_path (fs w') p = Some (Dir [])
      /\ del_path p (fs w') = del_path p (fs w).
Proof.
  induction 1 as [|[k x] rest Hx _ IH]; intros Hu p gone w Hp Hl.
  - exists w. repeat split. exact Hl.
  - destruct Hu as [Hux Hu]. simpl rm_children.
    assert (Hpk : p ++ [k] <> []) by (destruct p; discriminate).
    destruct (mem k gone) eqn:Ek.
    + assert (Hl' : lookup_path (fs w) p = Some (Dir (without gone rest))).
      { rewrite Hl. unfold without. simpl. now rewrite Ek. }
      assert (Hk : lookup_path (fs w) (p ++ [k]) = None).
      { rewrite (lookup_child _ _ _ k Hl'). now apply aget_without_gone. }
      assert (H1 : exists w1,
                 (match x with
                  | Dir _ => rmtree_unsafe handle_remove_readonly x (p ++ [k])
                  | File _ _ _ => guarded handle_remove_readonly F_unlink (p ++ [k])
                  end) w = (Ok tt, w1) /\ fs w1 = fs w).
      { destruct x as [ro l d|es].
        - exists w. split; [now apply unlink_absent | reflexivity].
        - destruct (Hx es eq_refl (p ++ [k]) w Hpk) as (w1 & H1 & Hf); auto.
          exists w1. split; [exact H1|]. rewrite Hf. now apply del_path_absent. }
      destruct H1 as (w1 & H1 & Hf1).
      rewrite (bind_run _ _ _ _ _ H1).
      destruct (IH Hu p gone w1 Hp) as (w' & H' & Hl2 & Hd); [now rewrite Hf1|].
      exists w'. split; [exact H'|]. split; [exact Hl2|]. now rewrite Hd, Hf1.
    + assert (Hl' : lookup_path (fs w) p = Some (Dir ((k, x) :: without gone rest))).
      { rewrite Hl. unfold without. simpl. now rewrite Ek. }
      assert (Hk : lookup_path (fs w) (p ++ [k]) = Some x).
      { rewrite (lookup_child _ _ _ k Hl'). simpl. now rewrite String.eqb_refl. }
      assert (H1 : exists w1,
                 (match x with
                  | Dir _ => rmtree_unsafe handle_remove_readonly x (p ++ [k])
                  | File _ _ _ => guarded handle_remove_readonly F_unlink (p ++ [k])
                  end) w = (Ok tt, w1) /\ fs w1 = del_path (p ++ [k]) (fs w)).
      { destruct x as [ro l d|es].
        - simpl in Hux. subst l. eexists. split; [now eapply unlink_removes; eauto|].
          reflexivity.
        - destruct (Hx es eq_refl (p ++ [k]) w Hpk) as (w1 & H1 & Hf); eauto. }
      destruct H1 as (w1 & H1 & Hf1).
      rewrite (bind_run _ _ _ _ _ H1).
      destruct (IH Hu p (k :: gone) w1 Hp) as (w' & H' & Hl2 & Hd).
      { rewrite Hf1, (lookup_del_child _ _ _ k Hl'). do 2 f_equal.
        simpl adel. rewrite String.eqb_refl. apply adel_without. }
      exists w'. split; [exact H'|]. split; [exact Hl2|].
      rewrite Hd, Hf1. now apply del_path_del_below.
Qed.

Lemma directories_removable (n : node) : forall es, n = Dir es -> removable (Dir es).
Proof.
  induction n as [ro l d | es0 IH] using node_induction; intros es E; [discriminate|].
  injection E as ->. intros p w Hp Hcase. simpl rmtree_unsafe.
  destruct Hcase as [[Hl Hu]|Hl].
  - apply unlocked_dir in Hu.
    destruct (rm_children_removes es IH Hu p [] w Hp) as (w1 & H1 & Hl1 & Hd).
    { rewrite Hl. unfold without. simpl. now rewrite filter_true. }
    rewrite (bind_run _ _ _ _ _ H1), (rmdir_removes p w1 Hp Hl1).
    eexists. split; [reflexivity|]. simpl. exact Hd.
  - destruct (rm_children_gone es IH p w Hl) as (w1 & H1 & Hf1).
    rewrite (bind_run _ _ _ _ _ H1), rmdir_absent by (now rewrite Hf1).
    eexists. split; [reflexivity|]. rewrite Hf1. symmetry. now apply del_path_absent.
Qed.

Lemma safe_rmtree_removes p w es :
  p <> [] ->
  lookup_path (fs w) p = Some (Dir es) ->
  unlocked_entries es ->
  exists w',
    safe_rmtree p w = (Ok tt, w')
    /\ fs w' = del_path p (fs w)
    /\ same_but_fs w w'.
Proof.
  intros Hp Hl Hu.
  destruct (directories_removable (Dir es) es eq_refl p w Hp) as (w' & Hr & Hf).
  { left. split; [exact Hl | now apply unlocked_dir]. }
  assert (Hs : shutil_rmtree p handle_remove_readonly w = (Ok tt, w')).
  { unfold shutil_rmtree. now rewrite Hl. }
  exists w'. split; [|split; [exact Hf | eapply shutil_rmtree_frame; eauto]].
  unfold safe_rmtree, bind, os_path_exists, exists_, try_except.
  now rewrite Hl, Hs.
Qed.

Lemma put_path_after_del p v f x :
  p <> [] ->
  lookup_path f p = Some x ->
  exists f', put_path p v (del_path p f) = Some f'.
Proof.
  revert f. induction p as [|c p IH]; intros f Hp H; [congruence|].
  destruct f as [|es]; [discriminate|]. simpl in H.
  destruct (aget c es) as [y|] eqn:E; [|discriminate].
  destruct p as [|c' p].
  - simpl. eauto.
  - rewrite del_path_cons, E by discriminate.
    destruct (IH y) as (f' & Hf'); [discriminate | exact H |].
    remember (c' :: p) as q. simpl. rewrite aget_aset_same, Hf'. eauto.
Qed.

(** * What the copy leaves in the clone can be removed *)












(** * The copying loop returns when the merge goes through *)







(** * Directories without files in the clone *)



















(** * Copying into a clone of what was pushed *)













(** * Two runs in a row *)

Lemma cleanup_world_facts cp wp o1 o2 :
  let w2 := snd (safe_rmtree cp (set_out o1 wp)) in
  remotes (set_out (o2 w2) w2) = remotes wp
  /\ outside_kept cp wp (set_out (o2 w2) w2).
Proof.
  intros w2. destruct (safe_rmtree cp (set_out o1 wp)) as [r w2'] eqn:E.
  subst w2. simpl snd.
  destruct (safe_rmtree_respects_git_kept cp _ _ _ E) as [_ Hm].
  pose proof (safe_rmtree_outside cp _ _ _ E) as Ho. split.
  - simpl. now rewrite Hm.
  - intros q Hq. simpl. now rewrite (Ho q Hq).
Qed.

Lemma cleanup_no_commit_line cp wx :
  let w2 := snd (safe_rmtree cp (set_out (out wx ++ ["Performing cleanup..."]) wx)) in
  no_commit_line wx (set_out (out w2 ++ ["Cleanup completed"]) w2).
Proof.
  intros w2.
  apply no_commit_line_trans with (set_out (out wx ++ ["Performing cleanup..."]) wx).
  { apply (print_no_commit_line "Performing cleanup..." eq_refl wx (Ok tt)). reflexivity. }
  apply no_commit_line_trans with w2.
  { apply (safe_rmtree_no_commit cp _ (fst (safe_rmtree cp
             (set_out (out wx ++ ["Performing cleanup..."]) wx)))).
    apply surjective_pairing. }
  apply (print_no_commit_line "Cleanup completed" eq_refl w2 (Ok tt)). reflexivity.
Qed.







(** * Both operations write below one directory only *)

Create HintDb outside.

Ltac prim_outside cp :=
  respects_steps (outside_kept_refl cp) (outside_kept_trans cp);
  auto with outside;
  try (leaf_run;
       first [ apply outside_kept_refl
             | apply outside_kept_same_fs; reflexivity ]).

Section OutsideRun.
Variable cp : path.

Lemma print_outside s : respects (outside_kept cp) (print s).
Proof. unfold print. prim_outside cp. Qed.
Lemma os_path_abspath_outside s : respects (outside_kept cp) (os_path_abspath s).
Proof. unfold os_path_abspath. prim_outside cp. Qed.
Lemma os_path_exists_outside p : respects (outside_kept cp) (os_path_exists p).
Proof. unfold os_path_exists. prim_outside cp. Qed.
Lemma os_path_isdir_outside p : respects (outside_kept cp) (os_path_isdir p).
Proof. unfold os_path_isdir. prim_outside cp. Qed.
Lemma os_listdir_outside p : respects (outside_kept cp) (os_listdir p).
Proof. unfold os_listdir. prim_outside cp. Qed.
Lemma get_repo_outside p : respects (outside_kept cp) (get_repo p).
Proof. unfold get_repo. prim_outside cp. Qed.
Lemma put_repo_outside p r : respects (outside_kept cp) (put_repo p r).
Proof. unfold put_repo. prim_outside cp. Qed.
Lemma Repo_open_outside p : respects (outside_kept cp) (Repo_open p).
Proof. unfold Repo_open. prim_outside cp. Qed.

Lemma put_below_outside x v w f :
  put_path (cp ++ x) v (fs w) = Some f -> outside_kept cp w (set_fs f w).
Proof.
  intros H q Hq. simpl. eapply lookup_put_diverge; [|exact H].
  now apply diverge_app_l.
Qed.

Lemma shutil_copytree_outside src x deo :
  respects (outside_kept cp) (shutil_copytree src (cp ++ x) deo).
Proof.
  intros w r w' H. unfold shutil_copytree in H. break_run H;
    first [ apply outside_kept_refl | eapply put_below_outside; eassumption ].
Qed.

Lemma shutil_copy2_outside src x :
  respects (outside_kept cp) (shutil_copy2 src (cp ++ x)).
Proof.
  intros w r w' H. unfold shutil_copy2 in H.
  destruct (is_dir (fs w) (cp ++ x)).
  - rewrite <- app_assoc in H. break_run H;
      first [ apply outside_kept_refl | eapply put_below_outside; eassumption ].
  - break_run H;
      first [ apply outside_kept_refl | eapply put_below_outside; eassumption ].
Qed.

Lemma Repo_clone_from_outside url : respects (outside_kept cp) (Repo_clone_from url cp).
Proof.
  intros w r w' H. unfold Repo_clone_from in H. break_run H;
    try apply outside_kept_refl;
    intros q Hq; simpl; eapply lookup_put_diverge; eauto.
Qed.

Lemma switch_to_outside name r : respects (outside_kept cp) (switch_to cp name r).
Proof.
  intros w r0 w' H. unfold switch_to in H. break_run H;
    try apply outside_kept_refl;
    try (apply outside_kept_same_fs; reflexivity);
    intros q Hq; simpl; eapply lookup_put_diverge; eauto.
Qed.

#[local] Hint Resolve print_outside os_path_abspath_outside os_path_exists_outside
  os_path_isdir_outside os_listdir_outside get_repo_outside put_repo_outside
  Repo_open_outside shutil_copytree_outside shutil_copy2_outside
  Repo_clone_from_outside switch_to_outside safe_rmtree_outside : outside.

Lemma repo_branch_names_outside p : respects (outside_kept cp) (repo_branch_names p).
Proof. unfold repo_branch_names. prim_outside cp. Qed.
Lemma repo_ref_names_outside p : respects (outside_kept cp) (repo_ref_names p).
Proof. unfold repo_ref_names. prim_outside cp. Qed.
Lemma git_checkout_outside name : respects (outside_kept cp) (git_checkout cp name).
Proof. unfold git_checkout. prim_outside cp. Qed.
Lemma git_checkout_b_outside name start :
  respects (outside_kept cp) (git_checkout_b cp name start).
Proof. unfold git_checkout_b. prim_outside cp. Qed.
Lemma git_add_all_outside p : respects (outside_kept cp) (git_add_all p).
Proof. unfold git_add_all. prim_outside cp. Qed.
Lemma repo_is_dirty_outside p : respects (outside_kept cp) (repo_is_dirty p).
Proof. unfold repo_is_dirty. prim_outside cp. Qed.
Lemma repo_untracked_files_outside p :
  respects (outside_kept cp) (repo_untracked_files p).
Proof. unfold repo_untracked_files. prim_outside cp. Qed.
Lemma index_commit_outside p m : respects (outside_kept cp) (index_commit p m).
Proof. unfold index_commit. prim_outside cp. Qed.
Lemma repo_remote_origin_outside p : respects (outside_kept cp) (repo_remote_origin p).
Proof. unfold repo_remote_origin. prim_outside cp. Qed.
Lemma remote_push_outside p u : respects (outside_kept cp) (remote_push p u).
Proof. unfold remote_push. prim_outside cp. Qed.

#[local] Hint Resolve repo_branch_names_outside repo_ref_names_outside
  git_checkout_outside git_checkout_b_outside git_add_all_outside
  repo_is_dirty_outside repo_untracked_files_outside index_commit_outside
  repo_remote_origin_outside remote_push_outside : outside.

Lemma cp_copy_outside lp : respects (outside_kept cp) (cp_copy lp cp).
Proof. unfold cp_copy, cp_copy_item, os_path_join. prim_outside cp. Qed.

Lemma pe_copy_outside lp : respects (outside_kept cp) (pe_copy lp cp).
Proof. unfold pe_copy, pe_copy_item, os_path_join. prim_outside cp. Qed.

Lemma cp_publish_outside m : respects (outside_kept cp) (cp_publish cp m).
Proof. unfold cp_publish, cp_push. prim_outside cp. Qed.

Lemma pe_publish_outside m : respects (outside_kept cp) (pe_publish cp m).
Proof. unfold pe_publish, pe_push. prim_outside cp. Qed.

Lemma cp_acquire_outside url lp : respects (outside_kept cp) (cp_acquire url lp cp).
Proof. unfold cp_acquire. prim_outside cp. Qed.

Lemma cp_switch_branch_outside b : respects (outside_kept cp) (cp_switch_branch cp b).
Proof. unfold cp_switch_branch. prim_outside cp. Qed.
End OutsideRun.

Lemma cp_acquire_returns url lp cp w a w' :
  cp_acquire url lp cp w = (Ok a, w') -> a = cp.
Proof. intros H. now destruct (cp_acquire_ok _ _ _ _ _ _ H) as (_ & _ & -> & _). Qed.

Lemma cp_steps_outside url lp cp m b :
  respects (outside_kept cp)
    (repo <- cp_acquire url lp cp ;;
     cp_switch_branch repo b ;;
     cp_copy lp cp ;;
     cp_publish repo m).
Proof.
  apply (respects_bind_val _ (outside_kept_trans cp) _ _ (fun a => a = cp)).
  - intros w a w'. apply cp_acquire_returns.
  - apply cp_acquire_outside.
  - intros a ->.
    apply (respects_bind _ (outside_kept_trans cp)); [apply cp_switch_branch_outside|].
    intros _. apply (respects_bind _ (outside_kept_trans cp)); [apply cp_copy_outside|].
    intros _. apply cp_publish_outside.
Qed.

Lemma pe_open_returns l p b w a w' : pe_open l p b w = (Ok a, w') -> a = p.
Proof.
  unfold pe_open. intros H.
  apply bind_ok in H as ([] & w1 & _ & H). apply bind_ok in H as ([] & w2 & _ & H).
  apply bind_ok in H as (a0 & w3 & H3 & H). apply Repo_open_returns in H3. subst a0.
  apply bind_ok in H as (bs & w4 & _ & H). apply bind_ok in H as ([] & w5 & _ & H).
  now injection H as <- _.
Qed.

Lemma pe_open_outside l p b : respects (outside_kept p) (pe_open l p b).
Proof.
  unfold pe_open.
  apply (respects_bind _ (outside_kept_trans p)); [apply print_outside|]. intros _.
  apply (respects_bind _ (outside_kept_trans p)); [apply print_outside|]. intros _.
  apply (respects_bind_val _ (outside_kept_trans p) _ _ (fun a => a = p)).
  - intros w a w'. apply Repo_open_returns.
  - apply Repo_open_outside.
  - intros a ->.
    apply (respects_bind _ (outside_kept_trans p)); [apply repo_branch_names_outside|].
    intros bs. apply (respects_bind _ (outside_kept_trans p)).
    + destruct (mem b bs); [|apply (respects_ret _ (outside_kept_refl p))].
      apply (respects_bind _ (outside_kept_trans p));
        [apply git_checkout_outside | intros _; apply print_outside].
    + intros _. apply (respects_ret _ (outside_kept_refl p)).
Qed.

Lemma pe_steps_outside lp p m b :
  respects (outside_kept p)
    (repo <- pe_open lp p b ;; pe_copy lp p ;; pe_publish repo m).
Proof.
  apply (respects_bind_val _ (outside_kept_trans p) _ _ (fun a => a = p)).
  - intros w a w'. apply pe_open_returns.
  - apply pe_open_outside.
  - intros a ->.
    apply (respects_bind _ (outside_kept_trans p)); [apply pe_copy_outside|].
    intros _. apply pe_publish_outside.
Qed.

Lemma clone_and_push_outside (url : string) (l c : pathstr) (m b : string) (w : world) :
  outside_kept (abspath_in w c) w (snd (clone_and_push_folder_fixed url l c m b w)).
Proof.
  destruct (cp_body url l c m b w) as [res w0] eqn:Hb.
  pose proof (clone_and_push_run url l c m b w _ _ Hb) as Hrun. simpl in Hrun.
  rewrite cp_body_unfold in Hb. apply cp_steps_outside in Hb.
  set (cp := abspath_in w c) in *.
  set (w1 := match res with
             | Ok _ => w0
             | Raise e => set_out (out w0 ++ [error_line e]) w0
             end) in *.
  assert (H1 : outside_kept cp w w1).
  { subst w1. destruct res; [exact Hb|]. intros q Hq. simpl. now apply Hb. }
  destruct (cleanup_world_facts cp w1 (out w1 ++ ["Performing cleanup..."])
              (fun v => out v ++ ["Cleanup completed"])) as [_ H2].
  rewrite Hrun. simpl snd.
  intros q Hq. rewrite (H2 q Hq). now apply H1.
Qed.

(** X1.  [clone_and_push_folder_fixed] writes below its clone directory and
    nowhere else: whatever the run does and however it ends, every path that
    does not lie inside the clone directory (nor is one of its parents)
    resolves afterwards to what it resolved to before, and the working
    directory is the same. *)
Theorem clone_run_writes_below_clone_dir
    (url : string) (l c : pathstr) (m b : string) (w : world) :
  let w' := snd (clone_and_push_folder_fixed url l c m b w) in
  cwd w' = cwd w
  /\ forall q,
       diverge (abspath_in w c) q = true ->
       lookup_path (fs w') q = lookup_path (fs w) q.
Proof.
  intros w'. split.
  - destruct (clone_and_push_steady url l c m b w
                (fst (clone_and_push_folder_fixed url l c m b w)) w') as [H _]; auto.
    apply surjective_pairing.
  - exact (clone_and_push_outside url l c m b w).
Qed.

(** X2.  [push_to_existing_repo] writes below the repository path and
    nowhere else, whatever it does and however it ends; the working
    directory is the same. *)
Theorem existing_run_writes_below_repo_path
    (l r : pathstr) (m b : string) (w : world) :
  let w' := snd (push_to_existing_repo l r m b w) in
  cwd w' = cwd w
  /\ forall q,
       diverge (abspath_in w r) q = true ->
       lookup_path (fs w') q = lookup_path (fs w) q.
Proof.
  intros w'. subst w'. unfold push_to_existing_repo, try_except.
  destruct (pe_body l r m b w) as [[[]|e] w0] eqn:Hb.
  - simpl. split.
    + now destruct (pe_body_steady l r m b _ _ _ Hb).
    + rewrite pe_body_unfold in Hb. exact (pe_steps_outside _ _ _ _ _ _ _ Hb).
  - simpl. split.
    + now destruct (pe_body_steady l r m b _ _ _ Hb).
    + rewrite pe_body_unfold in Hb. exact (pe_steps_outside _ _ _ _ _ _ _ Hb).
Qed.

(** * More on [safe_rmtree] *)

(** X3.  [safe_rmtree] removes a directory tree in which no file is held
    open, read-only files included: the path is gone, nothing else on disk
    has changed, nothing is printed, and the repositories are untouched. *)
Theorem safe_rmtree_removes_read_only_trees (p : path) (w : world) (es : entries) :
  p <> [] ->
  lookup_path (fs w) p = Some (Dir es) ->
  unlocked_entries es ->
  exists w',
    safe_rmtree p w = (Ok tt, w')
    /\ fs w' = del_path p (fs w)
    /\ lookup_path (fs w') p = None
    /\ out w' = out w
    /\ repos w' = repos w /\ remotes w' = remotes w /\ cwd w' = cwd w.
Proof.
  intros Hp Hl Hu.
  destruct (safe_rmtree_removes p w es Hp Hl Hu) as (w' & Hr & Hf & Hc & Hrp & Hrm & Ho).
  exists w'. split; [exact Hr|]. split; [exact Hf|]. split.
  - rewrite Hf. now apply lookup_del_path.
  - auto.
Qed.

Lemma safe_rmtree_removes_read_only_trees_witness :
  exists w',
    safe_rmtree ["home"; "temp_repo"] ex_world_stale = (Ok tt, w')
    /\ fs w' = fs (ex_world true).
Proof.
  destruct (safe_rmtree_removes_read_only_trees ["home"; "temp_repo"] ex_world_stale
              ex_stale) as (w' & Hr & Hf & _).
  - discriminate.
  - reflexivity.
  - simpl. auto 10.
  - exists w'. split; [exact Hr|]. rewrite Hf. reflexivity.
Defined.

(** X4.  [safe_rmtree] does not remove a plain file.  [shutil.rmtree] fails
    to list it, the handler clears the read-only attribute and fails to
    list it again, and [safe_rmtree] prints the warning: the file is still
    there, writable now, with its content. *)
Theorem safe_rmtree_keeps_a_plain_file
    (p : path) (w : world) (ro locked : bool) (data : string) :
  lookup_path (fs w) p = Some (File ro locked data) ->
  safe_rmtree p w
  = (Ok tt,
     set_out (out w ++ [rmtree_warning p (NotADirectoryError p)])
       (set_fs (repl p (File false locked data) (fs w)) w))
  /\ lookup_path (repl p (File false locked data) (fs w)) p
     = Some (File false locked data).
Proof.
  intros H. split; [|eapply lookup_repl; eauto].
  unfold safe_rmtree, bind, os_path_exists, exists_, try_except. rewrite H.
  unfold shutil_rmtree. rewrite H. simpl rmtree_unsafe.
  unfold bind at 1. unfold handle_remove_readonly at 1.
  unfold bind at 1, os_path_exists, exists_. rewrite H.
  unfold bind at 1, os_chmod_S_IWRITE. rewrite H.
  rewrite (put_path_exists _ _ _ _ H). simpl call_func. unfold os_scandir.
  rewrite fs_set_fs, (lookup_repl _ _ _ _ H). reflexivity.
Qed.

Lemma safe_rmtree_keeps_a_plain_file_witness :
  lookup_path (fs (snd (safe_rmtree ["home"; "certs"; "a.pdf"] (ex_world true))))
    ["home"; "certs"; "a.pdf"] = Some (File false false "A")
  /\ out (snd (safe_rmtree ["home"; "certs"; "a.pdf"] (ex_world true)))
     = ["Warning: Could not completely remove /home/certs/a.pdf: Not a directory: /home/certs/a.pdf"].
Proof.
  destruct (safe_rmtree_keeps_a_plain_file ["home"; "certs"; "a.pdf"] (ex_world true)
              true false "A" eq_refl) as [Hr Hl].
  rewrite Hr. split; [exact Hl | reflexivity].
Defined.

(** * Cloning: an old clone directory, an unknown repository *)

(** X5.  Lines 45-53: a clone directory left by an earlier run, in which no
    file is held open, is removed before the clone, read-only files
    included.  The clone then succeeds, and the directory holds the fresh
    clone and nothing of what it held before. *)
Theorem stale_clone_dir_is_replaced
    (url : string) (lp cp : path) (w : world) (es : entries) (rm : remote) :
  cp <> [] ->
  lookup_path (fs w) cp = Some (Dir es) ->
  unlocked_entries es ->
  aget url (remotes w) = Some rm ->
  exists w',
    cp_acquire url lp cp w = (Ok cp, w')
    /\ lookup_path (fs w') cp = Some (Dir (cloned_tree rm))
    /\ rget cp (repos w') = Some (cloned_repo url rm)
    /\ out w'
       = out w ++ [("Local folder: " ++ show_path lp)%string;
                   ("Clone directory: " ++ show_path cp)%string;
                   "Removing existing clone directory...";
                   ("Cloning repository from " ++ url ++ "...")%string;
                   "Repository cloned successfully"].
Proof.
  intros Hcp Hl Hu Hrm.
  set (w0 := set_out (out w ++ [("Local folder: " ++ show_path lp)%string]) w).
  set (w1 := set_out (out w0 ++ [("Clone directory: " ++ show_path cp)%string]) w0).
  set (w2 := set_out (out w1 ++ ["Removing existing clone directory..."]) w1).
  destruct (safe_rmtree_removes cp w2 es Hcp Hl Hu)
    as (w3 & Hr & Hf & Hc & Hrp & Hrem & Ho).
  assert (Hgone : lookup_path (fs w3) cp = None)
    by (rewrite Hf; now apply lookup_del_path).
  destruct (put_path_after_del cp (Dir (cloned_tree rm)) (fs w2) _ Hcp Hl) as (f & Hput).
  rewrite <- Hf in Hput.
  set (w4 := set_out (out w3 ++ [("Cloning repository from " ++ url ++ "...")%string]) w3).
  set (w5 := set_repos (rset cp (cloned_repo url rm) (repos w4)) (set_fs f w4)).
  assert (He : os_path_exists cp w1 = (Ok true, w1)).
  { unfold os_path_exists, exists_. simpl fs. now rewrite Hl. }
  assert (Hrmv : (print "Removing existing clone directory..." ;; safe_rmtree cp) w1
                 = (Ok tt, w3)).
  { unfold bind, print. fold w2. now rewrite Hr. }
  assert (Hclone : Repo_clone_from url cp w4 = (Ok cp, w5)).
  { unfold Repo_clone_from. simpl remotes. rewrite Hrem. simpl remotes. rewrite Hrm.
    simpl fs. now rewrite Hgone, Hput. }
  exists (set_out (out w5 ++ ["Repository cloned successfully"]) w5).
  split; [|split; [|split]].
  - unfold cp_acquire.
    rewrite (bind_run _ _ _ _ _ (print_run _ w)). fold w0.
    rewrite (bind_run _ _ _ _ _ (print_run _ w0)). fold w1.
    rewrite (bind_run _ _ _ _ _ He). cbv iota.
    rewrite (bind_run _ _ _ _ _ Hrmv).
    rewrite (bind_run _ _ _ _ _ (print_run _ w3)). fold w4.
    rewrite (bind_run _ _ _ _ _ Hclone).
    rewrite (bind_run _ _ _ _ _ (print_run _ w5)). reflexivity.
  - simpl. exact (lookup_put_path _ _ _ _ Hput).
  - simpl. apply rget_rset_same.
  - simpl. rewrite Ho. simpl. rewrite <- !app_assoc. reflexivity.
Qed.

Lemma stale_clone_dir_is_replaced_witness :
  exists w',
    cp_acquire "url" ["home"; "certs"] ["home"; "temp_repo"] ex_world_stale = (Ok ["home"; "temp_repo"], w')
    /\ lookup_path (fs w') ["home"; "temp_repo"; "old.pdf"] = None
    /\ lookup_path (fs w') ["home"; "temp_repo"; "README"] = Some (File false false "hello").
Proof.
  destruct (stale_clone_dir_is_replaced "url" ["home"; "certs"] ["home"; "temp_repo"]
              ex_world_stale ex_stale (ex_remote true))
    as (w' & Hr & Hl & _).
  - discriminate.
  - reflexivity.
  - simpl. auto 10.
  - reflexivity.
  - exists w'. split; [exact Hr|].
    change ["home"; "temp_repo"; "old.pdf"] with (["home"; "temp_repo"] ++ ["old.pdf"]).
    change ["home"; "temp_repo"; "README"] with (["home"; "temp_repo"] ++ ["README"]).
    rewrite !lookup_path_app, Hl. split; reflexivity.
Defined.

Lemma cp_acquire_unknown url lp cp w :
  aget url (remotes w) = None ->
  exists w3 l0,
    cp_acquire url lp cp w
    = (Raise (GitCommandError ("repository '" ++ url ++ "' not found")), w3)
    /\ git_kept w w3
    /\ out w3 = out w ++ l0 ++ [("Cloning repository from " ++ url ++ "...")%string].
Proof.
  intros Hrm.
  set (w0 := set_out (out w ++ [("Local folder: " ++ show_path lp)%string]) w).
  set (w1 := set_out (out w0 ++ [("Clone directory: " ++ show_path cp)%string]) w0).
  assert (Hstep : exists w2 l,
             (if exists_ (fs w1) cp
              then print "Removing existing clone directory..." ;; safe_rmtree cp
              else ret tt) w1 = (Ok tt, w2)
             /\ git_kept w1 w2 /\ out w2 = out w1 ++ l).
  { destruct (exists_ (fs w1) cp).
    - unfold bind, print.
      set (w2 := set_out (out w1 ++ ["Removing existing clone directory..."]) w1).
      pose proof (safe_rmtree_ok cp w2) as Hok.
      pose proof (safe_rmtree_git_kept cp w2) as Hg.
      destruct (safe_rmtree cp w2) as [r w3] eqn:E. simpl in Hok, Hg. subst r.
      destruct (safe_rmtree_steady cp _ _ _ E) as [_ [l Hl]].
      exists w3, ("Removing existing clone directory..." :: l).
      split; [reflexivity|]. split; [exact Hg|].
      rewrite Hl. subst w2. simpl out. now rewrite <- app_assoc.
    - exists w1, []. split; [reflexivity|]. split; [apply git_kept_refl|].
      now rewrite app_nil_r. }
  destruct Hstep as (w2 & l & Hstep & [Hrp Hrem] & Ho).
  set (w4 := set_out (out w2 ++ [("Cloning repository from " ++ url ++ "...")%string]) w2).
  assert (Hclone : Repo_clone_from url cp w4
                   = (Raise (GitCommandError ("repository '" ++ url ++ "' not found")), w4)).
  { unfold Repo_clone_from. simpl remotes. rewrite Hrem. simpl remotes. now rewrite Hrm. }
  exists w4, ([("Local folder: " ++ show_path lp)%string;
               ("Clone directory: " ++ show_path cp)%string] ++ l).
  split; [|split].
  - unfold cp_acquire.
    rewrite (bind_run _ _ _ _ _ (print_run _ w)). fold w0.
    rewrite (bind_run _ _ _ _ _ (print_run _ w0)). fold w1.
    rewrite (bind_run _ _ _ _ _ (eq_refl : os_path_exists cp w1 = (Ok (exists_ (fs w1) cp), w1))).
    rewrite (bind_run _ _ _ _ _ Hstep).
    rewrite (bind_run _ _ _ _ _ (print_run _ w2)). fold w4.
    now rewrite (bind_run_raise _ _ _ _ _ Hclone).
  - split; simpl; [rewrite Hrp | rewrite Hrem]; reflexivity.
  - simpl. rewrite Ho. simpl. rewrite <- !app_assoc. reflexivity.
Qed.

(** X6.  When the repository URL is not known to git, the clone (line 52)
    raises: [clone_and_push_folder_fixed] prints the error as
    ["Git command error: ..."] right after the ["Cloning repository ..."]
    line and goes on to its cleanup.  No repository, local or remote, has
    changed. *)
Theorem unknown_repository_is_reported
    (url : string) (l c : pathstr) (m b : string) (w : world) :
  aget url (remotes w) = None ->
  let w' := snd (clone_and_push_folder_fixed url l c m b w) in
  repos w' = repos w
  /\ remotes w' = remotes w
  /\ exists before after,
       out w'
       = out w ++ before
         ++ [("Cloning repository from " ++ url ++ "...")%string;
             ("Git command error: repository '" ++ url ++ "' not found")%string;
             "Performing cleanup..."]
         ++ after.
Proof.
  intros Hrm w'.
  destruct (cp_acquire_unknown url (abspath_in w l) (abspath_in w c) w Hrm)
    as (w3 & l0 & Hacq & [Hrp Hrem] & Ho).
  assert (Hb : cp_body url l c m b w
               = (Raise (GitCommandError ("repository '" ++ url ++ "' not found")), w3)).
  { rewrite cp_body_unfold. now rewrite (bind_run_raise _ _ _ _ _ Hacq). }
  pose proof (clone_and_push_run url l c m b w _ _ Hb) as Hrun. cbv zeta in Hrun.
  set (w1 := set_out (out w3 ++ [error_line (GitCommandError
                                   ("repository '" ++ url ++ "' not found"))]) w3) in *.
  set (wq := set_out (out w1 ++ ["Performing cleanup..."]) w1) in *.
  pose proof (safe_rmtree_git_kept (abspath_in w c) wq) as [Hg1 Hg2].
  destruct (safe_rmtree (abspath_in w c) wq) as [r w2] eqn:E.
  destruct (safe_rmtree_steady _ _ _ _ E) as [_ [l2 Hl2]].
  simpl snd in *. subst w'. rewrite Hrun. simpl snd.
  split; [simpl; rewrite Hg1; simpl; exact Hrp|].
  split; [simpl; rewrite Hg2; simpl; exact Hrem|].
  exists l0, (l2 ++ ["Cleanup completed"]).
  simpl out. rewrite Hl2. simpl out. rewrite Ho. unfold error_line. simpl.
  rewrite <- !app_assoc. reflexivity.
Qed.

Lemma unknown_repository_is_reported_witness :
  out (snd (clone_and_push_folder_fixed "other" (Rel ["certs"]) default_clone_dir
              default_clone_message default_branch_name (ex_world true)))
  = ["Local folder: /home/certs"; "Clone directory: /home/temp_repo";
     "Cloning repository from other...";
     "Git command error: repository 'other' not found";
     "Performing cleanup..."; "Cleanup completed"]
  /\ remotes (snd (clone_and_push_folder_fixed "other" (Rel ["certs"]) default_clone_dir
                     default_clone_message default_branch_name (ex_world true)))
     = remotes (ex_world true).
Proof.
  destruct (unknown_repository_is_reported "other" (Rel ["certs"]) default_clone_dir
              default_clone_message default_branch_name (ex_world true) eq_refl)
    as (_ & Hrem & _).
  split; [reflexivity | exact Hrem].
Defined.

(** * Branch selection in [clone_and_push_folder_fixed] *)

Lemma switch_to_out p name r w res w' :
  switch_to p name r w = (res, w') -> out w' = out w.
Proof. intros H. unfold switch_to in H. break_run H; reflexivity. Qed.

(** X7.  Lines 55-66 on a fresh clone.  When the remote has the branch, the
    clone ends on it with its tree checked out: the default branch is
    switched to as it is, any other is first created from [origin/<name>].
    When the remote does not have it, the clone stays on the default branch.
    In each case exactly one line tells which, nothing is raised, and the
    remote is not changed. *)
Theorem clone_branch_selection
    (url : string) (rm : remote) (cp : path) (b : string) (w : world) :
  r_default rm <> ("origin/" ++ b)%string ->
  lookup_path (fs w) cp = Some (Dir (cloned_tree rm)) ->
  rget cp (repos w) = Some (cloned_repo url rm) ->
  exists w' line,
    cp_switch_branch cp b w = (Ok tt, w')
    /\ out w' = out w ++ [line]
    /\ remotes w' = remotes w
    /\ match aget b (r_branches rm) with
       | Some _ =>
           on_branch cp url rm b w'
           /\ line = (if String.eqb b (r_default rm)
                      then "Switched to existing branch: " ++ b
                      else "Created and switched to branch: " ++ b)%string
       | None =>
           on_branch cp url rm (r_default rm) w'
           /\ line = ("Using current branch (could not find " ++ b ++ ")")%string
       end.
Proof.
  intros Hd Hl Hr. unfold cp_switch_branch, try_except.
  rewrite (bind_run _ _ _ _ _ (repo_branch_names_run _ _ _ Hr)).
  assert (Hstay : forall s,
             on_branch cp url rm (r_default rm) (set_out s w)).
  { intros s. unfold on_branch. simpl.
    split; [exact Hl|]. eexists. split; [exact Hr|].
    split; [reflexivity|]. split; [apply cloned_heads_default | reflexivity]. }
  destruct (String.eqb_spec b (r_default rm)) as [->|Hb].
  - rewrite mem_names, cloned_heads_aget_default.
    destruct (aget (r_default rm) (r_branches rm)) as [h|] eqn:E.
    + assert (E' : aget (r_default rm) (heads (cloned_repo url rm)) = Some h)
        by (now rewrite cloned_heads_aget_default).
      assert (G : git_checkout cp (r_default rm) w
                  = (Ok tt, set_repos (rset cp (with_head_branch (r_default rm)
                                                   (cloned_repo url rm)) (repos w)) w)).
      { rewrite (git_checkout_run _ _ _ _ _ Hr E'). now apply switch_to_same. }
      rewrite (bind_run _ _ _ _ _ G). unfold print.
      eexists. eexists. split; [reflexivity|]. split; [reflexivity|].
      split; [reflexivity|]. split; [|reflexivity].
      unfold on_branch. simpl.
      split; [exact Hl|]. eexists. rewrite rget_rset_same. split; [reflexivity|].
      split; [reflexivity|]. split; [apply cloned_heads_default | reflexivity].
    + rewrite (bind_run _ _ _ _ _ (repo_ref_names_run _ _ _ Hr)).
      rewrite mem_names, (cloned_refs_aget url _ _ Hd), E.
      unfold print. eexists. eexists. split; [reflexivity|]. split; [reflexivity|].
      split; [reflexivity|]. split; [apply Hstay | reflexivity].
  - rewrite mem_names, (cloned_heads_other url _ _ Hb).
    rewrite (bind_run _ _ _ _ _ (repo_ref_names_run _ _ _ Hr)).
    rewrite mem_names, (cloned_refs_aget url _ _ Hd).
    destruct (aget b (r_branches rm)) as [h|] eqn:Hh.
    + pose proof (git_checkout_b_run cp b ("origin/" ++ b)%string _ h w Hr
                    (cloned_heads_other url _ _ Hb)) as G.
      rewrite (cloned_refs_aget url _ _ Hd) in G. specialize (G Hh).
      set (r1 := with_heads (aset b h (heads (cloned_repo url rm))) (cloned_repo url rm))
        in *.
      assert (Hdef : branch_history (heads r1) (r_default rm)
                     = branch_history (r_branches rm) (r_default rm)).
      { unfold branch_history. subst r1. simpl heads.
        rewrite aget_aset_other by exact Hb. exact (cloned_heads_default url rm). }
      destruct (switch_to_clean cp b r1 w)
        as (w1 & Hsw & Hl1 & Hm1 & Ho1 & r' & Hr' & Hh' & Hb' & Hor').
      { rewrite Hl. unfold cloned_tree, head_tree. do 2 f_equal. f_equal.
        symmetry. apply branch_tree_history. exact Hdef. }
      { unfold head_tree. simpl. symmetry. apply branch_tree_history. exact Hdef. }
      pose proof (switch_to_out _ _ _ _ _ _ Hsw) as Hout.
      rewrite Hsw in G. rewrite (bind_run _ _ _ _ _ G). unfold print.
      eexists. eexists. split; [reflexivity|].
      split; [simpl; rewrite Hout; reflexivity|].
      split; [exact Hm1|]. split; [|reflexivity].
      unfold on_branch. simpl. split.
      * rewrite Hl1. do 3 f_equal. apply branch_tree_history.
        unfold branch_history. subst r1. simpl heads. now rewrite aget_aset_same, Hh.
      * exists r'. split; [exact Hr'|]. split; [exact Hb'|]. split; [|now rewrite Hor'].
        rewrite Hh'. unfold branch_history. subst r1. simpl heads.
        now rewrite aget_aset_same, Hh.
    + unfold print. eexists. eexists. split; [reflexivity|]. split; [reflexivity|].
      split; [reflexivity|]. split; [apply Hstay | reflexivity].
Qed.

Lemma clone_branch_selection_witness :
  let w := snd (cp_acquire "url" ["home"; "certs"] ["home"; "temp_repo"] (ex_world true)) in
  exists w',
    cp_switch_branch ["home"; "temp_repo"] "dev" w = (Ok tt, w')
    /\ last (out w') "" = "Created and switched to branch: dev"
    /\ lookup_path (fs w') ["home"; "temp_repo"; "dev.txt"] = Some (File false false "wip").
Proof.
  intros w.
  destruct (clone_branch_selection "url" (ex_remote true) ["home"; "temp_repo"] "dev" w)
    as (w' & line & Hr & Ho & _ & [Hl _] & Hline).
  - discriminate.
  - reflexivity.
  - reflexivity.
  - exists w'. split; [exact Hr|]. split.
    + rewrite Ho, last_last. exact Hline.
    + change ["home"; "temp_repo"; "dev.txt"] with (["home"; "temp_repo"] ++ ["dev.txt"]).
      rewrite lookup_path_app, Hl. reflexivity.
Defined.

(** * What a run of [clone_and_push_folder_fixed] leaves on the remote *)


Lemma last_app_one (l : list string) s : In s (l ++ [s]).
Proof. apply in_or_app. right. now left. Qed.







(** X8.  With an empty source folder, a run of
    [clone_and_push_folder_fixed] that gets as far as staging finds nothing
    to commit: it prints ["No changes to commit"] and leaves the remote as
    it is. *)
Theorem empty_source_folder_commits_nothing
    (url : string) (l c : pathstr) (m b : string) (w0 : world)
    (rm0 : remote) (repo : path) (wc : world) :
  let lp := abspath_in w0 l in
  let cp := abspath_in w0 c in
  let w1 := snd (clone_and_push_folder_fixed url l c m b w0) in
  diverge cp lp = true ->
  lookup_path (fs w0) lp = Some (Dir []) ->
  aget url (remotes w0) = Some rm0 ->
  r_default rm0 <> ("origin/" ++ b)%string ->
  cp_prefix url lp cp b w0 = (Ok repo, wc) ->
  remotes w1 = remotes w0
  /\ exists lines,
       out w1 = out wc ++ lines
       /\ In "No changes to commit" lines
       /\ ~ In (committed_line_clone m) lines.
Proof.
  intros lp cp w1 Hdiv Hl Hrm Hd Hpre.
  destruct (cp_prefix_ok url lp cp b w0 repo wc [] rm0 Hdiv Hl Hrm Hd Hpre)
    as (-> & Hmc & Hoc & r & rs & Hr & Hb & Hh & Hor & Hmerge & Hlc).
  simpl in Hmerge. injection Hmerge as <-.
  assert (Hpub : cp_publish cp m wc
                 = (Ok tt,
                    set_out (out wc ++ ["Files added to staging area";
                                        "No changes to commit"])
                      (staged cp r wc))).
  { rewrite (cp_publish_run _ _ _ _ Hr).
    assert (Hw : worktree_of (fs wc) cp
                 = dotgit :: branch_tree (r_branches rm0) (selected_branch rm0 b))
      by (unfold worktree_of; now rewrite Hlc).
    assert (Ht : head_tree r = branch_tree (r_branches rm0) (selected_branch rm0 b)).
    { unfold head_tree. rewrite Hb. now apply branch_tree_history. }
    now rewrite Hw, Ht, tracked_dotgit, tracked_branch_tree, tree_eqb_refl. }
  set (wp := set_out (out wc ++ ["Files added to staging area"; "No changes to commit"])
               (staged cp r wc)) in *.
  assert (Hbody : cp_body url l c m b w0 = (Ok tt, wp)).
  { rewrite cp_body_prefix. fold lp cp.
    rewrite (bind_run _ _ _ _ _ Hpre). exact Hpub. }
  pose proof (clone_and_push_run url l c m b w0 _ _ Hbody) as Hrun. cbv zeta in Hrun.
  fold cp in Hrun.
  pose proof (cleanup_no_commit_line cp wp) as (l3 & Ho3 & Hf3).
  destruct (cleanup_world_facts cp wp (out wp ++ ["Performing cleanup..."])
              (fun v => out v ++ ["Cleanup completed"])) as [Hk _].
  subst w1. rewrite Hrun. simpl snd. split.
  - etransitivity; [exact Hk|]. subst wp. simpl. exact Hmc.
  - exists (["Files added to staging area"; "No changes to commit"] ++ l3).
    split; [|split].
    + etransitivity; [exact Ho3|]. subst wp. simpl out.
      rewrite <- !app_assoc. reflexivity.
    + simpl. auto.
    + intros Hin.
      assert (Hall : forallb (fun s => negb (announces_commit s))
                       (["Files added to staging area"; "No changes to commit"] ++ l3)
                     = true) by (rewrite forallb_app, Hf3; reflexivity).
      rewrite forallb_forall in Hall. specialize (Hall _ Hin).
      rewrite announces_commit_line in Hall. discriminate.
Qed.

Lemma empty_source_folder_commits_nothing_witness :
  let w1 := snd (clone_and_push_folder_fixed "url" (Rel ["certs"]) default_clone_dir
                   "msg" "main" ex_world_empty) in
  lookup_path (fs ex_world_empty) ["home"; "certs"] = Some (Dir [])
  /\ remotes w1 = remotes ex_world_empty
  /\ In "No changes to commit" (out w1).
Proof.
  intros w1. split; [reflexivity|].
  destruct (empty_source_folder_commits_nothing "url" (Rel ["certs"]) default_clone_dir
              "msg" "main" ex_world_empty (ex_remote false) ["home"; "temp_repo"]
              (snd (cp_prefix "url" ["home"; "certs"] ["home"; "temp_repo"] "main"
                      ex_world_empty)))
    as (Hm & lines & Ho & Hin & _).
  - reflexivity.
  - reflexivity.
  - reflexivity.
  - discriminate.
  - vm_compute. reflexivity.
  - split; [exact Hm|]. fold w1 in Ho. rewrite Ho. apply in_or_app. now right.
Defined.




(** * Nothing is taken away from a remote *)

Lemma extends_remote_refl rm : extends_remote rm rm.
Proof. repeat split. intros b h H. now exists []. Qed.

Lemma extends_remote_trans r1 r2 r3 :
  extends_remote r1 r2 -> extends_remote r2 r3 -> extends_remote r1 r3.
Proof.
  intros (Hd1 & Ha1 & Hb1) (Hd2 & Ha2 & Hb2). split; [congruence|]. split; [congruence|].
  intros b h H. destruct (Hb1 b h H) as (n1 & H1). destruct (Hb2 b _ H1) as (n2 & H2).
  exists (n2 ++ n1). now rewrite <- app_assoc.
Qed.

Lemma remotes_grow_same w w' : remotes w' = remotes w -> remotes_grow w w'.
Proof. intros E u rm H. exists rm. rewrite E. split; [exact H | apply extends_remote_refl]. Qed.

Lemma remotes_grow_refl w : remotes_grow w w.
Proof. now apply remotes_grow_same. Qed.

Lemma remotes_grow_trans w1 w2 w3 :
  remotes_grow w1 w2 -> remotes_grow w2 w3 -> remotes_grow w1 w3.
Proof.
  intros H1 H2 u rm H. destruct (H1 u rm H) as (rm2 & Hr2 & E2).
  destruct (H2 u rm2 Hr2) as (rm3 & Hr3 & E3). exists rm3. split; [exact Hr3|].
  eapply extends_remote_trans; eauto.
Qed.

Lemma git_kept_grows (A : Type) (c : M A) : respects git_kept c -> respects remotes_grow c.
Proof. intros H w r w' E. apply remotes_grow_same. exact (proj2 (H w r w' E)). Qed.

Lemma commit_eqb_eq a b : commit_eqb a b = true -> a = b.
Proof.
  unfold commit_eqb. intros H. apply andb_true_iff in H as [Hm Ht].
  apply String.eqb_eq in Hm. apply tree_eqb_eq in Ht.
  destruct a, b. simpl in *. congruence.
Qed.

Lemma history_eqb_eq a : forall b, history_eqb a b = true -> a = b.
Proof.
  induction a as [|x a IH]; intros [|y b]; simpl; try discriminate; auto.
  intros H. apply andb_true_iff in H as [Hc Hh].
  apply commit_eqb_eq in Hc. apply IH in Hh. congruence.
Qed.

(** A fast-forward puts commits on top of the old history. *)
Lemma is_ancestor_app old new :
  is_ancestor old new = true -> exists top, new = top ++ old.
Proof.
  induction new as [|c new IH]; cbn [is_ancestor]; intros H.
  - rewrite orb_false_r in H. apply history_eqb_eq in H. subst. now exists [].
  - apply orb_true_iff in H as [H|H].
    + apply history_eqb_eq in H. subst. now exists [].
    + destruct (IH H) as (top & ->). now exists (c :: top).
Qed.

Create HintDb grows.
#[local] Hint Resolve remotes_grow_refl : grows.
#[local] Hint Extern 1 (remotes_grow _ _) => apply remotes_grow_same; reflexivity : grows.

Ltac prim_grows :=
  respects_steps remotes_grow_refl remotes_grow_trans;
  auto with grows;
  try (leaf_run; simpl; auto with grows).

Lemma print_grows s : respects remotes_grow (print s).
Proof. apply git_kept_grows, print_git_kept. Qed.
Lemma os_path_abspath_grows s : respects remotes_grow (os_path_abspath s).
Proof. unfold os_path_abspath. prim_grows. Qed.
Lemma os_path_exists_grows p : respects remotes_grow (os_path_exists p).
Proof. apply git_kept_grows, os_path_exists_git_kept. Qed.
Lemma os_path_isdir_grows p : respects remotes_grow (os_path_isdir p).
Proof. apply git_kept_grows, os_path_isdir_git_kept. Qed.
Lemma os_listdir_grows p : respects remotes_grow (os_listdir p).
Proof. apply git_kept_grows, os_listdir_git_kept. Qed.
Lemma shutil_copytree_grows s d b : respects remotes_grow (shutil_copytree s d b).
Proof. apply git_kept_grows, shutil_copytree_git_kept. Qed.
Lemma shutil_copy2_grows s d : respects remotes_grow (shutil_copy2 s d).
Proof. apply git_kept_grows, shutil_copy2_git_kept. Qed.
Lemma safe_rmtree_grows p : respects remotes_grow (safe_rmtree p).
Proof. apply git_kept_grows, safe_rmtree_respects_git_kept. Qed.
Lemma get_repo_grows p : respects remotes_grow (get_repo p).
Proof. unfold get_repo. prim_grows. Qed.
Lemma put_repo_grows p r : respects remotes_grow (put_repo p r).
Proof. unfold put_repo. prim_grows. Qed.
Lemma Repo_clone_from_grows u d : respects remotes_grow (Repo_clone_from u d).
Proof. unfold Repo_clone_from. prim_grows. Qed.
Lemma Repo_open_grows p : respects remotes_grow (Repo_open p).
Proof. unfold Repo_open. prim_grows. Qed.
Lemma switch_to_grows p n r : respects remotes_grow (switch_to p n r).
Proof. unfold switch_to. prim_grows. Qed.

#[local] Hint Resolve print_grows os_path_abspath_grows os_path_exists_grows
  os_path_isdir_grows os_listdir_grows shutil_copytree_grows shutil_copy2_grows
  safe_rmtree_grows get_repo_grows put_repo_grows Repo_clone_from_grows
  Repo_open_grows switch_to_grows : grows.

Lemma repo_branch_names_grows p : respects remotes_grow (repo_branch_names p).
Proof. unfold repo_branch_names. prim_grows. Qed.
Lemma repo_ref_names_grows p : respects remotes_grow (repo_ref_names p).
Proof. unfold repo_ref_names. prim_grows. Qed.
Lemma git_checkout_grows p n : respects remotes_grow (git_checkout p n).
Proof. unfold git_checkout. prim_grows. Qed.
Lemma git_checkout_b_grows p n s : respects remotes_grow (git_checkout_b p n s).
Proof. unfold git_checkout_b. prim_grows. Qed.
Lemma git_add_all_grows p : respects remotes_grow (git_add_all p).
Proof. unfold git_add_all. prim_grows. Qed.
Lemma repo_is_dirty_grows p : respects remotes_grow (repo_is_dirty p).
Proof. unfold repo_is_dirty. prim_grows. Qed.
Lemma repo_untracked_files_grows p : respects remotes_grow (repo_untracked_files p).
Proof. unfold repo_untracked_files. prim_grows. Qed.
Lemma index_commit_grows p m : respects remotes_grow (index_commit p m).
Proof. unfold index_commit. prim_grows. Qed.
Lemma repo_remote_origin_grows p : respects remotes_grow (repo_remote_origin p).
Proof. unfold repo_remote_origin. prim_grows. Qed.

(** The one step that writes to a remote: a push goes through only as a
    fast-forward of one branch. *)
Lemma remote_push_grows p url : respects remotes_grow (remote_push p url).
Proof.
  unfold remote_push.
  apply (respects_bind _ remotes_grow_trans); [apply get_repo_grows|]. intros r.
  intros w res w' H.
  destruct (aget url (remotes w)) as [rm|] eqn:Hrm;
    [|injection H as _ <-; apply remotes_grow_refl].
  destruct (negb (r_accepts_push rm)); [injection H as _ <-; apply remotes_grow_refl|].
  destruct (is_ancestor (branch_history (r_branches rm) (head_branch r))
              (branch_history (heads r) (head_branch r))) eqn:Hanc;
    [|injection H as _ <-; apply remotes_grow_refl].
  injection H as _ <-. apply is_ancestor_app in Hanc as (top & Htop).
  intros u rm0 Hu. cbn [remotes set_remotes set_repos].
  destruct (String.eqb_spec url u) as [->|Hne].
  - rewrite aget_aset_same. eexists. split; [reflexivity|].
    assert (rm0 = rm) by congruence. subst rm0.
    split; [reflexivity|]. split; [reflexivity|]. cbn [r_branches].
    intros b h Hb. destruct (String.eqb_spec (head_branch r) b) as [<-|Hnb].
    + rewrite aget_aset_same. exists top. rewrite Htop. unfold branch_history.
      now rewrite Hb.
    + rewrite aget_aset_other by exact Hnb. exists []. exact Hb.
  - rewrite aget_aset_other by exact Hne. exists rm0. split; [exact Hu|].
    apply extends_remote_refl.
Qed.

#[local] Hint Resolve repo_branch_names_grows repo_ref_names_grows
  git_checkout_grows git_checkout_b_grows git_add_all_grows repo_is_dirty_grows
  repo_untracked_files_grows index_commit_grows repo_remote_origin_grows
  remote_push_grows : grows.

Lemma cp_body_grows u l c m b : respects remotes_grow (cp_body u l c m b).
Proof.
  unfold cp_body, cp_acquire, cp_switch_branch, cp_copy, cp_copy_item, cp_publish, cp_push.
  prim_grows.
Qed.

Lemma cp_cleanup_grows c : respects remotes_grow (cp_cleanup c).
Proof. unfold cp_cleanup. prim_grows. Qed.

Lemma pe_body_grows l p m b : respects remotes_grow (pe_body l p m b).
Proof.
  unfold pe_body, pe_open, pe_copy, pe_copy_item, pe_publish, pe_push.
  prim_grows.
Qed.

Lemma clone_and_push_grows url l c m b :
  respects remotes_grow (clone_and_push_folder_fixed url l c m b).
Proof.
  unfold clone_and_push_folder_fixed.
  apply (respects_try_finally _ remotes_grow_trans); [|apply cp_cleanup_grows].
  apply (respects_try_except2 _ remotes_grow_trans);
    [apply cp_body_grows| |]; intros e; apply print_grows.
Qed.

Lemma push_to_existing_grows l r m b :
  respects remotes_grow (push_to_existing_repo l r m b).
Proof.
  unfold push_to_existing_repo.
  apply (respects_try_except _ remotes_grow_trans); [apply pe_body_grows|].
  intros e. apply print_grows.
Qed.

(** X10.  Neither operation takes anything away from a remote repository,
    whatever the world it starts in and however the run ends: every remote
    is still there with its default branch and push policy, and every
    branch of it still has the commits it had, below whatever was pushed. *)
Theorem no_run_rewrites_remote_history
    (url : string) (l c r : pathstr) (m b : string) (w : world) :
  remotes_grow w (snd (clone_and_push_folder_fixed url l c m b w))
  /\ remotes_grow w (snd (push_to_existing_repo l r m b w)).
Proof.
  split.
  - eapply clone_and_push_grows. apply surjective_pairing.
  - eapply push_to_existing_grows. apply surjective_pairing.
Qed.

(** * Files held open by another program *)

Lemma held_open_kept_refl w : held_open_kept w w.
Proof. intros q ro d H. eauto. Qed.

Lemma held_open_kept_trans w1 w2 w3 :
  held_open_kept w1 w2 -> held_open_kept w2 w3 -> held_open_kept w1 w3.
Proof.
  intros H1 H2 q ro d H. destruct (H1 q ro d H) as (ro' & H'). eauto.
Qed.

Lemma held_open_kept_same_fs w w' : fs w' = fs w -> held_open_kept w w'.
Proof. intros E q ro d H. rewrite E. eauto. Qed.

(** A file and an entry without children lie apart from each other. *)
Lemma leaf_and_file_diverge n :
  forall p q x ro l d,
    lookup_path n p = Some x ->
    (x = Dir [] \/ exists ro0 l0 d0, x = File ro0 l0 d0) ->
    lookup_path n q = Some (File ro l d) ->
    p <> q ->
    diverge p q = true.
Proof.
  intros p. revert n.
  induction p as [|a p IH]; intros n [|b q] x ro l d Hp Hx Hq Hne.
  - congruence.
  - simpl in Hp. injection Hp as ->. simpl in Hq.
    destruct Hx as [->|(ro0 & l0 & d0 & ->)]; discriminate.
  - simpl in Hq. injection Hq as ->. discriminate.
  - simpl in Hp, Hq. destruct n as [|es]; [discriminate|]. simpl.
    destruct (String.eqb_spec a b) as [->|Hab]; [|reflexivity].
    destruct (aget b es) as [y|]; [|discriminate].
    apply (IH y q x ro l d); auto. congruence.
Qed.

Lemma os_unlink_held p : respects held_open_kept (os_unlink p).
Proof.
  intros w r w' H. unfold os_unlink in H.
  destruct (lookup_path (fs w) p) as [[ro l d|es]|] eqn:Hp;
    try (injection H as _ <-; apply held_open_kept_refl).
  destruct (ro || l) eqn:Hrl; injection H as _ <-; [apply held_open_kept_refl|].
  apply orb_false_iff in Hrl as [-> ->].
  intros q ro' d' Hq. exists ro'. cbn [fs set_fs].
  rewrite lookup_del_diverge; [exact Hq|].
  eapply leaf_and_file_diverge; eauto. congruence.
Qed.

Lemma os_rmdir_held p : respects held_open_kept (os_rmdir p).
Proof.
  intros w r w' H. unfold os_rmdir in H.
  destruct (lookup_path (fs w) p) as [[ro l d|[|e es]]|] eqn:Hp;
    try (injection H as _ <-; apply held_open_kept_refl).
  destruct p as [|a p]; injection H as _ <-; [apply held_open_kept_refl|].
  intros q ro' d' Hq. exists ro'.
  change (lookup_path (del_path (a :: p) (fs w)) q = Some (File ro' true d')).
  rewrite lookup_del_diverge; [exact Hq|].
  eapply leaf_and_file_diverge; eauto. congruence.
Qed.

Lemma os_scandir_held p : respects held_open_kept (os_scandir p).
Proof.
  intros w r w' H. unfold os_scandir in H. break_run H; apply held_open_kept_refl.
Qed.

Lemma os_chmod_held p : respects held_open_kept (os_chmod_S_IWRITE p).
Proof.
  intros w r w' H. unfold os_chmod_S_IWRITE in H.
  destruct (lookup_path (fs w) p) as [[ro l d|es]|] eqn:Hp;
    try (injection H as _ <-; apply held_open_kept_refl).
  destruct (put_path p (File false l d) (fs w)) as [f|] eqn:Hput;
    injection H as _ <-; [|apply held_open_kept_refl].
  intros q ro' d' Hq. cbn [fs set_fs].
  destruct (list_eq_dec string_dec p q) as [<-|Hne].
  - rewrite (lookup_put_path _ _ _ _ Hput). exists false. congruence.
  - exists ro'. rewrite (lookup_put_diverge p q _ _ _) by
      (try eassumption; eapply leaf_and_file_diverge; eauto 6).
    exact Hq.
Qed.

Lemma call_func_held f p : respects held_open_kept (call_func f p).
Proof.
  destruct f; simpl; auto using os_unlink_held, os_rmdir_held, os_scandir_held.
Qed.

Lemma handler_held f p e : respects held_open_kept (handle_remove_readonly f p e).
Proof.
  unfold handle_remove_readonly.
  apply (respects_bind _ held_open_kept_trans).
  - intros w r w' H. unfold os_path_exists in H. injection H as <- <-.
    apply held_open_kept_refl.
  - intros [|]; [|apply (respects_ret _ held_open_kept_refl)].
    apply (respects_bind _ held_open_kept_trans);
      [apply os_chmod_held | intros _; apply call_func_held].
Qed.

Lemma guarded_held f p : respects held_open_kept (guarded handle_remove_readonly f p).
Proof.
  unfold guarded. apply (respects_try_except _ held_open_kept_trans).
  - apply call_func_held.
  - intros e. apply handler_held.
Qed.

Lemma rm_children_held (rec : node -> path -> M unit) es :
  Forall (fun kx => forall p, respects held_open_kept (rec (snd kx) p)) es ->
  forall p, respects held_open_kept (rm_children rec handle_remove_readonly es p).
Proof.
  induction 1 as [|[k n] es Hn _ IH]; intros p; simpl.
  - apply (respects_ret _ held_open_kept_refl).
  - apply (respects_bind _ held_open_kept_trans); [|intros _; apply IH].
    destruct n; [apply guarded_held | apply Hn].
Qed.

Lemma rmtree_unsafe_held n :
  forall p, respects held_open_kept (rmtree_unsafe handle_remove_readonly n p).
Proof.
  induction n as [ro l d | es IH] using node_induction; intros p; simpl.
  - apply (respects_bind _ held_open_kept_trans);
      [apply handler_held | intros _; apply guarded_held].
  - apply (respects_bind _ held_open_kept_trans);
      [apply rm_children_held; exact IH | intros _; apply guarded_held].
Qed.

Lemma shutil_rmtree_held p :
  respects held_open_kept (shutil_rmtree p handle_remove_readonly).
Proof.
  intros w r w'. unfold shutil_rmtree.
  destruct (lookup_path (fs w) p).
  - apply rmtree_unsafe_held.
  - apply (respects_bind _ held_open_kept_trans);
      [apply handler_held | intros _; apply guarded_held].
Qed.

Lemma print_held s : respects held_open_kept (print s).
Proof. intros w r w' H. injection H as _ <-. now apply held_open_kept_same_fs. Qed.

Lemma safe_rmtree_held p : respects held_open_kept (safe_rmtree p).
Proof.
  unfold safe_rmtree.
  apply (respects_bind _ held_open_kept_trans).
  - intros w r w' H. unfold os_path_exists in H. injection H as <- <-.
    apply held_open_kept_refl.
  - intros [|]; [|apply (respects_ret _ held_open_kept_refl)].
    apply (respects_try_except _ held_open_kept_trans);
      [apply shutil_rmtree_held | intros e; apply print_held].
Qed.

Lemma lookup_below_exists n p x v :
  lookup_path n (p ++ x) = Some v -> exists_ n p = true.
Proof.
  rewrite lookup_path_app. unfold exists_.
  destruct (lookup_path n p); [reflexivity | discriminate].
Qed.

(** What [safe_rmtree] does to a tree with a file held open in it. *)
Lemma safe_rmtree_held_open p x w ro d :
  lookup_path (fs w) (p ++ x) = Some (File ro true d) ->
  exists e w1 ro',
    safe_rmtree p w = (Ok tt, set_out (out w1 ++ [rmtree_warning p e]) w1)
    /\ same_but_fs w w1
    /\ lookup_path (fs w1) (p ++ x) = Some (File ro' true d).
Proof.
  intros Hq.
  pose proof (safe_rmtree_held p w (fst (safe_rmtree p w)) (snd (safe_rmtree p w))
                (surjective_pairing _) _ _ _ Hq) as (ro' & Hq').
  destruct (safe_rmtree_cases p w)
    as [[Hex Hs]|[(w1 & _ & Hs & Hgone & Hf)|(e & w1 & _ & _ & Hs & Hf)]].
  - rewrite (lookup_below_exists _ _ _ _ Hq) in Hex. discriminate.
  - rewrite Hs in Hq'. simpl in Hq'.
    rewrite (lookup_below_exists _ _ _ _ Hq') in Hgone. discriminate.
  - rewrite Hs in Hq'. simpl in Hq'. exists e, w1, ro'. auto.
Qed.

(** X11.  [safe_rmtree] cannot remove a file that another program holds
    open, and does not pretend to: the file is still there afterwards with
    its content (at most its read-only attribute was cleared), whatever
    else was removed, and the call returns after printing its warning. *)
Theorem safe_rmtree_leaves_files_held_open
    (p x : path) (w : world) (ro : bool) (d : string) :
  lookup_path (fs w) (p ++ x) = Some (File ro true d) ->
  let w' := snd (safe_rmtree p w) in
  fst (safe_rmtree p w) = Ok tt
  /\ (exists ro', lookup_path (fs w') (p ++ x) = Some (File ro' true d))
  /\ (exists e, out w' = out w ++ [rmtree_warning p e])
  /\ repos w' = repos w /\ remotes w' = remotes w /\ cwd w' = cwd w.
Proof.
  intros Hq w'. subst w'.
  destruct (safe_rmtree_held_open p x w ro d Hq)
    as (e & w1 & ro' & -> & (Hc & Hr & Hm & Ho) & Hl).
  simpl. split; [reflexivity|]. split; [eauto|].
  split; [exists e; now rewrite Ho|]. auto.
Qed.

Lemma safe_rmtree_leaves_files_held_open_witness :
  let w' := snd (safe_rmtree ["home"; "certs"] (ex_world true)) in
  lookup_path (fs (ex_world true)) ["home"; "certs"; "c.pdf"] = Some (File false true "C")
  /\ lookup_path (fs w') ["home"; "certs"; "c.pdf"] = Some (File false true "C")
  /\ lookup_path (fs w') ["home"; "certs"; "a.pdf"] = None.
Proof.
  intros w'. split; [reflexivity|].
  destruct (safe_rmtree_leaves_files_held_open ["home"; "certs"] ["c.pdf"] (ex_world true)
              false "C" eq_refl) as (_ & (ro' & H) & _).
  split; [|reflexivity]. fold w' in H. simpl app in H. rewrite H.
  vm_compute in H. injection H as <-. reflexivity.
Defined.

Lemma lookup_below_not_empty n p x ro l d :
  lookup_path n (p ++ x) = Some (File ro l d) ->
  exists y, lookup_path n p = Some y /\ y <> Dir [].
Proof.
  rewrite lookup_path_app. destruct (lookup_path n p) as [y|]; [|discriminate].
  intros H. exists y. split; [reflexivity|]. intros ->.
  destruct x; discriminate.
Qed.

Lemma Repo_clone_from_refused url cp w rm y :
  aget url (remotes w) = Some rm ->
  lookup_path (fs w) cp = Some y -> y <> Dir [] ->
  Repo_clone_from url cp w
  = (Raise (GitCommandError
       ("destination path '" ++ show_path cp ++
        "' already exists and is not an empty directory")), w).
Proof.
  intros Hrm Hl Hy. unfold Repo_clone_from. rewrite Hrm, Hl.
  destruct y as [ro l d|[|e es]]; [reflexivity|congruence|reflexivity].
Qed.

(** Lines 42-52 when the old clone directory holds a file that is held
    open. *)
Lemma cp_acquire_held_open url lp cp x w ro d rm :
  lookup_path (fs w) (cp ++ x) = Some (File ro true d) ->
  aget url (remotes w) = Some rm ->
  exists w4 ro' e,
    cp_acquire url lp cp w
    = (Raise (GitCommandError
         ("destination path '" ++ show_path cp ++
          "' already exists and is not an empty directory")), w4)
    /\ git_kept w w4
    /\ lookup_path (fs w4) (cp ++ x) = Some (File ro' true d)
    /\ out w4
       = out w ++ [("Local folder: " ++ show_path lp)%string;
                   ("Clone directory: " ++ show_path cp)%string;
                   "Removing existing clone directory...";
                   rmtree_warning cp e;
                   ("Cloning repository from " ++ url ++ "...")%string].
Proof.
  intros Hq Hrm.
  set (w0 := set_out (out w ++ [("Local folder: " ++ show_path lp)%string]) w).
  set (w1 := set_out (out w0 ++ [("Clone directory: " ++ show_path cp)%string]) w0).
  set (w2 := set_out (out w1 ++ ["Removing existing clone directory..."]) w1).
  assert (He : os_path_exists cp w1 = (Ok true, w1)).
  { unfold os_path_exists. simpl fs. now rewrite (lookup_below_exists _ _ _ _ Hq). }
  destruct (safe_rmtree_held_open cp x w2 ro d Hq)
    as (e & w3 & ro' & Hs & (Hc & Hr & Hm & Ho) & Hl).
  set (w3' := set_out (out w3 ++ [rmtree_warning cp e]) w3) in *.
  assert (Hrmv : (print "Removing existing clone directory..." ;; safe_rmtree cp) w1
                 = (Ok tt, w3')).
  { unfold bind, print. fold w2. now rewrite Hs. }
  set (w4 := set_out (out w3' ++ [("Cloning repository from " ++ url ++ "...")%string]) w3').
  destruct (lookup_below_not_empty _ _ _ _ _ _ Hl) as (y & Hy & Hne).
  assert (Hclone : Repo_clone_from url cp w4
                   = (Raise (GitCommandError
                        ("destination path '" ++ show_path cp ++
                         "' already exists and is not an empty directory")), w4)).
  { apply Repo_clone_from_refused with (rm := rm) (y := y); auto.
    simpl. now rewrite Hm. }
  exists w4, ro', e. split; [|split; [|split]].
  - unfold cp_acquire.
    rewrite (bind_run _ _ _ _ _ (print_run _ w)). fold w0.
    rewrite (bind_run _ _ _ _ _ (print_run _ w0)). fold w1.
    rewrite (bind_run _ _ _ _ _ He). cbv iota.
    rewrite (bind_run _ _ _ _ _ Hrmv).
    rewrite (bind_run _ _ _ _ _ (print_run _ w3')). fold w4.
    now rewrite (bind_run_raise _ _ _ _ _ Hclone).
  - split; simpl; [rewrite Hr | rewrite Hm]; reflexivity.
  - exact Hl.
  - simpl. rewrite Ho. simpl. rewrite <- !app_assoc. reflexivity.
Qed.

(** X12.  When the clone directory is left over from an earlier run and a
    file in it is held open, [clone_and_push_folder_fixed] cannot clear the
    directory: git refuses to clone into it (line 52), the run prints that
    as ["Git command error: ..."] and goes to its cleanup.  Nothing is
    copied, committed or pushed, and the file is still there at the end. *)
Theorem held_open_file_stops_the_clone
    (url : string) (l c : pathstr) (m b : string) (w : world)
    (x : path) (ro : bool) (d : string) (rm : remote) :
  let cp := abspath_in w c in
  let w' := snd (clone_and_push_folder_fixed url l c m b w) in
  lookup_path (fs w) (cp ++ x) = Some (File ro true d) ->
  aget url (remotes w) = Some rm ->
  repos w' = repos w
  /\ remotes w' = remotes w
  /\ (exists ro', lookup_path (fs w') (cp ++ x) = Some (File ro' true d))
  /\ exists before after,
       out w'
       = out w ++ before
         ++ [("Cloning repository from " ++ url ++ "...")%string;
             ("Git command error: destination path '" ++ show_path cp
              ++ "' already exists and is not an empty directory")%string;
             "Performing cleanup..."]
         ++ after.
Proof.
  intros cp w' Hq Hrm.
  destruct (cp_acquire_held_open url (abspath_in w l) cp x w ro d rm Hq Hrm)
    as (w4 & ro1 & e1 & Hacq & [Hrp Hrem] & Hl4 & Ho4).
  set (msg := ("destination path '" ++ show_path cp
               ++ "' already exists and is not an empty directory")%string) in *.
  assert (Hb : cp_body url l c m b w = (Raise (GitCommandError msg), w4)).
  { rewrite cp_body_unfold. fold cp. now rewrite (bind_run_raise _ _ _ _ _ Hacq). }
  pose proof (clone_and_push_run url l c m b w _ _ Hb) as Hrun. cbv zeta in Hrun.
  fold cp in Hrun.
  set (w5 := set_out (out w4 ++ [error_line (GitCommandError msg)]) w4) in *.
  set (wq := set_out (out w5 ++ ["Performing cleanup..."]) w5) in *.
  destruct (safe_rmtree_held_open cp x wq ro1 d Hl4)
    as (e2 & w6 & ro2 & Hs & (Hc & Hr & Hm & Ho) & Hl6).
  rewrite Hs in Hrun. simpl snd in Hrun.
  subst w'. rewrite Hrun. simpl snd.
  split; [simpl; rewrite Hr; simpl; exact Hrp|].
  split; [simpl; rewrite Hm; simpl; exact Hrem|].
  split; [exists ro2; exact Hl6|].
  exists [("Local folder: " ++ show_path (abspath_in w l))%string;
          ("Clone directory: " ++ show_path cp)%string;
          "Removing existing clone directory...";
          rmtree_warning cp e1],
         [rmtree_warning cp e2; "Cleanup completed"].
  simpl out. rewrite Ho. simpl out. rewrite Ho4. unfold error_line. simpl.
  rewrite <- !app_assoc. reflexivity.
Qed.

Lemma held_open_file_stops_the_clone_witness :
  let w' := snd (clone_and_push_folder_fixed "url" (Rel ["certs"]) default_clone_dir
                   default_clone_message default_branch_name ex_world_busy) in
  lookup_path (fs ex_world_busy) ["home"; "temp_repo"; "open.pdf"]
  = Some (File true true "held")
  /\ remotes w' = remotes ex_world_busy
  /\ lookup_path (fs w') ["home"; "temp_repo"; "open.pdf"] = Some (File false true "held")
  /\ lookup_path (fs w') ["home"; "temp_repo"; ".git"] = None.
Proof.
  intros w'. split; [reflexivity|].
  destruct (held_open_file_stops_the_clone "url" (Rel ["certs"]) default_clone_dir
              default_clone_message default_branch_name ex_world_busy
              ["open.pdf"] true "held" (ex_remote true) eq_refl eq_refl)
    as (_ & Hm & _ & _).
  split; [exact Hm|]. split; reflexivity.
Defined.

(** * Every push is announced *)

Lemma remotes_kept_refl w : remotes_kept w w.
Proof. reflexivity. Qed.

Lemma remotes_kept_trans w1 w2 w3 :
  remotes_kept w1 w2 -> remotes_kept w2 w3 -> remotes_kept w1 w3.
Proof. unfold remotes_kept. congruence. Qed.

Lemma git_kept_remotes (A : Type) (c : M A) :
  respects git_kept c -> respects remotes_kept c.
Proof. intros H w r w' E. exact (proj2 (H w r w' E)). Qed.

Create HintDb rkept.
#[local] Hint Resolve remotes_kept_refl : rkept.
#[local] Hint Extern 1 (remotes_kept _ _) => reflexivity : rkept.

Ltac prim_remotes_kept :=
  respects_steps remotes_kept_refl remotes_kept_trans;
  auto with rkept;
  try (leaf_run; simpl; auto with rkept).

Lemma print_remotes_kept s : respects remotes_kept (print s).
Proof. apply git_kept_remotes, print_git_kept. Qed.
Lemma os_path_exists_remotes_kept p : respects remotes_kept (os_path_exists p).
Proof. apply git_kept_remotes, os_path_exists_git_kept. Qed.
Lemma os_path_isdir_remotes_kept p : respects remotes_kept (os_path_isdir p).
Proof. apply git_kept_remotes, os_path_isdir_git_kept. Qed.
Lemma os_listdir_remotes_kept p : respects remotes_kept (os_listdir p).
Proof. apply git_kept_remotes, os_listdir_git_kept. Qed.
Lemma shutil_copytree_remotes_kept s d b : respects remotes_kept (shutil_copytree s d b).
Proof. apply git_kept_remotes, shutil_copytree_git_kept. Qed.
Lemma shutil_copy2_remotes_kept s d : respects remotes_kept (shutil_copy2 s d).
Proof. apply git_kept_remotes, shutil_copy2_git_kept. Qed.
Lemma safe_rmtree_remotes_kept p : respects remotes_kept (safe_rmtree p).
Proof. apply git_kept_remotes, safe_rmtree_respects_git_kept. Qed.
Lemma os_path_abspath_remotes_kept s : respects remotes_kept (os_path_abspath s).
Proof. unfold os_path_abspath. prim_remotes_kept. Qed.
Lemma get_repo_remotes_kept p : respects remotes_kept (get_repo p).
Proof. unfold get_repo. prim_remotes_kept. Qed.
Lemma put_repo_remotes_kept p r : respects remotes_kept (put_repo p r).
Proof. unfold put_repo. prim_remotes_kept. Qed.
Lemma Repo_clone_from_remotes_kept u d : respects remotes_kept (Repo_clone_from u d).
Proof. unfold Repo_clone_from. prim_remotes_kept. Qed.
Lemma Repo_open_remotes_kept p : respects remotes_kept (Repo_open p).
Proof. unfold Repo_open. prim_remotes_kept. Qed.
Lemma switch_to_remotes_kept p n r : respects remotes_kept (switch_to p n r).
Proof. unfold switch_to. prim_remotes_kept. Qed.

#[local] Hint Resolve print_remotes_kept os_path_exists_remotes_kept
  os_path_isdir_remotes_kept os_listdir_remotes_kept shutil_copytree_remotes_kept
  shutil_copy2_remotes_kept safe_rmtree_remotes_kept get_repo_remotes_kept
  os_path_abspath_remotes_kept
  put_repo_remotes_kept Repo_clone_from_remotes_kept Repo_open_remotes_kept
  switch_to_remotes_kept : rkept.

Lemma repo_branch_names_remotes_kept p : respects remotes_kept (repo_branch_names p).
Proof. unfold repo_branch_names. prim_remotes_kept. Qed.
Lemma repo_ref_names_remotes_kept p : respects remotes_kept (repo_ref_names p).
Proof. unfold repo_ref_names. prim_remotes_kept. Qed.
Lemma git_checkout_remotes_kept p n : respects remotes_kept (git_checkout p n).
Proof. unfold git_checkout. prim_remotes_kept. Qed.
Lemma git_checkout_b_remotes_kept p n s : respects remotes_kept (git_checkout_b p n s).
Proof. unfold git_checkout_b. prim_remotes_kept. Qed.
Lemma git_add_all_remotes_kept p : respects remotes_kept (git_add_all p).
Proof. unfold git_add_all. prim_remotes_kept. Qed.
Lemma repo_is_dirty_remotes_kept p : respects remotes_kept (repo_is_dirty p).
Proof. unfold repo_is_dirty. prim_remotes_kept. Qed.
Lemma repo_untracked_files_remotes_kept p :
  respects remotes_kept (repo_untracked_files p).
Proof. unfold repo_untracked_files. prim_remotes_kept. Qed.
Lemma index_commit_remotes_kept p m : respects remotes_kept (index_commit p m).
Proof. unfold index_commit. prim_remotes_kept. Qed.
Lemma repo_remote_origin_remotes_kept p : respects remotes_kept (repo_remote_origin p).
Proof. unfold repo_remote_origin. prim_remotes_kept. Qed.

#[local] Hint Resolve repo_branch_names_remotes_kept repo_ref_names_remotes_kept
  git_checkout_remotes_kept git_checkout_b_remotes_kept git_add_all_remotes_kept
  repo_is_dirty_remotes_kept repo_untracked_files_remotes_kept
  index_commit_remotes_kept repo_remote_origin_remotes_kept : rkept.

(** The steps before the push leave the remotes alone. *)
Lemma cp_prefix_remotes_kept u lp cp b : respects remotes_kept (cp_prefix u lp cp b).
Proof. unfold cp_prefix, cp_acquire, cp_switch_branch, cp_copy, cp_copy_item. prim_remotes_kept. Qed.

Lemma cp_switch_branch_remotes_kept p b :
  respects remotes_kept (cp_switch_branch p b).
Proof. unfold cp_switch_branch. prim_remotes_kept. Qed.

Lemma pe_open_remotes_kept l p b : respects remotes_kept (pe_open l p b).
Proof. unfold pe_open. prim_remotes_kept. Qed.

Lemma pe_copy_remotes_kept l p : respects remotes_kept (pe_copy l p).
Proof. unfold pe_copy, pe_copy_item. prim_remotes_kept. Qed.

Section Reports.
Variable line : string.

Lemma reports_push_refl w : reports_push line w w.
Proof. exists []. rewrite app_nil_r. auto. Qed.

Lemma reports_push_trans w1 w2 w3 :
  reports_push line w1 w2 -> reports_push line w2 w3 -> reports_push line w1 w3.
Proof.
  intros (l1 & H1 & C1) (l2 & H2 & C2). exists (l1 ++ l2).
  split; [rewrite H2, H1; symmetry; apply app_assoc|].
  destruct C1 as [C1|C1]; [|right; apply in_or_app; auto].
  destruct C2 as [C2|C2]; [left; congruence | right; apply in_or_app; auto].
Qed.

(** A step that leaves the remotes alone has nothing to announce. *)
Lemma quiet_reports (A : Type) (c : M A) :
  respects steady c -> respects remotes_kept c -> respects (reports_push line) c.
Proof.
  intros Hs Hr w r w' E. destruct (Hs w r w' E) as [_ [l Hl]].
  exists l. split; [exact Hl|]. left. exact (Hr w r w' E).
Qed.

Lemma print_reports s : respects (reports_push line) (print s).
Proof. apply quiet_reports; [apply print_steady | apply print_remotes_kept]. Qed.

Lemma remote_push_raise p u w e w' : remote_push p u w = (Raise e, w') -> w' = w.
Proof.
  unfold remote_push, bind, get_repo. intros H. break_run H; reflexivity.
Qed.

(** The push and the line after it. *)
Lemma push_then_print_reports p u :
  respects (reports_push line) (remote_push p u ;; print line).
Proof.
  intros w r w' H. unfold bind in H.
  destruct (remote_push p u w) as [[[]|e] w1] eqn:E.
  - destruct (remote_push_steady p u _ _ _ E) as [_ [l Hl]].
    injection H as _ <-. exists (l ++ [line]). split.
    + simpl. rewrite Hl. now rewrite app_assoc.
    + right. apply in_or_app. right. now left.
  - injection H as _ <-. apply remote_push_raise in E. subst w1.
    apply reports_push_refl.
Qed.
End Reports.

Lemma cp_push_reports p :
  respects (reports_push "Successfully pushed to remote repository") (cp_push p).
Proof.
  set (line := "Successfully pushed to remote repository").
  unfold cp_push.
  apply (respects_try_except _ (reports_push_trans line)).
  - apply (respects_bind _ (reports_push_trans line)).
    + apply quiet_reports;
        [apply repo_remote_origin_steady | apply repo_remote_origin_remotes_kept].
    + intros u. apply push_then_print_reports.
  - intros e. apply (respects_bind _ (reports_push_trans line)); [apply print_reports|].
    intros _. apply print_reports.
Qed.

Lemma pe_push_reports p :
  respects (reports_push "Pushed to remote repository") (pe_push p).
Proof.
  set (line := "Pushed to remote repository").
  unfold pe_push.
  apply (respects_bind _ (reports_push_trans line)).
  - apply quiet_reports;
      [apply repo_remote_origin_steady | apply repo_remote_origin_remotes_kept].
  - intros u. apply push_then_print_reports.
Qed.

Create HintDb reports.
#[local] Hint Resolve cp_push_reports pe_push_reports : reports.
#[local] Hint Extern 2 (respects (reports_push _) _) =>
  apply quiet_reports; [auto with steady | auto with rkept] : reports.

Lemma cp_body_reports u l c m b :
  respects (reports_push "Successfully pushed to remote repository") (cp_body u l c m b).
Proof.
  set (line := "Successfully pushed to remote repository").
  unfold cp_body, cp_acquire, cp_switch_branch, cp_copy, cp_copy_item, cp_publish.
  respects_steps (reports_push_refl line) (reports_push_trans line);
    auto with reports.
Qed.

Lemma pe_body_reports l p m b :
  respects (reports_push "Pushed to remote repository") (pe_body l p m b).
Proof.
  set (line := "Pushed to remote repository").
  unfold pe_body, pe_open, pe_copy, pe_copy_item, pe_publish.
  respects_steps (reports_push_refl line) (reports_push_trans line);
    auto with reports.
Qed.

(** X13.  A remote repository changes only in a run that says so: whenever
    the remotes differ after [clone_and_push_folder_fixed], the run printed
    ["Successfully pushed to remote repository"], and whenever they differ
    after [push_to_existing_repo], it printed
    ["Pushed to remote repository"].  This holds from every starting state
    and however the run ends. *)
Theorem every_push_is_announced
    (url : string) (l c r : pathstr) (m b : string) (w : world) :
  (exists lines,
      out (snd (clone_and_push_folder_fixed url l c m b w)) = out w ++ lines
      /\ (remotes (snd (clone_and_push_folder_fixed url l c m b w)) = remotes w
          \/ In "Successfully pushed to remote repository" lines))
  /\ (exists lines,
         out (snd (push_to_existing_repo l r m b w)) = out w ++ lines
         /\ (remotes (snd (push_to_existing_repo l r m b w)) = remotes w
             \/ In "Pushed to remote repository" lines)).
Proof.
  split.
  - assert (H : respects (reports_push "Successfully pushed to remote repository")
                  (clone_and_push_folder_fixed url l c m b)).
    { unfold clone_and_push_folder_fixed.
      apply (respects_try_finally _ (reports_push_trans _)).
      - apply (respects_try_except2 _ (reports_push_trans _));
          [apply cp_body_reports| |]; intros e; apply print_reports.
      - apply quiet_reports; [apply cp_cleanup_steady|].
        unfold cp_cleanup, os_path_abspath. prim_remotes_kept. }
    eapply H. apply surjective_pairing.
  - assert (H : respects (reports_push "Pushed to remote repository")
                  (push_to_existing_repo l r m b)).
    { unfold push_to_existing_repo.
      apply (respects_try_except _ (reports_push_trans _)); [apply pe_body_reports|].
      intros e. apply print_reports. }
    eapply H. apply surjective_pairing.
Qed.

(** * Inputs that are not there *)

Lemma Repo_open_without_git p w :
  is_dir (fs w) (p ++ [".git"]) = false ->
  exists e,
    Repo_open p w = (Raise e, w)
    /\ (e = NoSuchPathError p \/ e = InvalidGitRepositoryError p).
Proof.
  intros H. unfold Repo_open. rewrite H.
  destruct (exists_ (fs w) p); simpl; eauto.
Qed.

(** X14.  [push_to_existing_repo] on a path that holds no [.git] directory
    (a missing path included) prints its two opening lines and the error of
    [git.Repo] (line 133), and does nothing else: no file, repository or
    remote is touched. *)
Theorem existing_run_needs_a_repository
    (l r : pathstr) (m b : string) (w : world) :
  let lp := abspath_in w l in
  let rp := abspath_in w r in
  is_dir (fs w) (rp ++ [".git"]) = false ->
  exists e,
    (e = NoSuchPathError rp \/ e = InvalidGitRepositoryError rp)
    /\ push_to_existing_repo l r m b w
       = (Ok tt,
          set_out (out w ++ [source_folder_line lp; target_repo_line rp;
                             ("Error: " ++ exn_str e)%string]) w).
Proof.
  intros lp rp H.
  set (w0 := set_out (out w ++ [source_folder_line lp]) w).
  set (w1 := set_out (out w0 ++ [target_repo_line rp]) w0).
  destruct (Repo_open_without_git rp w1 H) as (e & Hopen & He).
  exists e. split; [exact He|].
  assert (Hb : pe_body l r m b w = (Raise e, w1)).
  { rewrite pe_body_unfold. fold lp rp. unfold pe_open.
    unfold source_folder_line, target_repo_line in *.
    rewrite (bind_run_raise _ _ w e w1); [reflexivity|].
    rewrite (bind_run _ _ _ _ _ (print_run _ w)). fold w0.
    rewrite (bind_run _ _ _ _ _ (print_run _ w0)). fold w1.
    now rewrite (bind_run_raise _ _ _ _ _ Hopen). }
  unfold push_to_existing_repo, try_except. rewrite Hb.
  cbn [isinstance_Exception]. unfold print. f_equal.
  subst w1 w0. unfold set_out. cbn [fs cwd repos remotes out]. f_equal.
  rewrite <- !app_assoc. reflexivity.
Qed.

Lemma existing_run_needs_a_repository_witness :
  push_to_existing_repo (Rel ["certs"]) (Rel ["nowhere"]) "msg" "main" (ex_world true)
  = (Ok tt,
     set_out ["Source folder: /home/certs"; "Target repo: /home/nowhere";
              "Error: /home/nowhere"] (ex_world true)).
Proof.
  destruct (existing_run_needs_a_repository (Rel ["certs"]) (Rel ["nowhere"]) "msg" "main"
              (ex_world true) eq_refl) as (e & [-> | ->] & H);
    rewrite H; reflexivity.
Defined.

Lemma cp_switch_branch_returns p b w :
  exists w', cp_switch_branch p b w = (Ok tt, w').
Proof.
  unfold cp_switch_branch, try_except.
  match goal with |- context [match ?c w with _ => _ end] =>
    destruct (c w) as [[[]|e] w1] end; cbn [isinstance_Exception]; unfold print; eauto.
Qed.

Lemma cp_switch_branch_steady p b : respects steady (cp_switch_branch p b).
Proof. unfold cp_switch_branch. steady_steps. Qed.

Lemma os_listdir_missing p w :
  lookup_path (fs w) p = None -> os_listdir p w = (Raise (FileNotFoundError p), w).
Proof. intros H. unfold os_listdir. now rewrite H. Qed.

(** X15.  [clone_and_push_folder_fixed] looks at the source folder only
    after the clone (line 72).  When the folder does not exist and the
    clone went through, the run prints
    ["Error: No such file or directory: ..."] right after the line that
    announces the copy, and goes to its cleanup; the remote is not
    changed. *)
Theorem missing_source_folder_is_found_after_the_clone
    (url : string) (l c : pathstr) (m b : string) (w : world)
    (repo : path) (w1 : world) :
  let lp := abspath_in w l in
  let cp := abspath_in w c in
  let w' := snd (clone_and_push_folder_fixed url l c m b w) in
  diverge cp lp = true ->
  lookup_path (fs w) lp = None ->
  cp_acquire url lp cp w = (Ok repo, w1) ->
  remotes w' = remotes w
  /\ lookup_path (fs w') lp = None
  /\ exists before after,
       out w'
       = out w1 ++ before
         ++ [("Copying contents from " ++ show_path lp ++ " to " ++ show_path cp)%string;
             ("Error: No such file or directory: " ++ show_path lp)%string;
             "Performing cleanup..."]
         ++ after.
Proof.
  intros lp cp w' Hdiv Hl Hacq.
  destruct (cp_acquire_ok _ _ _ _ _ _ Hacq) as (rm & _ & -> & _ & _ & Hm1 & Ho1).
  destruct (cp_switch_branch_returns cp b w1) as (w2 & Hsw).
  pose proof (cp_switch_branch_outside cp b _ _ _ Hsw) as Ho2.
  destruct (cp_switch_branch_steady cp b _ _ _ Hsw) as [_ [l2 Hl2]].
  pose proof (cp_switch_branch_remotes_kept cp b _ _ _ Hsw) as Hm2.
  set (w3 := set_out (out w2 ++ [("Copying contents from " ++ show_path lp ++ " to "
                                  ++ show_path cp)%string]) w2).
  assert (Hl3 : lookup_path (fs w3) lp = None).
  { simpl. now rewrite (Ho2 lp Hdiv), (Ho1 lp Hdiv). }
  assert (Hcopy : cp_copy lp cp w2 = (Raise (FileNotFoundError lp), w3)).
  { unfold cp_copy. rewrite (bind_run _ _ _ _ _ (print_run _ w2)). fold w3.
    now rewrite (bind_run_raise _ _ _ _ _ (os_listdir_missing lp w3 Hl3)). }
  assert (Hb : cp_body url l c m b w = (Raise (FileNotFoundError lp), w3)).
  { rewrite cp_body_unfold. fold lp cp.
    rewrite (bind_run _ _ _ _ _ Hacq), (bind_run _ _ _ _ _ Hsw).
    now rewrite (bind_run_raise _ _ _ _ _ Hcopy). }
  pose proof (clone_and_push_run url l c m b w _ _ Hb) as Hrun. cbv zeta in Hrun.
  fold cp in Hrun.
  set (w4 := set_out (out w3 ++ [error_line (FileNotFoundError lp)]) w3) in *.
  set (wq := set_out (out w4 ++ ["Performing cleanup..."]) w4) in *.
  pose proof (safe_rmtree_git_kept cp wq) as [_ Hg].
  destruct (safe_rmtree cp wq) as [res w5] eqn:E.
  destruct (safe_rmtree_steady _ _ _ _ E) as [_ [l5 Hl5]].
  pose proof (safe_rmtree_outside cp _ _ _ E) as Ho5.
  simpl snd in *. subst w'. rewrite Hrun. simpl snd.
  split; [|split].
  - simpl. rewrite Hg. simpl. now rewrite Hm2, Hm1.
  - simpl. rewrite (Ho5 lp Hdiv). exact Hl3.
  - exists l2, (l5 ++ ["Cleanup completed"]).
    simpl out. rewrite Hl5. simpl out. rewrite Hl2. unfold error_line. simpl.
    rewrite <- !app_assoc. reflexivity.
Qed.

Lemma missing_source_folder_is_found_after_the_clone_witness :
  let w' := snd (clone_and_push_folder_fixed "url" (Rel ["nothing"]) default_clone_dir
                   default_clone_message default_branch_name (ex_world true)) in
  lookup_path (fs (ex_world true)) ["home"; "nothing"] = None
  /\ remotes w' = remotes (ex_world true)
  /\ In "Error: No such file or directory: /home/nothing" (out w').
Proof.
  intros w'. split; [reflexivity|].
  destruct (missing_source_folder_is_found_after_the_clone "url" (Rel ["nothing"])
              default_clone_dir default_clone_message default_branch_name (ex_world true)
              ["home"; "temp_repo"]
              (snd (cp_acquire "url" ["home"; "nothing"] ["home"; "temp_repo"]
                      (ex_world true))))
    as (Hm & _ & _).
  - reflexivity.
  - reflexivity.
  - vm_compute. reflexivity.
  - split; [exact Hm|]. vm_compute. auto 10.
Defined.

(** X16.  [push_to_existing_repo] with a source folder that does not exist:
    once the repository is opened (and the branch switched to), line 141
    raises, and the run ends with the one line
    ["Error: No such file or directory: ..."].  Nothing is copied, staged,
    committed or pushed. *)
Theorem existing_run_with_missing_source_folder
    (l r : pathstr) (m b : string) (w : world) (repo : path) (w1 : world) :
  let lp := abspath_in w l in
  let rp := abspath_in w r in
  diverge rp lp = true ->
  lookup_path (fs w) lp = None ->
  pe_open lp rp b w = (Ok repo, w1) ->
  push_to_existing_repo l r m b w
  = (Ok tt,
     set_out (out w1 ++ [("Error: No such file or directory: " ++ show_path lp)%string])
       w1).
Proof.
  intros lp rp Hdiv Hl Hopen.
  pose proof (pe_open_outside _ _ _ _ _ _ Hopen) as Ho.
  assert (Hl1 : lookup_path (fs w1) lp = None) by now rewrite (Ho lp Hdiv).
  assert (Hcopy : pe_copy lp rp w1 = (Raise (FileNotFoundError lp), w1)).
  { unfold pe_copy. now rewrite (bind_run_raise _ _ _ _ _ (os_listdir_missing lp w1 Hl1)). }
  assert (Hb : pe_body l r m b w = (Raise (FileNotFoundError lp), w1)).
  { rewrite pe_body_unfold. fold lp rp. rewrite (bind_run _ _ _ _ _ Hopen).
    now rewrite (bind_run_raise _ _ _ _ _ Hcopy). }
  unfold push_to_existing_repo, try_except. rewrite Hb. reflexivity.
Qed.

Lemma existing_run_with_missing_source_folder_witness :
  push_to_existing_repo (Rel ["nothing"]) (Rel ["repo"]) "msg" "main"
    (ex_world_existing true)
  = (Ok tt,
     set_out ["Source folder: /home/nothing"; "Target repo: /home/repo";
              "Switched to branch: main";
              "Error: No such file or directory: /home/nothing"]
       (ex_world_existing true)).
Proof.
  rewrite (existing_run_with_missing_source_folder (Rel ["nothing"]) (Rel ["repo"])
             "msg" "main" (ex_world_existing true) ["home"; "repo"]
             (snd (pe_open ["home"; "nothing"] ["home"; "repo"] "main"
                     (ex_world_existing true)))).
  - vm_compute. reflexivity.
  - reflexivity.
  - reflexivity.
  - vm_compute. reflexivity.
Defined.

(** * A push from an existing repository *)





(** * The script *)



(** * Copying a read-only file a second time *)

Lemma holds_all_In ss rs k x : holds_all ss rs -> In (k, x) ss -> holds x k rs.
Proof.
  induction ss as [|[k0 x0] ss IH]; simpl; [tauto|].
  intros [H0 Hall] [E|Hin]; [injection E as -> ->; exact H0 | auto].
Qed.

(** [shutil.copy2] does not overwrite the read-only copy it made. *)
Lemma merge_item_read_only cp k l d ds :
  holds (File true l d) k ds -> merge_item cp k (File true l d) ds = None.
Proof.
  simpl. unfold copy2_entry, write_file.
  intros [H|(sub & H & Hs)]; rewrite H; [reflexivity|]. now rewrite Hs.
Qed.

Lemma merge_names_read_only cp ss k l d items :
  aget k ss = Some (File true l d) ->
  In k items ->
  forall ds, holds (File true l d) k ds -> merge_names cp ss items ds = None.
Proof.
  intros Hk. induction items as [|item items IH]; simpl; [tauto|].
  intros Hin ds Hh. destruct (String.eqb_spec item k) as [->|Hne].
  - now rewrite Hk, (merge_item_read_only cp k l d ds Hh).
  - destruct Hin as [E|Hin]; [contradiction|].
    destruct (aget item ss) as [child|]; [|reflexivity].
    destruct (merge_item cp item child ds) as [ds1|] eqn:E; [|reflexivity].
    apply IH; auto. apply holds_ext with (rs := ds); auto.
    eapply merge_item_other; eauto.
Qed.

(** X19.  [shutil.copy2] (lines 86 and 154) carries the read-only attribute
    over to the copy and cannot write over a read-only file.  So a copy
    into the same checkout works once: after the copy loop of
    [push_to_existing_repo] went through for a source folder with a
    read-only file at its top, the same loop on the same checkout raises,
    and so does the loop of [clone_and_push_folder_fixed]. *)
Theorem read_only_file_is_copied_only_once
    (lp cp : path) (ss ds : entries) (w w1 : world)
    (k : string) (l : bool) (d : string) :
  diverge cp lp = true ->
  lookup_path (fs w) lp = Some (Dir ss) ->
  wf_node (Dir ss) ->
  lookup_path (fs w) cp = Some (Dir ds) ->
  aget k ss = Some (File true l d) ->
  pe_copy lp cp w = (Ok tt, w1) ->
  (exists e w2, pe_copy lp cp w1 = (Raise e, w2))
  /\ (exists e w2, cp_copy lp cp w1 = (Raise e, w2)).
Proof.
  intros Hdiv Hl Hwf Hc Hk Hcopy.
  destruct (pe_copy_ok lp cp ss ds w w1 Hdiv Hl Hc Hcopy) as (rs & Hm & Hf).
  apply wf_node_dir in Hwf as [Hnd Hwe].
  assert (Hall : holds_all ss rs).
  { apply (merge_names_holds cp ss ss) with (ds := ds); auto.
    intros k0 x0. now apply In_aget_NoDup. }
  pose proof (holds_all_In _ _ _ _ Hall (aget_In _ _ _ _ Hk)) as Hh.
  assert (Hin : In k (names ss)).
  { apply aget_In in Hk. change k with (fst (k, File true l d)). now apply in_map. }
  pose proof (merge_names_read_only cp ss k l d (names ss) Hk Hin rs Hh) as Hnone.
  assert (Hl1 : lookup_path (fs w1) lp = Some (Dir ss))
    by (rewrite Hf, lookup_repl_diverge; auto).
  assert (Hc1 : lookup_path (fs w1) cp = Some (Dir rs))
    by (rewrite Hf; eapply lookup_repl; eauto).
  split.
  - destruct (pe_copy lp cp w1) as [[[]|e] w2] eqn:E; [|eauto].
    destruct (pe_copy_ok lp cp ss rs w1 w2 Hdiv Hl1 Hc1 E) as (rs2 & Hm2 & _).
    congruence.
  - destruct (cp_copy lp cp w1) as [[[]|e] w2] eqn:E; [|eauto].
    destruct (cp_copy_ok lp cp ss rs w1 w2 Hdiv Hl1 Hc1 E) as (rs2 & Hm2 & _).
    congruence.
Qed.

Lemma read_only_file_is_copied_only_once_witness :
  let w1 := snd (pe_copy ["home"; "certs"] ["home"; "repo"] (ex_world_existing true)) in
  pe_copy ["home"; "certs"] ["home"; "repo"] (ex_world_existing true) = (Ok tt, w1)
  /\ exists e w2, pe_copy ["home"; "certs"] ["home"; "repo"] w1 = (Raise e, w2).
Proof.
  intros w1. split; [vm_compute; reflexivity|].
  refine (proj1 (read_only_file_is_copied_only_once ["home"; "certs"] ["home"; "repo"]
                   ex_source ex_checkout (ex_world_existing true) w1 "a.pdf" false "A"
                   _ _ _ _ _ _)).
  - reflexivity.
  - reflexivity.
  - simpl. repeat split; repeat constructor; simpl; intuition discriminate.
  - reflexivity.
  - reflexivity.
  - vm_compute. reflexivity.
Defined.
